(** * WAVM: atomic wait/wake runtime (Source/Runtime/Threads.cpp) and
      LLVM module emission (Lib/LLVMJIT/LLVMEmitModule.cpp)

    A shallow embedding of the two translation units and the properties
    their specification states about them.

    Conventions of the embedding.
    - Fixed-width integers are [Z] with the conversions written out
      ([U32], [I32], [U64], [Uptr]).
    - [F64] is IEEE-754 binary64, taken from [SpecFloat] (precision 53,
      maximal exponent 1024), so every operation computes.
    - Code that runs under a mutex, and a single [std::atomic] operation,
      is one state transformer; the pieces a thread can be preempted
      between are separate definitions, and the uninterrupted run of a
      C++ function is their composition. *)

From Stdlib Require Import ZArith Lia Bool Ascii Floats.SpecFloat.
From stdpp Require Import gmap strings list fin_maps pretty.

Local Open Scope Z_scope.
Set Warnings "-register-all".

(* ===================================================================== *)
(** * Source/Runtime/Threads.cpp *)
(* ===================================================================== *)

Module Threads.

(** ** Inline/BasicTypes.h *)

(** The header is not among the sources.  [Uptr] is the unsigned integer
    of pointer size; the runtime targets 64-bit hosts. *)
Definition UINT32_MAX : Z := 4294967295.
Definition UINT64_MAX : Z := 18446744073709551615.

Definition U32 (z : Z) : Z := z mod 2 ^ 32.
Definition U64 (z : Z) : Z := z mod 2 ^ 64.
Definition Uptr (z : Z) : Z := z mod 2 ^ 64.
Definition I32 (z : Z) : Z := (z + 2 ^ 31) mod 2 ^ 32 - 2 ^ 31.
Definition I64 (z : Z) : Z := (z + 2 ^ 63) mod 2 ^ 64 - 2 ^ 63.

(** ** F64 *)

Definition F64 : Type := spec_float.

Definition F64_prec : Z := 53.
Definition F64_emax : Z := 1024.

Definition F64_valid (x : F64) : bool := valid_binary F64_prec F64_emax x.

(** [F64(n)] for an unsigned integer [n]: round to nearest, ties to even. *)
Definition F64_of_U64 (n : Z) : F64 :=
  binary_normalize F64_prec F64_emax n 0 false.

Definition F64_mul (x y : F64) : F64 := SFmul F64_prec F64_emax x y.
Definition F64_leb (x y : F64) : bool := SFleb x y.

Definition isnan (x : F64) : bool :=
  match x with S754_nan => true | _ => false end.

Definition isfinite (x : F64) : bool :=
  match x with S754_zero _ | S754_finite _ _ _ => true | _ => false end.

(** The integer part of a finite double, towards zero. *)
Definition F64_trunc (x : F64) : option Z :=
  match x with
  | S754_zero _ => Some 0
  | S754_finite s m e => Some (cond_Zopp s (Z.shiftl (Z.pos m) e))
  | _ => None
  end.

(** [U64(x)] for a double [x]: the conversion truncates, and the behaviour
    is undefined when the truncated value is not representable. *)
Definition U64_of_F64 (x : F64) : option Z :=
  match F64_trunc x with
  | Some z => if (0 <=? z) && (z <=? UINT64_MAX) then Some z else None
  | None => None
  end.

(** ** Results *)

Inductive ExceptionType : Type :=
| accessViolationType
| misalignedAtomicMemoryAccessType
| integerDivideByZeroOrIntegerOverflowType.

(** The result of code without access to the shared state. *)
Inductive Checked (A : Type) : Type :=
| Value (a : A)
| FatalError            (* errorUnless failed: the process is terminated *)
| UndefinedBehavior.    (* the C++ standard gives the operation no meaning *)
Arguments Value {A} a.
Arguments FatalError {A}.
Arguments UndefinedBehavior {A}.

(** Decodes a floating-point timeout value relative to startTime. *)
Definition getEndTimeFromTimeout (startTime : Z) (timeout : F64) : Checked Z :=
  let timeoutMicroseconds := F64_mul timeout (F64_of_U64 1000) in
  if negb (isnan timeoutMicroseconds) && isfinite timeoutMicroseconds then
    if F64_leb timeoutMicroseconds (S754_zero false) then
      Value startTime
    else if F64_leb timeoutMicroseconds (F64_of_U64 (UINT64_MAX - 1)) then
      match U64_of_F64 timeoutMicroseconds with
      | Some us =>
          let endTime := U64 (startTime + us) in
          if startTime <=? endTime then Value endTime else FatalError
      | None => UndefinedBehavior
      end
    else Value UINT64_MAX
  else Value UINT64_MAX.

(** ** The shared state *)

(** Holds a list of threads (in the form of events that will wake them)
    that are waiting on a specific address.  The mutex is not a field:
    the code it guards is one transformer of the state. *)
Record WaitList : Type := mkWaitList {
  wakeEvents : list Z;
  numReferences : Z
}.

Record MemoryInstance : Type := mkMemoryInstance {
  baseAddress : Z;
  endOffset : Z
}.

Record Runtime : Type := mkRuntime {
  (** the live [WaitList] objects, by their own address *)
  waitLists : gmap Z WaitList;
  (** a map from address to a list of threads waiting on that address *)
  addressToWaitListMap : gmap Z Z;
  (** the platform's events: each created event, and whether it is signaled *)
  events : gmap Z bool;
  (** every [signalEvent] call so far, oldest first *)
  signalLog : list Z;
  (** the bytes of memory, by host address *)
  memory : gmap Z Z;
  (** the monotonic clock *)
  clock : Z
}.

Definition set_waitLists (f : gmap Z WaitList -> gmap Z WaitList) (st : Runtime) : Runtime :=
  mkRuntime (f (waitLists st)) (addressToWaitListMap st) (events st)
            (signalLog st) (memory st) (clock st).

Definition set_addressToWaitListMap (f : gmap Z Z -> gmap Z Z) (st : Runtime) : Runtime :=
  mkRuntime (waitLists st) (f (addressToWaitListMap st)) (events st)
            (signalLog st) (memory st) (clock st).

Definition set_events (f : gmap Z bool -> gmap Z bool) (st : Runtime) : Runtime :=
  mkRuntime (waitLists st) (addressToWaitListMap st) (f (events st))
            (signalLog st) (memory st) (clock st).

Definition set_signalLog (f : list Z -> list Z) (st : Runtime) : Runtime :=
  mkRuntime (waitLists st) (addressToWaitListMap st) (events st)
            (f (signalLog st)) (memory st) (clock st).

(** The result of code that runs on the shared state. *)
Inductive Outcome (A : Type) : Type :=
| Returned (a : A) (st : Runtime)
| Thrown (e : ExceptionType) (st : Runtime)   (* Runtime::throwException *)
| Fatal                    (* assert or errorUnless failed *)
| Undefined.               (* use of a destroyed object, or of an absent one *)
Arguments Returned {A} a st.
Arguments Thrown {A} e st.
Arguments Fatal {A}.
Arguments Undefined {A}.

Definition M (A : Type) : Type := Runtime -> Outcome A.

Definition ret {A} (a : A) : M A := fun st => Returned a st.

Definition bind {A B} (m : M A) (k : A -> M B) : M B :=
  fun st =>
    match m st with
    | Returned a st' => k a st'
    | Thrown e st' => Thrown e st'
    | Fatal => Fatal
    | Undefined => Undefined
    end.

Definition throwException {A} (e : ExceptionType) : M A := fun st => Thrown e st.

Definition errorUnless (b : bool) : M unit :=
  fun st => if b then Returned tt st else Fatal.

Definition assert (b : bool) : M unit := errorUnless b.

Definition liftChecked {A} (c : Checked A) : M A :=
  fun st =>
    match c with
    | Value a => Returned a st
    | FatalError => Fatal
    | UndefinedBehavior => Undefined
    end.

Notation "x <- m ;; k" := (bind m (fun x => k))
  (at level 100, m at next level, right associativity).
Notation "m ;;; k" := (bind m (fun _ => k))
  (at level 100, right associativity).

(** Reads and writes of a [WaitList] through a pointer. *)
Definition deref (waitList : Z) : M WaitList :=
  fun st =>
    match waitLists st !! waitList with
    | Some wl => Returned wl st
    | None => Undefined
    end.

Definition assign (waitList : Z) (wl : WaitList) : M unit :=
  fun st => Returned tt (set_waitLists (insert waitList wl) st).

(** ** openWaitList, closeWaitList *)

(** Opens the wait list for a given address.  Increases the wait list's
    reference count, and returns a pointer to it.  The whole body holds
    [addressToWaitListMapMutex].  [new WaitList()] returns an address
    that no live wait list has. *)
Definition openWaitList (address : Z) : M Z :=
  fun st =>
    match addressToWaitListMap st !! address with
    | Some waitList =>
        (wl <- deref waitList ;;
         assign waitList (mkWaitList (wakeEvents wl) (Uptr (numReferences wl + 1))) ;;;
         ret waitList) st
    | None =>
        let waitList := fresh (dom (waitLists st)) in
        (assign waitList (mkWaitList [] 1) ;;;
         (fun st' => Returned waitList
                       (set_addressToWaitListMap (insert address waitList) st'))) st
    end.

(** [--waitList->numReferences], one atomic operation; the new count. *)
Definition closeWaitList_decrement (waitList : Z) : M Z :=
  wl <- deref waitList ;;
  let n := Uptr (numReferences wl - 1) in
  assign waitList (mkWaitList (wakeEvents wl) n) ;;;
  ret n.

(** The body of [if(--waitList->numReferences == 0)], which holds
    [addressToWaitListMapMutex]. *)
Definition closeWaitList_locked (address waitList : Z) : M unit :=
  wl <- deref waitList ;;
  if numReferences wl =? 0 then
    assert (Z.of_nat (length (wakeEvents wl)) =? 0) ;;;
    (fun st => Returned tt
                 (set_addressToWaitListMap (delete address)
                    (set_waitLists (delete waitList) st)))
  else ret tt.

(** Closes a wait list, deleting it and removing it from the global map
    if it was the last reference. *)
Definition closeWaitList (address waitList : Z) : M unit :=
  n <- closeWaitList_decrement waitList ;;
  if n =? 0 then closeWaitList_locked address waitList else ret tt.

(** ** Platform events and the clock *)

(** Modelled from the spec: Platform::createEvent, Platform::signalEvent,
    Platform::waitForEvent and Platform::getMonotonicClock; the platform
    layer is not among the sources.  A wake token is an auto-reset event:
    signalling sets it, and the wait that it satisfies resets it.  A wait
    returns [true] when it consumed a signal, [false] when its deadline
    passed first, and no result while the caller stays blocked; the
    deadline [UINT64_MAX] never passes. *)
Definition createEvent : M Z :=
  fun st =>
    let event := fresh (dom (events st)) in
    Returned event (set_events (insert event false) st).

Definition signalEvent (event : Z) : M unit :=
  fun st =>
    match events st !! event with
    | Some _ =>
        Returned tt (set_signalLog (fun l => l ++ [event])
                       (set_events (insert event true) st))
    | None => Undefined
    end.

Definition waitForEvent (event untilTime : Z) : M (option bool) :=
  fun st =>
    match events st !! event with
    | Some true => Returned (Some true) (set_events (insert event false) st)
    | Some false =>
        if (untilTime <? UINT64_MAX) && (untilTime <=? clock st)
        then Returned (Some false) st
        else Returned None st
    | None => Undefined
    end.

Definition getMonotonicClock : M Z := fun st => Returned (clock st) st.

(** ** atomicLoad *)

(** The [Value] parameter of the templates. *)
Inductive ValueType : Type := TI32 | TI64.

Definition sizeofValue (ty : ValueType) : nat :=
  match ty with TI32 => 4%nat | TI64 => 8%nat end.

Definition asValue (ty : ValueType) (z : Z) : Z :=
  match ty with TI32 => I32 z | TI64 => I64 z end.

Fixpoint loadBytes (n : nat) (pointer : Z) (mem : gmap Z Z) : Z :=
  match n with
  | O => 0
  | S n' => default 0 (mem !! pointer) + 256 * loadBytes n' (pointer + 1) mem
  end.

(** Loads a value from memory with seq_cst memory order. *)
Definition atomicLoad (ty : ValueType) (valuePointer : Z) : M Z :=
  fun st => Returned (asValue ty (loadBytes (sizeofValue ty) valuePointer (memory st))) st.

(** ** waitOnAddress *)

(** Lines 130-146: the code between [lockMutex(waitList->mutex)] and the
    matching unlock.  The result is [None] when the value differs, and
    the thread's wake event once it is on the wait list. *)
Definition waitOnAddress_check (ty : ValueType) (threadWakeEvent : option Z)
    (valuePointer expectedValue waitList : Z) : M (option Z) :=
  v <- atomicLoad ty valuePointer ;;
  if negb (v =? expectedValue) then ret None
  else
    event <- match threadWakeEvent with
             | Some event => ret event
             | None => createEvent
             end ;;
    wl <- deref waitList ;;
    assign waitList (mkWaitList (wakeEvents wl ++ [event]) (numReferences wl)) ;;;
    ret (Some event).

(** [wakeEvents.erase(std::find(...))]: removes the first occurrence. *)
Fixpoint eraseFirst (event : Z) (l : list Z) : list Z :=
  match l with
  | [] => []
  | x :: l' => if x =? event then l' else x :: eraseFirst event l'
  end.

(** Lines 152-166: the block run under the wait list's mutex after the
    wait timed out; the result is [timedOut]. *)
Definition waitOnAddress_timedOut (waitList threadWakeEvent : Z) : M bool :=
  wl <- deref waitList ;;
  if bool_decide (threadWakeEvent ∈ wakeEvents wl) then
    assign waitList (mkWaitList (eraseFirst threadWakeEvent (wakeEvents wl))
                                (numReferences wl)) ;;;
    ret true
  else
    now <- getMonotonicClock ;;
    r <- waitForEvent threadWakeEvent now ;;
    errorUnless (match r with Some true => true | _ => false end) ;;;
    ret false.

(** What the other threads do to the shared state while this one is
    blocked in [waitForEvent], and between that wait timing out and the
    lock of the wait list being taken. *)
Record Interference : Type := mkInterference {
  whileParked : Runtime -> Runtime;
  afterTimeout : Runtime -> Runtime
}.

Definition interfere (f : Runtime -> Runtime) : M unit :=
  fun st => Returned tt (f st).

(** The result is the returned code, [None] while the call has not
    returned, paired with the thread-local [threadWakeEvent]. *)
Definition waitOnAddress (env : Interference) (ty : ValueType)
    (threadWakeEvent : option Z) (valuePointer expectedValue : Z) (timeout : F64)
  : M (option Z * option Z) :=
  startTime <- getMonotonicClock ;;
  endTime <- liftChecked (getEndTimeFromTimeout startTime timeout) ;;
  let address := valuePointer in
  waitList <- openWaitList address ;;
  parked <- waitOnAddress_check ty threadWakeEvent valuePointer expectedValue waitList ;;
  match parked with
  | None =>
      closeWaitList address waitList ;;;
      ret (Some 1, threadWakeEvent)
  | Some event =>
      interfere (whileParked env) ;;;
      signaled <- waitForEvent event endTime ;;
      match signaled with
      | None => ret (None, Some event)
      | Some true =>
          closeWaitList address waitList ;;;
          ret (Some 0, Some event)
      | Some false =>
          interfere (afterTimeout env) ;;;
          timedOut <- waitOnAddress_timedOut waitList event ;;
          closeWaitList address waitList ;;;
          ret (Some (if timedOut : bool then 2 else 0), Some event)
      end
  end.

(** ** wakeAddress *)

Fixpoint signalEvents (l : list Z) : M unit :=
  match l with
  | [] => ret tt
  | event :: l' => signalEvent event ;;; signalEvents l'
  end.

(** Lines 180-198: the block that holds the wait list's mutex; the result
    is [actualNumToWake]. *)
Definition wakeAddress_locked (waitList numToWake : Z) : M Z :=
  wl <- deref waitList ;;
  let size := Z.of_nat (length (wakeEvents wl)) in
  let actualNumToWake :=
    if (numToWake =? UINT32_MAX) || (size <? numToWake) then size else numToWake in
  signalEvents (take (Z.to_nat actualNumToWake) (wakeEvents wl)) ;;;
  assign waitList (mkWaitList (drop (Z.to_nat actualNumToWake) (wakeEvents wl))
                              (numReferences wl)) ;;;
  ret actualNumToWake.

Definition wakeAddress (address numToWake : Z) : M Z :=
  if numToWake =? 0 then ret 0
  else
    waitList <- openWaitList address ;;
    actualNumToWake <- wakeAddress_locked waitList numToWake ;;
    closeWaitList address waitList ;;;
    if actualNumToWake >? UINT32_MAX
    then throwException integerDivideByZeroOrIntegerOverflowType
    else ret (U32 actualNumToWake).

(** ** The intrinsics *)

(** Modelled from the spec: getMemoryFromRuntimeData and memoryRef, of
    RuntimePrivate.h, which is not among the sources.  The calling
    context's runtime data resolves a memory id to the memory instance,
    and the host address of a cell is the memory's base address plus the
    unsigned offset. *)
Definition ContextRuntimeData : Type := Z -> MemoryInstance.

Definition getMemoryFromRuntimeData (_context : ContextRuntimeData) (memoryId : Z)
  : MemoryInstance := _context memoryId.

Definition memoryRef (memoryInstance : MemoryInstance) (addressOffset : Z) : Z :=
  baseAddress memoryInstance + U32 addressOffset.

Definition atomic_wake (_context : ContextRuntimeData)
    (addressOffset numToWake memoryId : Z) : M Z :=
  let memoryInstance := getMemoryFromRuntimeData _context memoryId in
  if U32 addressOffset >? endOffset memoryInstance
  then throwException accessViolationType
  else if negb (Z.land addressOffset 3 =? 0)
  then throwException misalignedAtomicMemoryAccessType
  else
    let address := memoryRef memoryInstance addressOffset in
    n <- wakeAddress address (U32 numToWake) ;;
    ret (I32 n).

Definition atomic_wait_i32 (_context : ContextRuntimeData) (env : Interference)
    (threadWakeEvent : option Z)
    (addressOffset expectedValue : Z) (timeout : F64) (memoryId : Z)
  : M (option Z * option Z) :=
  let memoryInstance := getMemoryFromRuntimeData _context memoryId in
  if U32 addressOffset >? endOffset memoryInstance
  then throwException accessViolationType
  else if negb (Z.land addressOffset 3 =? 0)
  then throwException misalignedAtomicMemoryAccessType
  else
    let valuePointer := memoryRef memoryInstance addressOffset in
    waitOnAddress env TI32 threadWakeEvent valuePointer expectedValue timeout.

Definition atomic_wait_i64 (_context : ContextRuntimeData) (env : Interference)
    (threadWakeEvent : option Z)
    (addressOffset expectedValue : Z) (timeout : F64) (memoryId : Z)
  : M (option Z * option Z) :=
  let memoryInstance := getMemoryFromRuntimeData _context memoryId in
  if U32 addressOffset >? endOffset memoryInstance
  then throwException accessViolationType
  else if negb (Z.land addressOffset 7 =? 0)
  then throwException misalignedAtomicMemoryAccessType
  else
    let valuePointer := memoryRef memoryInstance addressOffset in
    waitOnAddress env TI64 threadWakeEvent valuePointer expectedValue timeout.

(** ** The address table at rest *)

(** No thread is inside [openWaitList] or [closeWaitList]: every live
    wait list is referenced and is in the table, the table names live
    wait lists only, and no two addresses share one. *)
Definition tableInvariant (st : Runtime) : Prop :=
  (forall waitList wl, waitLists st !! waitList = Some wl ->
     1 <= numReferences wl <= UINT64_MAX /\
     exists address, addressToWaitListMap st !! address = Some waitList) /\
  (forall address waitList, addressToWaitListMap st !! address = Some waitList ->
     is_Some (waitLists st !! waitList)) /\
  (forall a1 a2 waitList,
     addressToWaitListMap st !! a1 = Some waitList ->
     addressToWaitListMap st !! a2 = Some waitList -> a1 = a2).

(** The tokens registered on the wait list of an address. *)
Definition waiters (st : Runtime) (address : Z) : list Z :=
  match addressToWaitListMap st !! address with
  | Some waitList =>
      match waitLists st !! waitList with
      | Some wl => wakeEvents wl
      | None => []
      end
  | None => []
  end.

(** ** What the other threads can do *)

(** One uninterruptible piece of the code above, run by some thread, or a
    store of compiled code, or the passing of time. *)
Inductive Action : Type :=
| Act_openWaitList (address : Z)
| Act_closeWaitList_decrement (waitList : Z)
| Act_closeWaitList_locked (address waitList : Z)
| Act_waitOnAddress_check (ty : ValueType) (threadWakeEvent : option Z)
    (valuePointer expectedValue waitList : Z)
| Act_waitForEvent (event untilTime : Z)
| Act_waitOnAddress_timedOut (waitList threadWakeEvent : Z)
| Act_wakeAddress_locked (waitList numToWake : Z)
| Act_store (pointer byte : Z)
| Act_tick (elapsed : Z).

Definition discard {A} (m : M A) : M unit := m ;;; ret tt.

Definition perform (a : Action) : M unit :=
  match a with
  | Act_openWaitList address => discard (openWaitList address)
  | Act_closeWaitList_decrement waitList => discard (closeWaitList_decrement waitList)
  | Act_closeWaitList_locked address waitList => closeWaitList_locked address waitList
  | Act_waitOnAddress_check ty tls valuePointer expectedValue waitList =>
      discard (waitOnAddress_check ty tls valuePointer expectedValue waitList)
  | Act_waitForEvent event untilTime => discard (waitForEvent event untilTime)
  | Act_waitOnAddress_timedOut waitList event =>
      discard (waitOnAddress_timedOut waitList event)
  | Act_wakeAddress_locked waitList numToWake =>
      discard (wakeAddress_locked waitList numToWake)
  | Act_store pointer byte =>
      fun st => Returned tt
        (mkRuntime (waitLists st) (addressToWaitListMap st) (events st)
                   (signalLog st) (<[pointer := byte]> (memory st)) (clock st))
  | Act_tick elapsed =>
      fun st => Returned tt
        (mkRuntime (waitLists st) (addressToWaitListMap st) (events st)
                   (signalLog st) (memory st) (clock st + Z.abs elapsed))
  end.

Inductive interleaving : Runtime -> Runtime -> Prop :=
| interleaving_done st : interleaving st st
| interleaving_step a st st' st'' :
    perform a st = Returned tt st' ->
    interleaving st' st'' ->
    interleaving st st''.

(** ** Notions the properties are stated with *)

(** The exceptions a computation can throw are among [P]. *)
Definition throwsOnly {A} (P : ExceptionType -> Prop) (m : M A) : Prop :=
  forall st e st', m st = Thrown e st' -> P e.

Definition never : ExceptionType -> Prop := fun _ => False.

(** A computation that signals no event: the log, the memory and the
    clock are as before, and no event becomes signaled. *)
Definition quiet {A} (m : M A) : Prop :=
  forall st a st', m st = Returned a st' ->
    signalLog st' = signalLog st /\
    memory st' = memory st /\
    clock st' = clock st /\
    forall e, events st' !! e = Some true -> events st !! e = Some true.

(** From [st] to [st'] events were signaled only by logged calls of
    [signalEvent]. *)
Definition signalsOnly (st st' : Runtime) : Prop :=
  exists new, signalLog st' = signalLog st ++ new /\
    forall e, events st' !! e = Some true -> events st !! e = Some true \/ e ∈ new.

(** The events after each event of [l] was signaled. *)
Definition signalAll (l : list Z) (ev : gmap Z bool) : gmap Z bool :=
  foldl (fun ev e => <[e := true]> ev) ev l.

(** [actualNumToWake] at the end of the block that holds the mutex. *)
Definition numWoken (numToWake : Z) (size : Z) : Z :=
  if (numToWake =? UINT32_MAX) || (size <? numToWake) then size else numToWake.

(** The exact comparison [m * 2^e <= n] of a positive finite double with
    an integer. *)
Definition F64_finite_leZ (m : positive) (e : Z) (n : Z) : bool :=
  if 0 <=? e then Z.pos m * 2 ^ e <=? n else Z.pos m <=? n * 2 ^ (- e).

(** A thread that holds a reference can close the wait list: the list
    is live and referenced, and it has no tokens if this is the last
    reference. *)
Definition closable (st : Runtime) (waitList : Z) : Prop :=
  exists wl, waitLists st !! waitList = Some wl /\
    1 <= numReferences wl <= UINT64_MAX /\
    (numReferences wl = 1 -> wakeEvents wl = []).

(** ** States to run the code on *)

(** One wait list, for address 4096, with the tokens [l] registered on it
    and [refs] references; every token is an existing, unsignaled event. *)
Definition singleEntry (l : list Z) (refs : Z) : Runtime :=
  mkRuntime {[ 0 := mkWaitList l refs ]} {[ 4096 := 0 ]}
            (list_to_map ((fun e => (e, false)) <$> l)) [] ∅ 0.

(** [n] threads parked on address 4096, each with its own event and each
    holding a reference. *)
Definition crowd (n : nat) : list Z := Z.of_nat <$> seq 0 n.

Definition crowdedRuntime (n : nat) : Runtime := singleEntry (crowd n) (Z.of_nat n).

(** The other threads wake every thread parked on wait list 0. *)
Definition wakeAll (st : Runtime) : Runtime :=
  match perform (Act_wakeAddress_locked 0 UINT32_MAX) st with
  | Returned _ st' => st'
  | _ => st
  end.

Definition wakeAllEnv : Interference := mkInterference wakeAll (fun s => s).

(** The state after a thread waited on address 4096 next to three parked
    threads and was woken with them. *)
Definition afterWake : Runtime :=
  match waitOnAddress wakeAllEnv TI32 None 4096 0 (S754_infinity false) (crowdedRuntime 3) with
  | Returned _ st' => st'
  | _ => crowdedRuntime 3
  end.

(* --------------------------------------------------------------------- *)
(** ** atomicStore *)

(** The bytes of a value in memory, the least significant first, as
    [loadBytes] reads them. *)
Fixpoint storeBytes (n : nat) (pointer value : Z) (mem : gmap Z Z) : gmap Z Z :=
  match n with
  | O => mem
  | S n' => storeBytes n' (pointer + 1) (value / 256) (<[pointer := value mod 256]> mem)
  end.

(** Stores a value to memory with seq_cst memory order. *)
Definition atomicStore (ty : ValueType) (valuePointer newValue : Z) : M unit :=
  fun st => Returned tt
    (mkRuntime (waitLists st) (addressToWaitListMap st) (events st) (signalLog st)
               (storeBytes (sizeofValue ty) valuePointer newValue (memory st)) (clock st)).

(** ** misalignedAtomicTrap *)

Definition misalignedAtomicTrap (address : Z) : M unit :=
  throwException misalignedAtomicMemoryAccessType.

(** ** A thread that parks, and a thread that wakes it *)

(** The token a call of waitOnAddress registers: the thread's own, or a
    new event when the thread has none yet. *)
Definition tokenOf (threadWakeEvent : option Z) (st : Runtime) : Z :=
  match threadWakeEvent with
  | Some event => event
  | None => fresh (dom (events st))
  end.

(** The events once that token exists. *)
Definition withToken (threadWakeEvent : option Z) (st : Runtime) : gmap Z bool :=
  match threadWakeEvent with
  | Some _ => events st
  | None => <[fresh (dom (events st)) := false]> (events st)
  end.

(** The wait list openWaitList returns for an address, and its
    reference count once the caller holds it. *)
Definition heldBy (st : Runtime) (address : Z) : Z * Z :=
  match addressToWaitListMap st !! address with
  | Some waitList =>
      (waitList, match waitLists st !! waitList with
                 | Some wl => numReferences wl + 1
                 | None => 1
                 end)
  | None => (fresh (dom (waitLists st)), 1)
  end.

(** The state in which a thread is parked on an address: its token is
    the last of the wait list, on which it holds a reference. *)
Definition parkedOn (address waitList refs event : Z) (ev : gmap Z bool) (st : Runtime)
  : Runtime :=
  mkRuntime (<[waitList := mkWaitList (waiters st address ++ [event]) refs]> (waitLists st))
            (<[address := waitList]> (addressToWaitListMap st))
            ev (signalLog st) (memory st) (clock st).

(** Another thread runs wakeAddress from its first line to its last. *)
Definition wakes (address numToWake : Z) (st : Runtime) : Runtime :=
  match wakeAddress address numToWake st with
  | Returned _ st' => st'
  | _ => st
  end.

(** No other thread runs. *)
Definition alone : Interference := mkInterference (fun st => st) (fun st => st).

(* --------------------------------------------------------------------- *)
(** ** Tables and threads *)

(** Modelled from the spec: the types of IR/Types.h and RuntimePrivate.h
    that the code below reads, which are not among the sources.
    [FunctionType::get] returns the one object of a signature, so that
    two function types are the same exactly when their addresses are.  A
    table keeps, per element, the type and the entry point of a function
    at [baseAddress], sixteen bytes an element on the 64-bit hosts, next
    to the vector [elements] of the objects themselves; [endOffset] is
    the size in bytes of the elements at [baseAddress]. *)
Inductive IR_ValueType : Type :=
| ValueType_i32 | ValueType_i64 | ValueType_f32 | ValueType_f64 | ValueType_v128.

Inductive ResultType : Type :=
| ResultType_none
| ResultType_of (type : IR_ValueType).

Record FunctionType : Type := FunctionType_get {
  ret_type : ResultType;
  parameters : list IR_ValueType
}.

#[global] Instance IR_ValueType_eq_dec : EqDecision IR_ValueType.
Proof. solve_decision. Defined.

#[global] Instance ResultType_eq_dec : EqDecision ResultType.
Proof. solve_decision. Defined.

#[global] Instance FunctionType_eq_dec : EqDecision FunctionType.
Proof. solve_decision. Defined.

Record FunctionElement : Type := mkFunctionElement {
  fe_type : FunctionType;
  fe_value : Z
}.

Definition sizeof_FunctionElement : Z := 16.

Record TableInstance : Type := mkTableInstance {
  table_baseAddress : list FunctionElement;
  table_endOffset : Z;
  elements : list Z
}.

(** Keeps track of the entry and error functions used by a running
    WebAssembly-spawned thread. *)
Record Thread : Type := mkThread {
  context : Z;
  entryFunction : Z;
  errorFunction : Z
}.

(** [Runtime::Exception]: the types thrown above, and the two that
    [getFunctionFromTable] throws. *)
Inductive Exception : Type :=
| Exception_of (type : ExceptionType)
| undefinedTableElementType
| indirectCallSignatureMismatchType.

(** The state of the process, as far as the code that launches and ends
    threads reads and writes it. *)
Record Process : Type := mkProcess {
  (** the state of the waits and wakes *)
  runtime : Runtime;
  (** a global list of running threads created by WebAssembly code *)
  threads : list Z;
  (** the live [Thread] objects, by their address *)
  threadObjects : gmap Z Thread;
  (** the live contexts *)
  contexts : gset Z;
  (** the detached host threads: the arguments of their [threadFunc] *)
  hostThreads : list (Z * Z);
  (** the thread-local [threadWakeEvent] of the thread whose code runs *)
  tls_threadWakeEvent : option Z;
  (** the lines printed to the log, oldest first *)
  logged : list string
}.

Inductive Result (A : Type) : Type :=
| Done (a : A) (p : Process)
| Raised (e : Exception) (p : Process)     (* Runtime::throwException *)
| Aborted (message : string)               (* Errors::fatalf *)
| Unspecified.                             (* the C++ standard gives no meaning *)
Arguments Done {A} a p.
Arguments Raised {A} e p.
Arguments Aborted {A} message.
Arguments Unspecified {A}.

Definition Proc (A : Type) : Type := Process -> Result A.

Definition pure {A} (a : A) : Proc A := fun p => Done a p.

Definition andThen {A B} (m : Proc A) (k : A -> Proc B) : Proc B :=
  fun p =>
    match m p with
    | Done a p' => k a p'
    | Raised e p' => Raised e p'
    | Aborted message => Aborted message
    | Unspecified => Unspecified
    end.

Notation "x <~ m ;; k" := (andThen m (fun x => k))
  (at level 100, m at next level, right associativity).
Notation "m ;~ k" := (andThen m (fun _ => k))
  (at level 100, right associativity).

Definition raise {A} (e : Exception) : Proc A := fun p => Raised e p.

Definition fatalf {A} (message : string) : Proc A := fun _ => Aborted message.

Definition printf (line : string) : Proc unit :=
  fun p => Done tt (mkProcess (runtime p) (threads p) (threadObjects p) (contexts p)
                              (hostThreads p) (tls_threadWakeEvent p) (logged p ++ [line])).

Definition newline : string := String (Ascii.ascii_of_nat 10) EmptyString.

(** Modelled from the spec: catchRuntimeExceptions, of the runtime: runs
    the thunk and hands an exception it throws to the handler. *)
Definition catchRuntimeExceptions (thunk : Proc unit) (handler : Exception -> Proc unit)
  : Proc unit :=
  fun p =>
    match thunk p with
    | Raised e p' => handler e p'
    | r => r
    end.

(** Modelled from the spec: Platform::destroyEvent. *)
Definition destroyEvent (event : Z) : Proc unit :=
  fun p =>
    match events (runtime p) !! event with
    | Some _ =>
        Done tt (mkProcess (set_events (delete event) (runtime p)) (threads p)
                           (threadObjects p) (contexts p) (hostThreads p)
                           (tls_threadWakeEvent p) (logged p))
    | None => Unspecified
    end.

(** [elementIndex] is a U32; the product with the size of an element is
    taken in [Uptr]. *)
Definition getFunctionFromTable (table : TableInstance) (expectedType : FunctionType)
    (elementIndex : Z) : Proc Z :=
  (* Validate that the index is valid. *)
  if table_endOffset table <=? Uptr (elementIndex * sizeof_FunctionElement)
  then raise undefinedTableElementType
  else
    (* Validate that the indexed function's type matches the expected type. *)
    match table_baseAddress table !! Z.to_nat elementIndex with
    | None => fun _ => Unspecified
    | Some element =>
        let actualSignature := fe_type element in
        if negb (bool_decide (actualSignature = expectedType))
        then raise indirectCallSignatureMismatchType
        else
          match elements table !! Z.to_nat elementIndex with
          | Some object => pure object
          | None => fun _ => Unspecified
          end
    end.

(** Reads and writes of a [Thread] through a pointer, [new] and [delete]. *)
Definition derefThread (thread : Z) : Proc Thread :=
  fun p =>
    match threadObjects p !! thread with
    | Some t => Done t p
    | None => Unspecified
    end.

Definition assignThread (thread : Z) (f : Thread -> Thread) : Proc unit :=
  fun p =>
    match threadObjects p !! thread with
    | Some t =>
        Done tt (mkProcess (runtime p) (threads p) (<[thread := f t]> (threadObjects p))
                           (contexts p) (hostThreads p) (tls_threadWakeEvent p) (logged p))
    | None => Unspecified
    end.

(** [new Thread()]: the three pointers are null. *)
Definition newThread : Proc Z :=
  fun p =>
    let thread := fresh (dom (threadObjects p)) in
    Done thread (mkProcess (runtime p) (threads p)
                           (<[thread := mkThread 0 0 0]> (threadObjects p)) (contexts p)
                           (hostThreads p) (tls_threadWakeEvent p) (logged p)).

Definition deleteThread (thread : Z) : Proc unit :=
  fun p =>
    match threadObjects p !! thread with
    | Some _ =>
        Done tt (mkProcess (runtime p) (threads p) (delete thread (threadObjects p))
                           (contexts p) (hostThreads p) (tls_threadWakeEvent p) (logged p))
    | None => Unspecified
    end.

(** Lines 300-304: [threads.erase(std::find(...))] under [threadsMutex];
    erasing the end iterator has no meaning. *)
Definition threadFunc_unregister (thread : Z) : Proc unit :=
  fun p =>
    if bool_decide (thread ∈ threads p) then
      Done tt (mkProcess (runtime p) (eraseFirst thread (threads p)) (threadObjects p)
                         (contexts p) (hostThreads p) (tls_threadWakeEvent p) (logged p))
    else Unspecified.

(** Lines 293-307: what a thread does before it ends. *)
Definition threadFunc_exit (thread : Z) : Proc unit :=
  (* Destroy the thread wake event before exiting the thread. *)
  (fun p => match tls_threadWakeEvent p with
            | Some event => destroyEvent event p
            | None => Done tt p
            end) ;~
  (* Remove the thread from the global list. *)
  threadFunc_unregister thread ;~
  (* Delete the thread object. *)
  deleteThread thread.

Section Spawn.

(** Modelled from the spec: invokeFunction and describeException, of the
    runtime, which are not among the sources: the first runs the compiled
    code of a function in a context, which may do anything to the
    process, and the second words an exception for the log. *)
Variable invokeFunction : Z -> Z -> list Z -> Proc unit.
Variable describeException : Exception -> string.

Definition threadFunc (thread argument : Z) : Proc unit :=
  catchRuntimeExceptions
    (t <~ derefThread thread ;;
     invokeFunction (context t) (entryFunction t) [argument])
    (fun exception =>
       (* Log that a runtime exception was handled by a thread error function. *)
       printf ("Runtime exception in thread: " +:+ describeException exception +:+ newline) ;~
       printf ("Passing exception on to thread error handler" +:+ newline) ;~
       catchRuntimeExceptions
         (* Call the thread error function. *)
         (t <~ derefThread thread ;;
          invokeFunction (context t) (errorFunction t) [argument])
         (fun secondException =>
            (* Log that the thread error function caused a runtime exception, and
               exit with a fatal error. *)
            printf ("Runtime exception in thread error handler: "
                      +:+ describeException secondException +:+ newline) ;~
            fatalf "double fault")) ;~
  threadFunc_exit thread.

End Spawn.

(** Modelled from the spec: getTableFromRuntimeData,
    getContextFromRuntimeData and cloneContext, of the runtime: the
    runtime data of the calling context names its context and resolves a
    table id; cloning a context makes a new one. *)
Record TableRuntimeData : Type := mkTableRuntimeData {
  contextOf : Z;
  tableOf : Z -> TableInstance
}.

Definition getTableFromRuntimeData (_context : TableRuntimeData) (tableId : Z)
  : TableInstance := tableOf _context tableId.

Definition getContextFromRuntimeData (_context : TableRuntimeData) : Z :=
  contextOf _context.

Definition cloneContext (context : Z) : Proc Z :=
  fun p =>
    let clone := fresh (contexts p) in
    Done clone (mkProcess (runtime p) (threads p) (threadObjects p) ({[clone]} ∪ contexts p)
                          (hostThreads p) (tls_threadWakeEvent p) (logged p)).

(** Lines 324-327: [threads.push_back(thread)] under [threadsMutex]. *)
Definition launchThread_register (thread : Z) : Proc unit :=
  fun p => Done tt (mkProcess (runtime p) (threads p ++ [thread]) (threadObjects p)
                              (contexts p) (hostThreads p) (tls_threadWakeEvent p)
                              (logged p)).

(** Lines 329-336: the detached [std::thread] that runs
    [threadFunc(thread, argument)]. *)
Definition launchThread_spawn (thread argument : Z) : Proc unit :=
  fun p => Done tt (mkProcess (runtime p) (threads p) (threadObjects p) (contexts p)
                              (hostThreads p ++ [(thread, argument)])
                              (tls_threadWakeEvent p) (logged p)).

(** The two indices are i32 parameters of the intrinsic; the parameter
    of [getFunctionFromTable] they are passed for is a U32. *)
Definition launchThread (_context : TableRuntimeData)
    (entryFunctionIndex argument errorFunctionIndex tableId : Z) : Proc unit :=
  let defaultTable := getTableFromRuntimeData _context tableId in
  let functionType := FunctionType_get ResultType_none [ValueType_i32] in
  (* Create a thread object that will expose its entry and error functions to the
     garbage collector as roots. *)
  thread <~ newThread ;;
  clone <~ cloneContext (getContextFromRuntimeData _context) ;;
  assignThread thread (fun t => mkThread clone (entryFunction t) (errorFunction t)) ;~
  entry <~ getFunctionFromTable defaultTable functionType (U32 entryFunctionIndex) ;;
  assignThread thread (fun t => mkThread (context t) entry (errorFunction t)) ;~
  error <~ getFunctionFromTable defaultTable functionType (U32 errorFunctionIndex) ;;
  assignThread thread (fun t => mkThread (context t) (entryFunction t) error) ;~
  launchThread_register thread ;~
  launchThread_spawn thread argument.

(** ** Notions the properties of threads are stated with *)

(** The thread-local variables of a thread that starts. *)
Definition started (p : Process) : Process :=
  mkProcess (runtime p) (threads p) (threadObjects p) (contexts p) (hostThreads p)
            None (logged p).

(** The process after a thread ended. *)
Definition exited (thread : Z) (p : Process) : Process :=
  mkProcess
    (match tls_threadWakeEvent p with
     | Some event => set_events (delete event) (runtime p)
     | None => runtime p
     end)
    (eraseFirst thread (threads p)) (delete thread (threadObjects p))
    (contexts p) (hostThreads p) (tls_threadWakeEvent p) (logged p).

(** The process with more lines in the log. *)
Definition logging (lines : list string) (p : Process) : Process :=
  mkProcess (runtime p) (threads p) (threadObjects p) (contexts p) (hostThreads p)
            (tls_threadWakeEvent p) (logged p ++ lines).

(** The process once [launchThread] made the Thread object and the clone
    of the context. *)
Definition allocated (p : Process) (t : Thread) : Process :=
  mkProcess (runtime p) (threads p)
            (<[fresh (dom (threadObjects p)) := t]> (threadObjects p))
            ({[fresh (contexts p)]} ∪ contexts p)
            (hostThreads p) (tls_threadWakeEvent p) (logged p).

(** The process once [launchThread] registered and spawned the thread. *)
Definition launched (p : Process) (t : Thread) (argument : Z) : Process :=
  mkProcess (runtime p) (threads p ++ [fresh (dom (threadObjects p))])
            (<[fresh (dom (threadObjects p)) := t]> (threadObjects p))
            ({[fresh (contexts p)]} ∪ contexts p)
            (hostThreads p ++ [(fresh (dom (threadObjects p)), argument)])
            (tls_threadWakeEvent p) (logged p).

(* --------------------------------------------------------------------- *)
(** ** States and functions to run the thread functions on *)

(** A table of three functions, the second of another type. *)
Definition exampleTable : TableInstance :=
  mkTableInstance
    [mkFunctionElement (FunctionType_get ResultType_none [ValueType_i32]) 1000;
     mkFunctionElement (FunctionType_get ResultType_none []) 2000;
     mkFunctionElement (FunctionType_get ResultType_none [ValueType_i32]) 3000]
    48 [100; 200; 300].

(** The data of a context whose tables are all that table. *)
Definition exampleData : TableRuntimeData := mkTableRuntimeData 1 (fun _ => exampleTable).

(** A process without threads. *)
Definition emptyProcess : Process :=
  mkProcess (mkRuntime ∅ ∅ ∅ [] ∅ 0) [] ∅ ∅ [] None [].

(** A process with one running thread. *)
Definition runningProcess : Process :=
  mkProcess (mkRuntime ∅ ∅ ∅ [] ∅ 0) [7] {[ 7 := mkThread 1 100 300 ]} ∅ [] None [].

(** An invokeFunction whose functions return. *)
Definition returning : Z -> Z -> list Z -> Proc unit := fun _ _ _ => pure tt.

(** An invokeFunction whose functions all throw. *)
Definition trapping : Z -> Z -> list Z -> Proc unit :=
  fun _ _ _ => raise (Exception_of accessViolationType).

(** An invokeFunction whose function 100 throws, and whose other
    functions return. *)
Definition recovering : Z -> Z -> list Z -> Proc unit :=
  fun _ function _ =>
    if function =? 100 then raise (Exception_of accessViolationType) else pure tt.

(** A describeException. *)
Definition describing : Exception -> string := fun _ => "trap".

End Threads.

(* ===================================================================== *)
(** * Lib/LLVMJIT/LLVMEmitModule.cpp *)
(* ===================================================================== *)

Module LLVMJIT.

(** ** The LLVM objects the emitter builds *)

Inductive LLVMType : Type :=
| i8Type
| i32Type
| iptrType                       (* the machine-word integer *)
| i8PtrType
| FunctionTy (result : LLVMType) (params : list LLVMType)
| ArrayTy (element : LLVMType) (numElements : nat).

Inductive Linkage : Type := ExternalLinkage.

Inductive CallingConv : Type := C_CallingConv | Wasm_CallingConv.

(** [llvm::Constant]: the address of a global variable or of a function
    of the module, and the constant expressions over them.  A global is
    named; an [llvm::Function*] is the position of the function in the
    module's list. *)
Inductive Constant : Type :=
| GlobalAddress (name : string)
| FunctionAddress (function : nat)
| PtrToInt (c : Constant) (ty : LLVMType)
| ConstantArray (ty : LLVMType) (elements : list Constant).

Record GlobalVariable : Type := mkGlobalVariable {
  gv_name : string;
  gv_type : LLVMType;
  gv_isConstant : bool;
  gv_linkage : Linkage;
  gv_initializer : option Constant
}.

Section Emit.

(** IR/Module.h and IR/Types.h are not among the sources: a function
    signature, the declarations of tables, memories, globals and exception
    types, and the code of a function are the reader's to choose. *)
Context {FunctionType TableType MemoryType GlobalType ExceptionTypeSig : Type}.
Context {Code Body : Type}.

Record LLVMFunction : Type := mkLLVMFunction {
  fn_name : string;
  fn_type : LLVMType;
  fn_linkage : Linkage;
  fn_callingConv : CallingConv;
  fn_personalityFn : option Constant;
  fn_prefixData : option Constant;
  fn_body : option Body
}.

(** [llvm::Module]: its global variables and its functions, in creation
    order.  An [llvm::Function*] is the position of the function. *)
Record LLVMModule : Type := mkLLVMModule {
  m_globals : list GlobalVariable;
  m_functions : list LLVMFunction
}.

Record IndexedFunctionType : Type := mkIndexedFunctionType { index : nat }.

Record FunctionDef : Type := mkFunctionDef {
  type : IndexedFunctionType;
  code : Code
}.

Record IRModule : Type := mkIRModule {
  types : list FunctionType;
  functions_imports : list IndexedFunctionType;
  functions_defs : list FunctionDef;
  tables : list TableType;
  memories : list MemoryType;
  globals : list GlobalType;
  exceptionTypes : list ExceptionTypeSig
}.

(** [irModule.functions.size()] and [irModule.functions.getType(i)] *)
Definition functions_size (irModule : IRModule) : nat :=
  (length (functions_imports irModule) + length (functions_defs irModule))%nat.

Definition functions_getType (irModule : IRModule) (i : nat) : option IndexedFunctionType :=
  if (i <? length (functions_imports irModule))%nat
  then functions_imports irModule !! i
  else type <$> functions_defs irModule !! (i - length (functions_imports irModule))%nat.

(** The two compile-time tests of the file. *)
Record Target : Type := mkTarget {
  _WIN32 : bool;
  USE_WINDOWS_SEH : bool
}.

Record EmitModuleContext : Type := mkEmitModuleContext {
  typeIds : list Constant;
  tableOffsets : list Constant;
  memoryOffsets : list Constant;
  ctx_globals : list Constant;
  exceptionTypeInstances : list Constant;
  functions : list (option nat);
  defaultMemoryOffset : option Constant;
  defaultTableOffset : option Constant;
  moduleInstancePointer : option Constant;
  tableReferenceBias : option Constant;
  tryPrologueDummyFunction : option nat;
  cxaBeginCatchFunction : option nat;
  diFinalized : nat               (* calls of [diBuilder.finalize()] *)
}.

Variable target : Target.

(** Modelled from the spec: asLLVMType and the function emitter
    [EmitFunctionContext::emit], of LLVMJITPrivate.h and
    LLVMEmitFunctionContext.h, which are not among the sources.  The
    first lowers a signature under the Wasm calling convention; the
    second lowers the opcode stream of a definition into the body of its
    function. *)
Variable asLLVMType : FunctionType -> LLVMType.
Variable emit : EmitModuleContext -> IRModule -> FunctionDef -> Body.

(** Modelled from the spec: getExternalName, of LLVMJITPrivate.h: the
    base name followed by the index in decimal. *)
Definition getExternalName (baseName : string) (i : nat) : string :=
  baseName +:+ pretty i.

(** [llvm::Function::Create(type, linkage, name, module)] *)
Definition Function_Create (ty : LLVMType) (linkage : Linkage) (name : string)
    (llvmModule : LLVMModule) : nat * LLVMModule :=
  (length (m_functions llvmModule),
   mkLLVMModule (m_globals llvmModule)
     (m_functions llvmModule
        ++ [mkLLVMFunction name ty linkage C_CallingConv None None None])).

Definition updateFunction (function : nat) (f : LLVMFunction -> LLVMFunction)
    (llvmModule : LLVMModule) : LLVMModule :=
  mkLLVMModule (m_globals llvmModule)
    (alter f function (m_functions llvmModule)).

Definition setCallingConv (cc : CallingConv) (f : LLVMFunction) : LLVMFunction :=
  mkLLVMFunction (fn_name f) (fn_type f) (fn_linkage f) cc
                 (fn_personalityFn f) (fn_prefixData f) (fn_body f).

Definition setPersonalityFn (p : Constant) (f : LLVMFunction) : LLVMFunction :=
  mkLLVMFunction (fn_name f) (fn_type f) (fn_linkage f) (fn_callingConv f)
                 (Some p) (fn_prefixData f) (fn_body f).

Definition setPrefixData (d : Constant) (f : LLVMFunction) : LLVMFunction :=
  mkLLVMFunction (fn_name f) (fn_type f) (fn_linkage f) (fn_callingConv f)
                 (fn_personalityFn f) (Some d) (fn_body f).

Definition setBody (b : Body) (f : LLVMFunction) : LLVMFunction :=
  mkLLVMFunction (fn_name f) (fn_type f) (fn_linkage f) (fn_callingConv f)
                 (fn_personalityFn f) (fn_prefixData f) (Some b).

(** The constructor; of the debug-info builder only the number of calls
    of [finalize] is kept. *)
Definition EmitModuleContext_new (inLLVMModule : LLVMModule)
  : EmitModuleContext * LLVMModule :=
  let empty := mkEmitModuleContext [] [] [] [] [] [] None None None None None None 0 in
  if negb (USE_WINDOWS_SEH target) then
    let '(f, m) := Function_Create (FunctionTy i8PtrType [i8PtrType]) ExternalLinkage
                     "__cxa_begin_catch" inLLVMModule in
    (mkEmitModuleContext [] [] [] [] [] [] None None None None None (Some f) 0, m)
  else (empty, inLLVMModule).

Definition createImportedConstant (externalName : string) (llvmModule : LLVMModule)
  : Constant * LLVMModule :=
  (GlobalAddress externalName,
   mkLLVMModule
     (m_globals llvmModule
        ++ [mkGlobalVariable externalName i8Type false ExternalLinkage None])
     (m_functions llvmModule)).

(** [for(Uptr i = 0; i < n; ++i) out.push_back(wrap(createImportedConstant(
    outLLVMModule, getExternalName(baseName, i))))], started at [i]. *)
Fixpoint importConstants (baseName : string) (wrap : Constant -> Constant)
    (n i : nat) (out : list Constant) (llvmModule : LLVMModule)
  : list Constant * LLVMModule :=
  match n with
  | O => (out, llvmModule)
  | S n' =>
      let '(c, m) := createImportedConstant (getExternalName baseName i) llvmModule in
      importConstants baseName wrap n' (S i) (out ++ [wrap c]) m
  end.

Definition asIptr (c : Constant) : Constant := PtrToInt c iptrType.

(** The loop that creates the LLVM functions, started at [functionIndex];
    [None] when [irModule.types] is indexed out of range. *)
Fixpoint createFunctions (irModule : IRModule) (n functionIndex : nat)
    (fns : list (option nat)) (llvmModule : LLVMModule)
  : option (list (option nat) * LLVMModule) :=
  match n with
  | O => Some (fns, llvmModule)
  | S n' =>
      ity ← functions_getType irModule functionIndex ;
      functionType ← types irModule !! index ity ;
      let numImports := length (functions_imports irModule) in
      let name :=
        if (numImports <=? functionIndex)%nat
        then getExternalName "functionDef" (functionIndex - numImports)
        else getExternalName "functionImport" functionIndex in
      let '(function, m) :=
        Function_Create (asLLVMType functionType) ExternalLinkage name llvmModule in
      let m := updateFunction function (setCallingConv Wasm_CallingConv) m in
      createFunctions irModule n' (S functionIndex) 
        (<[functionIndex := Some function]> fns) m
  end.

(** The loop that compiles each function in the module, started at
    [functionDefIndex]; [None] when a vector is indexed out of range. *)
Fixpoint compileFunctions (moduleContext : EmitModuleContext) (irModule : IRModule)
    (personalityFunction : Constant) (n functionDefIndex : nat)
    (llvmModule : LLVMModule) : option LLVMModule :=
  match n with
  | O => Some llvmModule
  | S n' =>
      functionDef ← functions_defs irModule !! functionDefIndex ;
      function ← mjoin (functions moduleContext
                   !! (length (functions_imports irModule) + functionDefIndex)%nat) ;
      let m := updateFunction function (setPersonalityFn personalityFunction) llvmModule in
      let '(c, m) :=
        createImportedConstant (getExternalName "functionDefInstance" functionDefIndex) m in
      let functionInstance := PtrToInt c iptrType in
      typeId ← typeIds moduleContext !! index (type functionDef) ;
      let m := updateFunction function
                 (setPrefixData (ConstantArray (ArrayTy iptrType 2)
                                   [functionInstance; typeId])) m in
      let m := updateFunction function
                 (setBody (emit moduleContext irModule functionDef)) m in
      compileFunctions moduleContext irModule personalityFunction n' (S functionDefIndex) m
  end.

Definition personalityName : string :=
  if _WIN32 target then "__C_specific_handler" else "__gxx_personality_v0".

Definition emitModule (irModule : IRModule) (outLLVMModule : LLVMModule)
  : option (EmitModuleContext * LLVMModule) :=
  let '(ctx, m) := EmitModuleContext_new outLLVMModule in
  let '(p, m) := Function_Create (FunctionTy i32Type []) ExternalLinkage personalityName m in
  let personalityFunction := FunctionAddress p in
  let '(typeIds', m) :=
    importConstants "typeId" asIptr (length (types irModule)) 0 [] m in
  let '(tableOffsets', m) :=
    importConstants "tableOffset" asIptr (length (tables irModule)) 0 [] m in
  let defaultTableOffset' := tableOffsets' !! 0%nat in
  let '(memoryOffsets', m) :=
    importConstants "memoryOffset" asIptr (length (memories irModule)) 0 [] m in
  let defaultMemoryOffset' := memoryOffsets' !! 0%nat in
  let '(globals', m) :=
    importConstants "global" id (length (globals irModule)) 0 [] m in
  let '(exceptionTypeInstances', m) :=
    importConstants "exceptionType" id (length (exceptionTypes irModule)) 0 [] m in
  let '(moduleInstancePointer', m) := createImportedConstant "moduleInstance" m in
  let '(bias, m) := createImportedConstant "tableReferenceBias" m in
  let tableReferenceBias' := PtrToInt bias iptrType in
  '(functions', m) ←
    createFunctions irModule (functions_size irModule) 0
      (replicate (functions_size irModule) None) m ;
  let moduleContext :=
    mkEmitModuleContext typeIds' tableOffsets' memoryOffsets' globals'
      exceptionTypeInstances' functions' defaultMemoryOffset' defaultTableOffset'
      (Some moduleInstancePointer') (Some tableReferenceBias')
      (tryPrologueDummyFunction ctx) (cxaBeginCatchFunction ctx) (diFinalized ctx) in
  m ← compileFunctions moduleContext irModule personalityFunction
         (length (functions_defs irModule)) 0 m ;
  Some (mkEmitModuleContext typeIds' tableOffsets' memoryOffsets' globals'
          exceptionTypeInstances' functions' defaultMemoryOffset' defaultTableOffset'
          (Some moduleInstancePointer') (Some tableReferenceBias')
          (tryPrologueDummyFunction ctx) (cxaBeginCatchFunction ctx)
          (S (diFinalized ctx)),
        m).

(** ** Notions the properties are stated with *)

(** The global variable [createImportedConstant] declares. *)
Definition importedGlobal (name : string) : GlobalVariable :=
  mkGlobalVariable name i8Type false ExternalLinkage None.

(** The name the loop that creates the LLVM functions gives to the
    function of an index. *)
Definition functionName (irModule : IRModule) (functionIndex : nat) : string :=
  let numImports := length (functions_imports irModule) in
  if (numImports <=? functionIndex)%nat
  then getExternalName "functionDef" (functionIndex - numImports)
  else getExternalName "functionImport" functionIndex.

(** The prefix data of the definition [functionDefIndex], of type index
    [typeIndex]. *)
Definition prefixDataOf (functionDefIndex typeIndex : nat) : Constant :=
  ConstantArray (ArrayTy iptrType 2)
    [PtrToInt (GlobalAddress (getExternalName "functionDefInstance" functionDefIndex)) iptrType;
     PtrToInt (GlobalAddress (getExternalName "typeId" typeIndex)) iptrType].

(** The function of a definition once the loop that compiles each
    function has run on it. *)
Definition compiled (moduleContext : EmitModuleContext) (irModule : IRModule)
    (p tid : Constant) (j : nat) (def : FunctionDef) (f : LLVMFunction)
  : LLVMFunction :=
  setBody (emit moduleContext irModule def)
    (setPrefixData
       (ConstantArray (ArrayTy iptrType 2)
          [PtrToInt (GlobalAddress (getExternalName "functionDefInstance" j)) iptrType; tid])
       (setPersonalityFn p f)).

(** The declaration of [__cxa_begin_catch]. *)
Definition cxaBeginCatchDeclaration : LLVMFunction :=
  mkLLVMFunction "__cxa_begin_catch" (FunctionTy i8PtrType [i8PtrType])
                 ExternalLinkage C_CallingConv None None None.

(** A validated module: every function's type index is in [types]. *)
Definition validTypeIndices (irModule : IRModule) : Prop :=
  (forall ity, ity ∈ functions_imports irModule ->
     (index ity < length (types irModule))%nat) /\
  (forall def, def ∈ functions_defs irModule ->
     (index (type def) < length (types irModule))%nat).

(** The globals [importConstants] declares for [n] objects. *)
Definition importedGlobals (baseName : string) (n : nat) : list GlobalVariable :=
  (fun k => importedGlobal (getExternalName baseName k)) <$> seq 0 n.

(** The constants [importConstants] hands to the context. *)
Definition importedConstants (baseName : string) (wrap : Constant -> Constant) (n : nat)
  : list Constant :=
  (fun k => wrap (GlobalAddress (getExternalName baseName k))) <$> seq 0 n.

(** The globals emitModule declares, in the order it declares them. *)
Definition declaredGlobals (irModule : IRModule) : list GlobalVariable :=
  importedGlobals "typeId" (length (types irModule))
  ++ importedGlobals "tableOffset" (length (tables irModule))
  ++ importedGlobals "memoryOffset" (length (memories irModule))
  ++ importedGlobals "global" (length (globals irModule))
  ++ importedGlobals "exceptionType" (length (exceptionTypes irModule))
  ++ [importedGlobal "moduleInstance"; importedGlobal "tableReferenceBias"]
  ++ importedGlobals "functionDefInstance" (length (functions_defs irModule)).

(** The functions of the module before emitModule creates those of the
    WebAssembly module: those it was given, [__cxa_begin_catch] and the
    personality function. *)
Definition preamble (outLLVMModule : LLVMModule) : list LLVMFunction :=
  m_functions outLLVMModule
  ++ (if USE_WINDOWS_SEH target then [] else [cxaBeginCatchDeclaration])
  ++ [mkLLVMFunction personalityName (FunctionTy i32Type [])
        ExternalLinkage C_CallingConv None None None].

(** The context the functions are compiled in: that of the result before
    [diBuilder.finalize()]. *)
Definition compilationContext (irModule : IRModule) (outLLVMModule : LLVMModule)
  : EmitModuleContext :=
  let tableOffsets' := importedConstants "tableOffset" asIptr (length (tables irModule)) in
  let memoryOffsets' := importedConstants "memoryOffset" asIptr (length (memories irModule)) in
  mkEmitModuleContext
    (importedConstants "typeId" asIptr (length (types irModule)))
    tableOffsets' memoryOffsets'
    (importedConstants "global" id (length (globals irModule)))
    (importedConstants "exceptionType" id (length (exceptionTypes irModule)))
    ((fun k => Some (length (preamble outLLVMModule) + k)%nat)
       <$> seq 0 (functions_size irModule))
    (memoryOffsets' !! 0%nat) (tableOffsets' !! 0%nat)
    (Some (GlobalAddress "moduleInstance"))
    (Some (PtrToInt (GlobalAddress "tableReferenceBias") iptrType))
    None
    (if USE_WINDOWS_SEH target then None else Some (length (m_functions outLLVMModule)))
    0.

(** The declaration the loop that creates the LLVM functions makes for
    the function of an index. *)
Definition declaredFunction (irModule : IRModule) (functionIndex : nat)
  : option LLVMFunction :=
  ity ← functions_getType irModule functionIndex ;
  functionType ← types irModule !! index ity ;
  Some (mkLLVMFunction (functionName irModule functionIndex) (asLLVMType functionType)
          ExternalLinkage Wasm_CallingConv None None None).

(** The symbols emitModule adds to a module, and their names. *)
Inductive Symbol : Type :=
| SymTypeId (typeIndex : nat)
| SymTableOffset (tableIndex : nat)
| SymMemoryOffset (memoryIndex : nat)
| SymGlobal (globalIndex : nat)
| SymExceptionTypeInstance (exceptionTypeIndex : nat)
| SymModuleInstance
| SymTableReferenceBias
| SymFunctionDefInstance (functionDefIndex : nat)
| SymCxaBeginCatch
| SymPersonality
| SymFunctionImport (functionIndex : nat)
| SymFunctionDef (functionDefIndex : nat).

Definition symbolName (s : Symbol) : string :=
  match s with
  | SymTypeId i => getExternalName "typeId" i
  | SymTableOffset i => getExternalName "tableOffset" i
  | SymMemoryOffset i => getExternalName "memoryOffset" i
  | SymGlobal i => getExternalName "global" i
  | SymExceptionTypeInstance i => getExternalName "exceptionType" i
  | SymModuleInstance => "moduleInstance"
  | SymTableReferenceBias => "tableReferenceBias"
  | SymFunctionDefInstance j => getExternalName "functionDefInstance" j
  | SymCxaBeginCatch => "__cxa_begin_catch"
  | SymPersonality => personalityName
  | SymFunctionImport i => getExternalName "functionImport" i
  | SymFunctionDef j => getExternalName "functionDef" j
  end.

(** The globals, then the functions, each in the order of their creation. *)
Definition globalSymbols (irModule : IRModule) : list Symbol :=
  (SymTypeId <$> seq 0 (length (types irModule)))
  ++ (SymTableOffset <$> seq 0 (length (tables irModule)))
  ++ (SymMemoryOffset <$> seq 0 (length (memories irModule)))
  ++ (SymGlobal <$> seq 0 (length (globals irModule)))
  ++ (SymExceptionTypeInstance <$> seq 0 (length (exceptionTypes irModule)))
  ++ [SymModuleInstance; SymTableReferenceBias]
  ++ (SymFunctionDefInstance <$> seq 0 (length (functions_defs irModule))).

Definition functionSymbols (irModule : IRModule) : list Symbol :=
  (if USE_WINDOWS_SEH target then [] else [SymCxaBeginCatch])
  ++ [SymPersonality]
  ++ (SymFunctionImport <$> seq 0 (length (functions_imports irModule)))
  ++ (SymFunctionDef <$> seq 0 (length (functions_defs irModule))).

End Emit.

(** A module to run the emitter on: two types, one import, three
    definitions and one table. *)
Definition exampleModule : @IRModule unit unit unit unit unit unit :=
  mkIRModule [tt; tt] [mkIndexedFunctionType 1]
    [mkFunctionDef (mkIndexedFunctionType 0) tt;
     mkFunctionDef (mkIndexedFunctionType 1) tt;
     mkFunctionDef (mkIndexedFunctionType 1) tt] [tt] [] [] [].

End LLVMJIT.

(* ===================================================================== *)
(** * Properties of Source/Runtime/Threads.cpp *)
(* ===================================================================== *)

Import Threads.

(** ** Which exceptions a computation can throw *)

Lemma throwsOnly_bind {A B} P (m : M A) (k : A -> M B) :
  throwsOnly P m -> (forall a, throwsOnly P (k a)) -> throwsOnly P (bind m k).
Proof.
  intros Hm Hk st e st'. unfold bind.
  destruct (m st) as [a s|e0 s| |] eqn:E; try discriminate.
  - apply Hk.
  - intros [= -> ->]. eapply Hm, E.
Qed.

Lemma throwsOnly_weaken {A} (P Q : ExceptionType -> Prop) (m : M A) :
  (forall e, P e -> Q e) -> throwsOnly P m -> throwsOnly Q m.
Proof. intros HPQ Hm st e st' H. eauto. Qed.

Lemma ret_never {A} (a : A) : throwsOnly never (ret a).
Proof. intros st e st'; discriminate. Qed.

Lemma deref_never p : throwsOnly never (deref p).
Proof. intros st e st'. unfold deref. destruct (_ !! _); discriminate. Qed.

Lemma assign_never p wl : throwsOnly never (assign p wl).
Proof. intros st e st'; discriminate. Qed.

Lemma errorUnless_never b : throwsOnly never (errorUnless b).
Proof. intros st e st'. unfold errorUnless. destruct b; discriminate. Qed.

Lemma liftChecked_never {A} (c : Checked A) : throwsOnly never (liftChecked c).
Proof. intros st e st'. unfold liftChecked. destruct c; discriminate. Qed.

Lemma createEvent_never : throwsOnly never createEvent.
Proof. intros st e st'; discriminate. Qed.

Lemma signalEvent_never ev : throwsOnly never (signalEvent ev).
Proof. intros st e st'. unfold signalEvent. destruct (_ !! _); discriminate. Qed.

Lemma waitForEvent_never ev t : throwsOnly never (waitForEvent ev t).
Proof.
  intros st e st'. unfold waitForEvent.
  destruct (_ !! _) as [[|]|]; try discriminate. destruct (_ && _); discriminate.
Qed.

Lemma getMonotonicClock_never : throwsOnly never getMonotonicClock.
Proof. intros st e st'; discriminate. Qed.

Lemma atomicLoad_never ty p : throwsOnly never (atomicLoad ty p).
Proof. intros st e st'; discriminate. Qed.

Lemma interfere_never f : throwsOnly never (interfere f).
Proof. intros st e st'; discriminate. Qed.

Ltac never_throws :=
  repeat first
    [ apply ret_never | apply deref_never | apply assign_never
    | apply errorUnless_never | apply liftChecked_never | apply createEvent_never
    | apply signalEvent_never | apply waitForEvent_never
    | apply getMonotonicClock_never | apply atomicLoad_never | apply interfere_never
    | apply throwsOnly_bind; [ | intros ? ]
    | match goal with
      | |- forall _, _ => intros ?; cbv beta
      | |- throwsOnly _ (if ?b then _ else _) => destruct b
      | |- throwsOnly _ (match ?x with _ => _ end) => destruct x
      | |- throwsOnly _ (fun _ => Returned _ _) => intros ? ? ?; discriminate
      end ].

Lemma openWaitList_never a : throwsOnly never (openWaitList a).
Proof.
  intros st e st'. unfold openWaitList.
  destruct (_ !! _) as [p|].
  - intros H. eapply (throwsOnly_bind never); [ | | exact H]; never_throws.
  - cbn. discriminate.
Qed.

Lemma closeWaitList_never a p : throwsOnly never (closeWaitList a p).
Proof.
  unfold closeWaitList, closeWaitList_decrement, closeWaitList_locked, assert.
  never_throws.
Qed.

Lemma signalEvents_never l : throwsOnly never (signalEvents l).
Proof. induction l; cbn [signalEvents]; never_throws. exact IHl. Qed.

Lemma wakeAddress_locked_never p n : throwsOnly never (wakeAddress_locked p n).
Proof. unfold wakeAddress_locked. never_throws. apply signalEvents_never. Qed.

Lemma wakeAddress_throwsOnly a n :
  throwsOnly (fun e => e = integerDivideByZeroOrIntegerOverflowType) (wakeAddress a n).
Proof.
  unfold wakeAddress. destruct (n =? 0).
  - intros st e st'; discriminate.
  - apply throwsOnly_bind; [eapply throwsOnly_weaken, openWaitList_never; intros ? [] | intros p].
    apply throwsOnly_bind;
      [eapply throwsOnly_weaken, wakeAddress_locked_never; intros ? [] | intros k].
    apply throwsOnly_bind; [eapply throwsOnly_weaken, closeWaitList_never; intros ? [] | intros _].
    destruct (k >? UINT32_MAX).
    + intros st e st'. unfold throwException. congruence.
    + intros st e st'; discriminate.
Qed.

Lemma waitOnAddress_check_never ty tls vp ex p :
  throwsOnly never (waitOnAddress_check ty tls vp ex p).
Proof. unfold waitOnAddress_check. never_throws. Qed.

Lemma waitOnAddress_timedOut_never p ev : throwsOnly never (waitOnAddress_timedOut p ev).
Proof. unfold waitOnAddress_timedOut. never_throws. Qed.

Lemma waitOnAddress_never env ty tls vp ex t : throwsOnly never (waitOnAddress env ty tls vp ex t).
Proof.
  unfold waitOnAddress.
  apply throwsOnly_bind; [never_throws | intros startTime].
  apply throwsOnly_bind; [never_throws | intros endTime].
  apply throwsOnly_bind; [apply openWaitList_never | intros p].
  apply throwsOnly_bind; [apply waitOnAddress_check_never | intros [ev|]].
  - apply throwsOnly_bind; [never_throws | intros _].
    apply throwsOnly_bind; [never_throws | intros [[|]|]].
    + apply throwsOnly_bind; [apply closeWaitList_never | intros; never_throws].
    + apply throwsOnly_bind; [never_throws | intros _].
      apply throwsOnly_bind; [apply waitOnAddress_timedOut_never | intros b].
      apply throwsOnly_bind; [apply closeWaitList_never | intros; never_throws].
    + never_throws.
  - apply throwsOnly_bind; [apply closeWaitList_never | intros; never_throws].
Qed.

Lemma land_low (z : Z) (k : Z) : 0 <= k -> Z.land z (2 ^ k - 1) = z mod 2 ^ k.
Proof. intros Hk. rewrite <- Z.land_ones by lia. f_equal. rewrite Z.ones_equiv. lia. Qed.

Lemma U32_mod_pow2 z k : 0 <= k <= 32 -> U32 z mod 2 ^ k = z mod 2 ^ k.
Proof.
  intros Hk. unfold U32.
  assert (0 < 2 ^ k) by (apply Z.pow_pos_nonneg; lia).
  assert (0 < 2 ^ (32 - k)) by (apply Z.pow_pos_nonneg; lia).
  replace (2 ^ 32) with (2 ^ k * 2 ^ (32 - k)) by (rewrite <- Z.pow_add_r by lia; f_equal; lia).
  rewrite Z.rem_mul_r by lia.
  rewrite (Z.mul_comm (2 ^ k)), Z_mod_plus_full. apply Z.mod_mod. lia.
Qed.

(** ** The checks made before every wait and wake *)

(** C4. Each of atomic_wake, atomic_wait_i32 and atomic_wait_i64 throws
    accessViolation exactly when the offset, read as an unsigned 32-bit
    number, is greater than the memory's endOffset (an offset equal to
    endOffset passes), and then throws misalignedAtomicMemoryAccess
    exactly when the bounds check passed and the offset is not a multiple
    of the access width: 4 for atomic_wake and atomic_wait_i32, 8 for
    atomic_wait_i64.  Both traps leave the shared state as it was. *)
Theorem prevalidation_traps
    (_context : ContextRuntimeData) (env : Interference) (threadWakeEvent : option Z)
    (addressOffset numToWake expected : Z) (timeout : F64) (memoryId : Z)
    (st st' : Runtime) :
  let memoryInstance := getMemoryFromRuntimeData _context memoryId in
  let outOfBounds := endOffset memoryInstance < U32 addressOffset in
  (atomic_wake _context addressOffset numToWake memoryId st
     = Thrown accessViolationType st' <-> outOfBounds /\ st' = st) /\
  (atomic_wake _context addressOffset numToWake memoryId st
     = Thrown misalignedAtomicMemoryAccessType st'
   <-> ~ outOfBounds /\ U32 addressOffset mod 4 <> 0 /\ st' = st) /\
  (atomic_wait_i32 _context env threadWakeEvent addressOffset expected timeout memoryId st
     = Thrown accessViolationType st' <-> outOfBounds /\ st' = st) /\
  (atomic_wait_i32 _context env threadWakeEvent addressOffset expected timeout memoryId st
     = Thrown misalignedAtomicMemoryAccessType st'
   <-> ~ outOfBounds /\ U32 addressOffset mod 4 <> 0 /\ st' = st) /\
  (atomic_wait_i64 _context env threadWakeEvent addressOffset expected timeout memoryId st
     = Thrown accessViolationType st' <-> outOfBounds /\ st' = st) /\
  (atomic_wait_i64 _context env threadWakeEvent addressOffset expected timeout memoryId st
     = Thrown misalignedAtomicMemoryAccessType st'
   <-> ~ outOfBounds /\ U32 addressOffset mod 8 <> 0 /\ st' = st).
Proof.
  intros memoryInstance outOfBounds. subst outOfBounds.
  assert (H4 : Z.land addressOffset 3 = U32 addressOffset mod 4).
  { rewrite (U32_mod_pow2 _ 2) by lia. apply (land_low _ 2). lia. }
  assert (H8 : Z.land addressOffset 7 = U32 addressOffset mod 8).
  { rewrite (U32_mod_pow2 _ 3) by lia. apply (land_low _ 3). lia. }
  unfold atomic_wake, atomic_wait_i32, atomic_wait_i64.
  fold memoryInstance. rewrite H4, H8.
  assert (Hwake : forall e s, e <> integerDivideByZeroOrIntegerOverflowType ->
            (n <- wakeAddress (memoryRef memoryInstance addressOffset) (U32 numToWake) ;;
             ret (I32 n)) st <> Thrown e s).
  { intros e s He H.
    eapply (throwsOnly_bind (fun e => e = integerDivideByZeroOrIntegerOverflowType)) in H;
      [ contradiction | apply wakeAddress_throwsOnly | intros ? ? ? ?; discriminate ]. }
  assert (Hwait : forall ty e s,
            waitOnAddress env ty threadWakeEvent (memoryRef memoryInstance addressOffset)
              expected timeout st <> Thrown e s).
  { intros ty e s H. exact (waitOnAddress_never _ _ _ _ _ _ _ _ _ H). }
  destruct (Z.gtb_spec (U32 addressOffset) (endOffset memoryInstance)) as [Hb|Hb];
    destruct (Z.eqb_spec (U32 addressOffset mod 4) 0) as [Ha4|Ha4];
    destruct (Z.eqb_spec (U32 addressOffset mod 8) 0) as [Ha8|Ha8];
    cbn [negb]; unfold throwException;
    repeat match goal with |- _ /\ _ => split end;
    (split; intros H;
     [ first [ injection H as <-; repeat match goal with |- _ /\ _ => split end;
               first [reflexivity | lia | assumption]
             | discriminate H
             | exfalso; first [ eapply Hwake, H; discriminate | eapply Hwait, H ] ]
     | first [ destruct H as (? & ? & ->) | destruct H as (? & ->) ];
       first [ reflexivity | lia | congruence ] ]).
Qed.

(** C10. The bounds check compares the offset after its conversion to an
    unsigned 32-bit number: an offset with the sign bit set is compared
    as a value of at least 2^31, and each of the three intrinsics throws
    accessViolation whenever the memory's endOffset is below 2^31. *)
Theorem negative_offset_is_out_of_bounds
    (_context : ContextRuntimeData) (env : Interference) (threadWakeEvent : option Z)
    (addressOffset numToWake expected : Z) (timeout : F64) (memoryId : Z)
    (st : Runtime) :
  - 2 ^ 31 <= addressOffset < 0 ->
  endOffset (getMemoryFromRuntimeData _context memoryId) < 2 ^ 31 ->
  2 ^ 31 <= U32 addressOffset /\
  U32 addressOffset = addressOffset + 2 ^ 32 /\
  atomic_wake _context addressOffset numToWake memoryId st
    = Thrown accessViolationType st /\
  atomic_wait_i32 _context env threadWakeEvent addressOffset expected timeout memoryId st
    = Thrown accessViolationType st /\
  atomic_wait_i64 _context env threadWakeEvent addressOffset expected timeout memoryId st
    = Thrown accessViolationType st.
Proof.
  intros Hneg Hend.
  assert (HU : U32 addressOffset = addressOffset + 2 ^ 32).
  { unfold U32. symmetry. apply (Z.mod_unique_pos _ _ (-1)); lia. }
  unfold atomic_wake, atomic_wait_i32, atomic_wait_i64.
  destruct (Z.gtb_spec (U32 addressOffset)
              (endOffset (getMemoryFromRuntimeData _context memoryId))) as [Hb|Hb];
    [ | lia ].
  repeat split; try reflexivity; lia.
Qed.

Lemma negative_offset_is_out_of_bounds_witness :
  let _context := fun _ : Z => mkMemoryInstance 4096 65536 in
  let env := mkInterference (fun st => st) (fun st => st) in
  let st := mkRuntime ∅ ∅ ∅ [] ∅ 0 in
  2 ^ 31 <= U32 (-4) /\
  U32 (-4) = -4 + 2 ^ 32 /\
  atomic_wake _context (-4) 1 0 st = Thrown accessViolationType st /\
  atomic_wait_i32 _context env None (-4) 0 (S754_zero false) 0 st
    = Thrown accessViolationType st /\
  atomic_wait_i64 _context env None (-4) 0 (S754_zero false) 0 st
    = Thrown accessViolationType st.
Proof.
  intros _context env st.
  apply (negative_offset_is_out_of_bounds _context env None (-4) 1 0 (S754_zero false) 0 st).
  - lia.
  - simpl. lia.
Defined.

(** ** getEndTimeFromTimeout *)

Lemma digits2_pos_size m : digits2_pos m = Pos.size m.
Proof. induction m as [m IH|m IH|]; cbn; rewrite ?IH; reflexivity. Qed.

Lemma digits2_pos_bounds m :
  2 ^ (Z.pos (digits2_pos m) - 1) <= Z.pos m < 2 ^ Z.pos (digits2_pos m).
Proof.
  induction m as [m IH|m IH|]; cbn [digits2_pos].
  - rewrite Pos2Z.inj_succ.
    replace (Z.succ (Z.pos (digits2_pos m)) - 1) with (Z.succ (Z.pos (digits2_pos m) - 1)) by lia.
    rewrite !Z.pow_succ_r by lia. lia.
  - rewrite Pos2Z.inj_succ.
    replace (Z.succ (Z.pos (digits2_pos m)) - 1) with (Z.succ (Z.pos (digits2_pos m) - 1)) by lia.
    rewrite !Z.pow_succ_r by lia. lia.
  - cbn. lia.
Qed.

Lemma F64_valid_finite s m e :
  F64_valid (S754_finite s m e) = true ->
  Z.pos m < 2 ^ 53 /\ -1074 <= e <= 971 /\ (e <> -1074 -> 2 ^ 52 <= Z.pos m).
Proof.
  unfold F64_valid, valid_binary, bounded, canonical_mantissa, fexp, emin, F64_prec, F64_emax.
  intros H. apply andb_true_iff in H as [Hc He].
  apply Z.eqb_eq in Hc. apply Z.leb_le in He.
  pose proof (digits2_pos_bounds m) as [Hlo Hhi].
  set (d := Z.pos (digits2_pos m)) in *.
  assert (Hd : 0 < d) by (subst d; lia).
  assert (Hd53 : d <= 53) by lia.
  split; [ | split; [lia | ] ].
  - eapply Z.lt_le_trans; [exact Hhi | ]. apply Z.pow_le_mono_r; lia.
  - intros Hne. assert (d = 53) by lia.
    replace (d - 1) with 52 in Hlo by lia. exact Hlo.
Qed.

Lemma U64_add_checked startTime t :
  0 <= startTime <= UINT64_MAX -> 0 <= t <= UINT64_MAX ->
  (if startTime <=? U64 (startTime + t) then Value (U64 (startTime + t)) else FatalError)
  = if startTime + t <=? UINT64_MAX then Value (startTime + t) else FatalError.
Proof.
  unfold UINT64_MAX, U64. intros Hs Ht.
  destruct (Z.leb_spec (startTime + t) 18446744073709551615) as [Hfit|Hwrap].
  - rewrite Z.mod_small by lia.
    destruct (Z.leb_spec startTime (startTime + t)); [reflexivity | lia].
  - assert (Hm : (startTime + t) mod 2 ^ 64 = startTime + t - 2 ^ 64).
    { symmetry. apply (Z.mod_unique_pos _ _ 1); lia. }
    rewrite Hm.
    destruct (Z.leb_spec startTime (startTime + t - 2 ^ 64)); [lia | reflexivity].
Qed.

Lemma shiftl_small m e :
  Z.pos m < 2 ^ 53 -> e < 12 -> 0 <= Z.shiftl (Z.pos m) e <= UINT64_MAX.
Proof.
  intros Hm He. unfold UINT64_MAX.
  destruct (Z.le_gt_cases 0 e) as [Hpos|Hneg].
  - rewrite Z.shiftl_mul_pow2 by lia.
    assert (2 ^ e <= 2 ^ 11) by (apply Z.pow_le_mono_r; lia).
    assert (0 < 2 ^ e) by (apply Z.pow_pos_nonneg; lia).
    split; [lia | ].
    apply Z.le_trans with ((2 ^ 53 - 1) * 2 ^ 11); [ | vm_compute; discriminate].
    apply Z.mul_le_mono_nonneg; lia.
  - rewrite Z.shiftl_div_pow2 by lia.
    assert (0 < 2 ^ (- e)) by (apply Z.pow_pos_nonneg; lia).
    split; [apply Z.div_pos; lia | ].
    apply Z.le_trans with (Z.pos m); [ | lia].
    apply Z.div_le_upper_bound; [lia | ]. nia.
Qed.

Lemma F64_finite_leZ_small m e :
  Z.pos m < 2 ^ 53 -> e < 12 -> F64_finite_leZ m e (UINT64_MAX - 1) = true.
Proof.
  intros Hm He. unfold F64_finite_leZ, UINT64_MAX.
  destruct (Z.leb_spec 0 e) as [Hpos|Hneg].
  - apply Z.leb_le.
    assert (2 ^ e <= 2 ^ 11) by (apply Z.pow_le_mono_r; lia).
    assert (0 < 2 ^ e) by (apply Z.pow_pos_nonneg; lia).
    apply Z.le_trans with ((2 ^ 53 - 1) * 2 ^ 11); [ | vm_compute; discriminate].
    apply Z.mul_le_mono_nonneg; lia.
  - apply Z.leb_le.
    assert (0 < 2 ^ (- e)) by (apply Z.pow_pos_nonneg; lia). nia.
Qed.

Lemma F64_finite_leZ_large m e :
  2 ^ 52 <= Z.pos m -> 12 <= e -> F64_finite_leZ m e (UINT64_MAX - 1) = false.
Proof.
  intros Hm He. unfold F64_finite_leZ, UINT64_MAX.
  destruct (Z.leb_spec 0 e) as [_|]; [ | lia].
  apply Z.leb_gt.
  assert (2 ^ 12 <= 2 ^ e) by (apply Z.pow_le_mono_r; lia).
  apply Z.lt_le_trans with (2 ^ 52 * 2 ^ 12); [reflexivity | ].
  apply Z.mul_le_mono_nonneg; lia.
Qed.

(** X1.  Every case of getEndTimeFromTimeout, for a product
    [timeout * 1000.0] that is a binary64 value: NaN and the infinities
    give UINT64_MAX; zeros and negative values give startTime; a positive
    value of at most UINT64_MAX - 1 gives startTime plus its integer part,
    or the fatal error when that sum does not fit 64 bits; 2^64 itself is
    converted although [U64] cannot hold it; every larger value gives
    UINT64_MAX. *)
Theorem getEndTimeFromTimeout_cases (startTime : Z) (timeout : F64) :
  0 <= startTime <= UINT64_MAX ->
  F64_valid (F64_mul timeout (F64_of_U64 1000)) = true ->
  getEndTimeFromTimeout startTime timeout
  = match F64_mul timeout (F64_of_U64 1000) with
    | S754_nan | S754_infinity _ => Value UINT64_MAX
    | S754_zero _ | S754_finite true _ _ => Value startTime
    | S754_finite false m e =>
        if F64_finite_leZ m e (UINT64_MAX - 1) then
          if startTime + Z.shiftl (Z.pos m) e <=? UINT64_MAX
          then Value (startTime + Z.shiftl (Z.pos m) e)
          else FatalError
        else if (Z.pos m =? 2 ^ 52) && (e =? 12) then UndefinedBehavior
        else Value UINT64_MAX
    end.
Proof.
  intros Hstart. unfold getEndTimeFromTimeout.
  assert (Hc : F64_of_U64 (UINT64_MAX - 1) = S754_finite false 4503599627370496 12)
    by (vm_compute; reflexivity).
  rewrite Hc. clear Hc.
  destruct (F64_mul timeout (F64_of_U64 1000)) as [s|s| |s m e]; intros Hvalid;
    try reflexivity.
  destruct s; [reflexivity | ].
  apply F64_valid_finite in Hvalid as (Hm & He & Hnormal).
  cbn [isnan isfinite negb andb].
  change (F64_leb (S754_finite false m e) (S754_zero false)) with false. cbv iota.
  unfold F64_leb, SFleb, SFcompare.
  destruct (Z.compare_spec e 12) as [->|Hlt|Hgt].
  - (* the exponent of 2^64 *)
    assert (H52 : 2 ^ 52 <= Z.pos m) by (apply Hnormal; discriminate).
    rewrite F64_finite_leZ_large by lia.
    assert (Hcc : Pos.compare_cont Eq m 4503599627370496 = Pos.compare m 4503599627370496)
      by (unfold Pos.compare; reflexivity).
    rewrite Hcc. clear Hcc.
    destruct (Pos.compare_spec m 4503599627370496) as [->|Hl|Hg].
    + reflexivity.
    + exfalso. apply Pos2Z.pos_lt_pos in Hl.
      exact (Z.lt_irrefl _ (Z.lt_le_trans _ _ _ Hl H52)).
    + destruct (Z.eqb_spec (Z.pos m) (2 ^ 52)) as [E|_]; [ | reflexivity].
      exfalso. injection E as ->. exact (Pos.lt_irrefl _ Hg).
  - rewrite F64_finite_leZ_small by lia.
    unfold U64_of_F64, F64_trunc. cbn [cond_Zopp].
    pose proof (shiftl_small m e Hm Hlt) as Hs.
    destruct (Z.leb_spec 0 (Z.shiftl (Z.pos m) e)); [ | lia].
    destruct (Z.leb_spec (Z.shiftl (Z.pos m) e) UINT64_MAX); [ | lia].
    cbn [andb]. apply U64_add_checked; assumption.
  - assert (H52 : 2 ^ 52 <= Z.pos m) by (apply Hnormal; lia).
    rewrite F64_finite_leZ_large by lia.
    destruct (Z.eqb_spec e 12) as [|_]; [lia | ].
    rewrite andb_false_r. reflexivity.
Qed.

(** ** getEndTimeFromTimeout at the upper edge of its range *)

(** C3. The double [18446744073709552.0] times [1000.0] is exactly 2^64.
    [F64(UINT64_MAX - 1)] is 2^64 as well, so the test
    [timeoutMicroseconds <= F64(UINT64_MAX - 1)] passes although the value
    is above [UINT64_MAX - 1], and [U64(timeoutMicroseconds)] converts a
    value that [U64] cannot hold: the result is not [UINT64_MAX]. *)
Theorem getEndTimeFromTimeout_at_two_pow_64 (startTime : Z) :
  let timeout := F64_of_U64 18446744073709552 in
  let timeoutMicroseconds := F64_mul timeout (F64_of_U64 1000) in
  F64_valid timeout = true /\
  F64_trunc timeout = Some 18446744073709552 /\
  F64_trunc timeoutMicroseconds = Some (2 ^ 64) /\
  UINT64_MAX - 1 < 2 ^ 64 /\
  F64_of_U64 (UINT64_MAX - 1) = timeoutMicroseconds /\
  U64_of_F64 timeoutMicroseconds = None /\
  getEndTimeFromTimeout startTime timeout = UndefinedBehavior /\
  getEndTimeFromTimeout startTime timeout <> Value UINT64_MAX.
Proof.
  intros timeout timeoutMicroseconds.
  assert (Hmul : timeoutMicroseconds = S754_finite false 4503599627370496 12)
    by (vm_compute; reflexivity).
  assert (Hget : getEndTimeFromTimeout startTime timeout = UndefinedBehavior).
  { unfold getEndTimeFromTimeout. fold timeout. fold timeoutMicroseconds.
    rewrite Hmul. vm_compute. reflexivity. }
  repeat split; try (vm_compute; reflexivity); try exact Hget.
  rewrite Hget. discriminate.
Qed.

(** ** Running openWaitList and closeWaitList *)

Lemma Uptr_small z : 0 <= z <= UINT64_MAX -> Uptr z = z.
Proof. intros H. unfold Uptr. apply Z.mod_small. unfold UINT64_MAX in H. lia. Qed.

Lemma openWaitList_existing st address waitList wl :
  addressToWaitListMap st !! address = Some waitList ->
  waitLists st !! waitList = Some wl ->
  openWaitList address st
  = Returned waitList
      (set_waitLists
         (insert waitList (mkWaitList (wakeEvents wl) (Uptr (numReferences wl + 1)))) st).
Proof.
  intros Ht Hh. unfold openWaitList. rewrite Ht.
  unfold bind, deref. rewrite Hh. reflexivity.
Qed.

Lemma openWaitList_absent st address :
  addressToWaitListMap st !! address = None ->
  let waitList := fresh (dom (waitLists st)) in
  waitLists st !! waitList = None /\
  openWaitList address st
  = Returned waitList
      (set_addressToWaitListMap (insert address waitList)
         (set_waitLists (insert waitList (mkWaitList [] 1)) st)).
Proof.
  intros Ht waitList. split.
  - apply not_elem_of_dom. apply is_fresh.
  - unfold openWaitList. rewrite Ht. reflexivity.
Qed.

Lemma closeWaitList_decrement_live st waitList wl :
  waitLists st !! waitList = Some wl ->
  closeWaitList_decrement waitList st
  = Returned (Uptr (numReferences wl - 1))
      (set_waitLists
         (insert waitList (mkWaitList (wakeEvents wl) (Uptr (numReferences wl - 1)))) st).
Proof.
  intros Hh. unfold closeWaitList_decrement, bind, deref. rewrite Hh. reflexivity.
Qed.

Lemma closeWaitList_locked_live st address waitList wl :
  waitLists st !! waitList = Some wl ->
  closeWaitList_locked address waitList st
  = if numReferences wl =? 0 then
      if Z.of_nat (length (wakeEvents wl)) =? 0
      then Returned tt (set_addressToWaitListMap (delete address)
                          (set_waitLists (delete waitList) st))
      else Fatal
    else Returned tt st.
Proof.
  intros Hh. unfold closeWaitList_locked, bind, deref. rewrite Hh.
  destruct (numReferences wl =? 0); [ | reflexivity].
  unfold assert, errorUnless. destruct (_ =? 0); reflexivity.
Qed.

Lemma closeWaitList_live st address waitList wl :
  waitLists st !! waitList = Some wl ->
  closeWaitList address waitList st
  = let n := Uptr (numReferences wl - 1) in
    let st1 := set_waitLists (insert waitList (mkWaitList (wakeEvents wl) n)) st in
    if n =? 0 then
      if Z.of_nat (length (wakeEvents wl)) =? 0
      then Returned tt (set_addressToWaitListMap (delete address)
                          (set_waitLists (delete waitList) st1))
      else Fatal
    else Returned tt st1.
Proof.
  intros Hh. unfold closeWaitList. unfold bind at 1.
  rewrite (closeWaitList_decrement_live _ _ _ Hh). cbn zeta.
  destruct (Uptr (numReferences wl - 1) =? 0) eqn:E; [ | reflexivity].
  erewrite closeWaitList_locked_live.
  2:{ unfold set_waitLists; cbn. apply lookup_insert_eq. }
  cbn. rewrite E. reflexivity.
Qed.

Lemma tableInvariant_open_existing st address waitList wl :
  tableInvariant st ->
  addressToWaitListMap st !! address = Some waitList ->
  waitLists st !! waitList = Some wl ->
  numReferences wl < UINT64_MAX ->
  tableInvariant
    (set_waitLists (insert waitList (mkWaitList (wakeEvents wl) (numReferences wl + 1))) st).
Proof.
  intros (Hlive & Htab & Hinj) Ht Hh Hb.
  split; [ | split]; cbn.
  - intros p wl'. rewrite lookup_insert. case_decide as E.
    + intros [= <-]. subst p. cbn. destruct (Hlive _ _ Hh) as [? ?]. split; [lia | eauto].
    + apply Hlive.
  - intros a p Hp. rewrite lookup_insert. case_decide; eauto.
  - exact Hinj.
Qed.

Lemma tableInvariant_open_absent st address :
  tableInvariant st ->
  addressToWaitListMap st !! address = None ->
  tableInvariant
    (set_addressToWaitListMap (insert address (fresh (dom (waitLists st))))
       (set_waitLists (insert (fresh (dom (waitLists st))) (mkWaitList [] 1)) st)).
Proof.
  intros (Hlive & Htab & Hinj) Ht.
  assert (Hf : waitLists st !! fresh (dom (waitLists st)) = None)
    by (apply not_elem_of_dom, is_fresh).
  set (p0 := fresh (dom (waitLists st))) in *.
  split; [ | split]; cbn.
  - intros p wl'. rewrite lookup_insert. case_decide as E.
    + intros [= <-]. subst p. cbn. split; [unfold UINT64_MAX; lia | ].
      exists address. apply lookup_insert_eq.
    + intros Hp. destruct (Hlive _ _ Hp) as [? [a Ha]]. split; [assumption | ].
      exists a. rewrite lookup_insert_ne; [assumption | congruence].
  - intros a p. rewrite !lookup_insert. case_decide as E.
    + intros [= <-]. rewrite decide_True by reflexivity. eauto.
    + intros Hp. case_decide; eauto.
  - intros a1 a2 p. rewrite !lookup_insert.
    repeat case_decide; subst; intros H1 H2; try congruence.
    + injection H1 as <-. destruct (Htab _ _ H2) as [? ?]. congruence.
    + injection H2 as <-. destruct (Htab _ _ H1) as [? ?]. congruence.
    + eauto.
Qed.

Lemma tableInvariant_close_stay st waitList wl :
  tableInvariant st ->
  waitLists st !! waitList = Some wl ->
  2 <= numReferences wl ->
  tableInvariant
    (set_waitLists (insert waitList (mkWaitList (wakeEvents wl) (numReferences wl - 1))) st).
Proof.
  intros (Hlive & Htab & Hinj) Hh Hb.
  split; [ | split]; cbn.
  - intros p wl'. rewrite lookup_insert. case_decide as E.
    + intros [= <-]. subst p. cbn. destruct (Hlive _ _ Hh) as [? ?]. split; [lia | eauto].
    + apply Hlive.
  - intros a p Hp. rewrite lookup_insert. case_decide; eauto.
  - exact Hinj.
Qed.

Lemma tableInvariant_close_last st address waitList wl :
  tableInvariant st ->
  addressToWaitListMap st !! address = Some waitList ->
  tableInvariant
    (set_addressToWaitListMap (delete address)
       (set_waitLists (delete waitList)
          (set_waitLists (insert waitList wl) st))).
Proof.
  intros (Hlive & Htab & Hinj) Ht.
  split; [ | split]; cbn.
  - intros p wl'. rewrite lookup_delete. case_decide as E; [discriminate | ].
    rewrite lookup_insert_ne by congruence. intros Hp.
    destruct (Hlive _ _ Hp) as [? [a Ha]]. split; [assumption | ].
    exists a. rewrite lookup_delete_ne; [assumption | ]. intros <-. congruence.
  - intros a p. rewrite lookup_delete. case_decide as E; [discriminate | ].
    intros Hp. rewrite lookup_delete_ne.
    + rewrite lookup_insert_ne; [eauto | ]. intros <-. apply E. eauto.
    + intros <-. apply E. eauto.
  - intros a1 a2 p. rewrite !lookup_delete. repeat case_decide; try discriminate. eauto.
Qed.

Lemma length_zero_nil {A} (l : list A) : (Z.of_nat (length l) =? 0) = true <-> l = [].
Proof. destruct l; cbn; split; intros H; try reflexivity; try discriminate; lia. Qed.

(** openWaitList and closeWaitList on a table at rest, run with no other
    thread between their pieces.  At rest a wait list is in the address
    table exactly when it is live with a reference count of at least 1.
    openWaitList either increments the count of the entry it finds or
    inserts a fresh wait list whose count is 1, and keeps the table at
    rest.  closeWaitList decrements the count; a count that stays
    positive leaves the entry, and a count that reaches 0 destroys the
    wait list and erases the entry if wakeEvents is empty, and fails the
    assertion otherwise.  The block under the table mutex erases only on
    a count of 0 and empty wakeEvents; when the one thing that happened
    since the decrement to 0 is an openWaitList of another thread, it
    finds 1 and the entry stays. *)
Theorem addressTable_invariant (st : Runtime) (address : Z) :
  tableInvariant st ->
  (forall waitList wl, addressToWaitListMap st !! address = Some waitList ->
     waitLists st !! waitList = Some wl -> numReferences wl < UINT64_MAX) ->
  (forall waitList,
     (exists a, addressToWaitListMap st !! a = Some waitList) <->
     (exists wl, waitLists st !! waitList = Some wl /\ 1 <= numReferences wl)) /\
  (exists waitList st1,
     openWaitList address st = Returned waitList st1 /\
     tableInvariant st1 /\
     addressToWaitListMap st1 !! address = Some waitList /\
     match addressToWaitListMap st !! address with
     | Some p =>
         waitList = p /\
         addressToWaitListMap st1 = addressToWaitListMap st /\
         exists wl, waitLists st !! p = Some wl /\
           waitLists st1
           = <[p := mkWaitList (wakeEvents wl) (numReferences wl + 1)]> (waitLists st)
     | None =>
         waitLists st !! waitList = None /\
         waitLists st1 = <[waitList := mkWaitList [] 1]> (waitLists st) /\
         addressToWaitListMap st1 = <[address := waitList]> (addressToWaitListMap st)
     end) /\
  (forall waitList wl,
     addressToWaitListMap st !! address = Some waitList ->
     waitLists st !! waitList = Some wl ->
     (2 <= numReferences wl ->
      exists st2,
        closeWaitList address waitList st = Returned tt st2 /\
        tableInvariant st2 /\
        addressToWaitListMap st2 = addressToWaitListMap st /\
        waitLists st2
        = <[waitList := mkWaitList (wakeEvents wl) (numReferences wl - 1)]> (waitLists st)) /\
     (numReferences wl = 1 -> wakeEvents wl = [] ->
      exists st2,
        closeWaitList address waitList st = Returned tt st2 /\
        tableInvariant st2 /\
        addressToWaitListMap st2 = delete address (addressToWaitListMap st) /\
        waitLists st2 = delete waitList (waitLists st)) /\
     (numReferences wl = 1 -> wakeEvents wl <> [] ->
      closeWaitList address waitList st = Fatal) /\
     (numReferences wl = 1 ->
      exists st1,
        closeWaitList_decrement waitList st = Returned 0 st1 /\
        addressToWaitListMap st1 !! address = Some waitList /\
        waitLists st1 !! waitList = Some (mkWaitList (wakeEvents wl) 0) /\
        openWaitList address st1 = Returned waitList st /\
        closeWaitList_locked address waitList st = Returned tt st)) /\
  (forall s waitList s',
     closeWaitList_locked address waitList s = Returned tt s' ->
     exists wl, waitLists s !! waitList = Some wl /\
       if numReferences wl =? 0
       then wakeEvents wl = [] /\
            s' = set_addressToWaitListMap (delete address)
                   (set_waitLists (delete waitList) s)
       else s' = s).
Proof.
  intros Hinv Hbound.
  pose proof Hinv as (Hlive & Htab & Hinj).
  split; [ | split; [ | split ] ].
  - intros p. split.
    + intros [a Ha]. destruct (Htab _ _ Ha) as [wl Hwl].
      exists wl. split; [assumption | ]. apply (Hlive _ _ Hwl).
    + intros (wl & Hwl & _). apply (Hlive _ _ Hwl).
  - destruct (addressToWaitListMap st !! address) as [p|] eqn:Ht.
    + destruct (Htab _ _ Ht) as [wl Hwl].
      pose proof (Hbound _ _ eq_refl Hwl) as Hb.
      destruct (Hlive _ _ Hwl) as [Hr _].
      eexists p, _. rewrite (openWaitList_existing _ _ _ _ Ht Hwl).
      rewrite Uptr_small by lia.
      split; [reflexivity | ]. split; [ | split ].
      * eapply tableInvariant_open_existing; eauto.
      * exact Ht.
      * split; [reflexivity | ]. split; [reflexivity | ]. eauto.
    + destruct (openWaitList_absent _ _ Ht) as [Hf Ho].
      eexists _, _. split; [exact Ho | ]. split; [ | split ].
      * apply tableInvariant_open_absent; assumption.
      * cbn. apply lookup_insert_eq.
      * cbn. auto.
  - intros p wl Ht Hwl.
    destruct (Hlive _ _ Hwl) as [Hr _].
    rewrite (closeWaitList_live _ _ _ _ Hwl). cbn zeta.
    rewrite Uptr_small by lia.
    split; [ | split; [ | split ] ].
    + intros H2. destruct (Z.eqb_spec (numReferences wl - 1) 0); [lia | ].
      eexists. split; [reflexivity | ]. split; [ | split; reflexivity ].
      eapply tableInvariant_close_stay; eauto.
    + intros H1 Hnil. rewrite H1, Hnil. cbn.
      eexists. split; [reflexivity | ]. split; [ | split ].
      * eapply tableInvariant_close_last; eauto.
      * reflexivity.
      * cbn. rewrite delete_insert_eq. reflexivity.
    + intros H1 Hne. rewrite H1. cbn.
      destruct (Z.of_nat (length (wakeEvents wl)) =? 0) eqn:E; [ | reflexivity].
      apply length_zero_nil in E. contradiction.
    + intros H1.
      rewrite (closeWaitList_decrement_live _ _ _ Hwl), H1. cbn.
      eexists. split; [reflexivity | ]. cbn.
      split; [exact Ht | ]. split; [apply lookup_insert_eq | ].
      split.
      * erewrite openWaitList_existing; [ | exact Ht | cbn; apply lookup_insert_eq ].
        cbn. f_equal. destruct st as [h t e l m c]; unfold set_waitLists; cbn in *.
        f_equal. rewrite insert_insert_eq. apply insert_id.
        rewrite Hwl. destruct wl; cbn in *; subst; reflexivity.
      * rewrite (closeWaitList_locked_live _ _ _ _ Hwl), H1. reflexivity.
  - intros s p s' H. unfold closeWaitList_locked, bind, deref in H.
    destruct (waitLists s !! p) as [wl|]; [ | discriminate].
    exists wl. split; [reflexivity | ].
    destruct (numReferences wl =? 0).
    + unfold assert, errorUnless in H.
      destruct (Z.of_nat (length (wakeEvents wl)) =? 0) eqn:E; [ | discriminate].
      apply length_zero_nil in E. injection H as <-. auto.
    + injection H as <-. reflexivity.
Qed.

(** ** closeWaitList, with another thread between the decrement and the re-check *)

(** C5.  The decrement of closeWaitList is made before the table mutex is
    taken.  When thread A releases the last reference of a wait list
    without tokens, the wait list stands in the table with a count of 0
    until A holds the mutex, so the table is not at rest.  Thread B can
    then open that wait list (the count is 1 again, and the state is the
    one before A's decrement) and close it: B's decrement reaches 0, B's
    re-check finds 0, and B destroys the wait list and erases the entry.
    The resurrected entry did not stay, and the re-check of A reads the
    count of a wait list that was destroyed. *)
Theorem closeWaitList_last_reference_race (st : Runtime) (address waitList : Z) :
  tableInvariant st ->
  addressToWaitListMap st !! address = Some waitList ->
  waitLists st !! waitList = Some (mkWaitList [] 1) ->
  exists decremented destroyed,
    closeWaitList_decrement waitList st = Returned 0 decremented /\
    addressToWaitListMap decremented !! address = Some waitList /\
    waitLists decremented !! waitList = Some (mkWaitList [] 0) /\
    ~ tableInvariant decremented /\
    openWaitList address decremented = Returned waitList st /\
    closeWaitList address waitList st = Returned tt destroyed /\
    interleaving decremented destroyed /\
    tableInvariant destroyed /\
    addressToWaitListMap destroyed !! address = None /\
    waitLists destroyed !! waitList = None /\
    closeWaitList_locked address waitList destroyed = Undefined.
Proof.
  intros Hinv Ht Hwl.
  set (decremented := set_waitLists (insert waitList (mkWaitList [] 0)) st).
  set (destroyed := set_addressToWaitListMap (delete address)
                      (set_waitLists (delete waitList) decremented)).
  assert (Hdec : closeWaitList_decrement waitList st = Returned 0 decremented).
  { rewrite (closeWaitList_decrement_live _ _ _ Hwl). reflexivity. }
  assert (Hzero : waitLists decremented !! waitList = Some (mkWaitList [] 0)).
  { cbn. apply lookup_insert_eq. }
  assert (Hopen : openWaitList address decremented = Returned waitList st).
  { rewrite (openWaitList_existing decremented address waitList _ Ht Hzero). cbn. f_equal.
    destruct st as [h t e l m c]. unfold decremented, set_waitLists. cbn in *.
    f_equal. rewrite insert_insert_eq. apply insert_id. exact Hwl. }
  assert (Hlocked : closeWaitList_locked address waitList decremented = Returned tt destroyed).
  { rewrite (closeWaitList_locked_live _ _ _ _ Hzero). reflexivity. }
  assert (Hclose : closeWaitList address waitList st = Returned tt destroyed).
  { rewrite (closeWaitList_live _ _ _ _ Hwl). reflexivity. }
  exists decremented, destroyed.
  split; [exact Hdec | ]. split; [exact Ht | ]. split; [exact Hzero | ].
  split; [ | split; [exact Hopen | split; [exact Hclose | ] ] ].
  2: split; [ | split; [ | split; [ | split ] ] ].
  - intros (Hlive & _). destruct (Hlive _ _ Hzero) as [[H _] _]. cbn in H. lia.
  - apply (interleaving_step (Act_openWaitList address) _ st).
    { cbn. unfold discard, bind. rewrite Hopen. reflexivity. }
    apply (interleaving_step (Act_closeWaitList_decrement waitList) _ decremented).
    { cbn. unfold discard, bind. rewrite Hdec. reflexivity. }
    apply (interleaving_step (Act_closeWaitList_locked address waitList) _ destroyed).
    { exact Hlocked. }
    apply interleaving_done.
  - apply tableInvariant_close_last; assumption.
  - cbn. apply lookup_delete_eq.
  - cbn. apply lookup_delete_eq.
  - unfold closeWaitList_locked, bind, deref. cbn. rewrite lookup_delete_eq. reflexivity.
Qed.

(** ** Running wakeAddress *)

Lemma signalAll_lookup l ev e :
  signalAll l ev !! e = if decide (e ∈ l) then Some true else ev !! e.
Proof.
  revert ev. induction l as [|x l IH]; intros ev; cbn.
  - rewrite decide_False; [reflexivity | apply not_elem_of_nil].
  - unfold signalAll in IH. rewrite IH.
    destruct (decide (e ∈ l)) as [Hl|Hl].
    + rewrite decide_True; [reflexivity | by apply list_elem_of_further].
    + rewrite lookup_insert. destruct (decide (x = e)) as [->|Hx].
      * rewrite decide_True; [reflexivity | apply list_elem_of_here].
      * rewrite decide_False; [reflexivity | ].
        intros H. apply elem_of_cons in H as [?|?]; congruence.
Qed.

Lemma signalEvents_run l st :
  (forall e, e ∈ l -> is_Some (events st !! e)) ->
  signalEvents l st
  = Returned tt (set_signalLog (fun log => log ++ l) (set_events (signalAll l) st)).
Proof.
  revert st. induction l as [|x l IH]; intros st Hex; cbn [signalEvents].
  - unfold ret, set_signalLog, set_events, signalAll. cbn.
    rewrite app_nil_r. destruct st; reflexivity.
  - unfold bind at 1. unfold signalEvent.
    destruct (Hex x) as [b Hb]; [apply list_elem_of_here | ]. rewrite Hb.
    rewrite IH.
    + unfold set_signalLog, set_events, signalAll. cbn.
      rewrite <- app_assoc. reflexivity.
    + intros e He. cbn. rewrite lookup_insert. case_decide; [eauto | ].
      apply Hex. by apply list_elem_of_further.
Qed.

Lemma numWoken_min numToWake size :
  0 <= size ->
  numWoken numToWake size
  = if numToWake =? UINT32_MAX then size else Z.min numToWake size.
Proof.
  intros Hs. unfold numWoken.
  destruct (numToWake =? UINT32_MAX); cbn; [reflexivity | ].
  destruct (Z.ltb_spec size numToWake); lia.
Qed.

Lemma wakeAddress_locked_run st waitList wl numToWake :
  waitLists st !! waitList = Some wl ->
  (forall e, e ∈ wakeEvents wl -> is_Some (events st !! e)) ->
  let n := numWoken numToWake (Z.of_nat (length (wakeEvents wl))) in
  wakeAddress_locked waitList numToWake st
  = Returned n
      (set_waitLists
         (insert waitList (mkWaitList (drop (Z.to_nat n) (wakeEvents wl)) (numReferences wl)))
         (set_signalLog (fun log => log ++ take (Z.to_nat n) (wakeEvents wl))
            (set_events (signalAll (take (Z.to_nat n) (wakeEvents wl))) st))).
Proof.
  intros Hwl Hex n. unfold wakeAddress_locked. unfold bind at 1. unfold deref. rewrite Hwl.
  fold (numWoken numToWake (Z.of_nat (length (wakeEvents wl)))). fold n.
  unfold bind at 1. rewrite signalEvents_run.
  - reflexivity.
  - intros e He. apply Hex. apply elem_of_take in He as (i & Hi & _).
    eapply list_elem_of_lookup_2; eauto.
Qed.

Lemma wakeAddress_run st address numToWake :
  tableInvariant st ->
  (forall waitList wl, addressToWaitListMap st !! address = Some waitList ->
     waitLists st !! waitList = Some wl -> numReferences wl < UINT64_MAX) ->
  (forall e, e ∈ waiters st address -> is_Some (events st !! e)) ->
  numToWake <> 0 ->
  let l := waiters st address in
  let n := numWoken numToWake (Z.of_nat (length l)) in
  let st' :=
    set_waitLists
      (fun h => match addressToWaitListMap st !! address with
                | Some waitList =>
                    alter (fun wl => mkWaitList (drop (Z.to_nat n) (wakeEvents wl))
                                                (numReferences wl)) waitList h
                | None => h
                end)
      (set_signalLog (fun log => log ++ take (Z.to_nat n) l)
         (set_events (signalAll (take (Z.to_nat n) l)) st)) in
  wakeAddress address numToWake st
  = if n >? UINT32_MAX
    then Thrown integerDivideByZeroOrIntegerOverflowType st'
    else Returned (U32 n) st'.
Proof.
  intros Hinv Hbound Hex Hnz l n st'.
  pose proof Hinv as (Hlive & Htab & Hinj).
  unfold wakeAddress. destruct (Z.eqb_spec numToWake 0) as [|_]; [contradiction | ].
  subst st' n l. unfold waiters in *.
  destruct (addressToWaitListMap st !! address) as [p|] eqn:Ht.
  - destruct (Htab _ _ Ht) as [wl Hwl]. rewrite Hwl in *.
    pose proof (Hbound _ _ eq_refl Hwl) as Hb.
    destruct (Hlive _ _ Hwl) as [Hr _].
    unfold bind at 1. rewrite (openWaitList_existing _ _ _ _ Ht Hwl).
    rewrite Uptr_small by lia.
    unfold bind at 1. erewrite wakeAddress_locked_run;
      [ | cbn; apply lookup_insert_eq | exact Hex ].
    cbn [wakeEvents numReferences]. cbv zeta.
    set (n := numWoken numToWake (Z.of_nat (length (wakeEvents wl)))).
    unfold bind at 1. erewrite closeWaitList_live; [ | cbn; apply lookup_insert_eq ].
    cbn [wakeEvents numReferences]. cbv zeta.
    replace (numReferences wl + 1 - 1) with (numReferences wl) by lia.
    rewrite Uptr_small by lia.
    destruct (Z.eqb_spec (numReferences wl) 0); [lia | ].
    destruct (n >? UINT32_MAX); unfold throwException, ret; f_equal.
    all: destruct st as [h t e lg m c]; unfold set_waitLists, set_signalLog, set_events;
      cbn in *; f_equal; rewrite !insert_insert_eq;
      apply map_eq; intros i; rewrite lookup_insert, lookup_alter;
      case_decide; subst; [rewrite Hwl | ]; reflexivity.
  - destruct (openWaitList_absent _ _ Ht) as [Hf Ho].
    unfold bind at 1. rewrite Ho.
    set (p := fresh (dom (waitLists st))) in *.
    unfold bind at 1. erewrite wakeAddress_locked_run;
      [ | cbn; apply lookup_insert_eq | cbn; intros e He; by apply not_elem_of_nil in He ].
    cbn [wakeEvents numReferences length]. cbv zeta.
    unfold bind at 1. erewrite closeWaitList_live; [ | cbn; apply lookup_insert_eq ].
    cbn [wakeEvents numReferences length]. cbv zeta.
    change (Uptr (1 - 1)) with 0. cbn [Z.eqb].
    rewrite drop_nil, take_nil. cbn [length Z.of_nat Z.eqb].
    destruct (_ >? UINT32_MAX); unfold throwException, ret; f_equal.
    all: destruct st as [h t e lg m c];
      unfold set_waitLists, set_signalLog, set_events, set_addressToWaitListMap;
      cbn in *; f_equal;
      [ rewrite !delete_insert_eq; apply delete_id; exact Hf
      | rewrite delete_insert_eq; apply delete_id; exact Ht ].
Qed.

Lemma U32_small z : 0 <= z <= UINT32_MAX -> U32 z = z.
Proof. intros H. unfold U32. apply Z.mod_small. unfold UINT32_MAX in H. lia. Qed.

Lemma wakeAddress_state_facts st address (k : nat) :
  tableInvariant st ->
  let l := waiters st address in
  let st' :=
    set_waitLists
      (fun h => match addressToWaitListMap st !! address with
                | Some waitList =>
                    alter (fun wl => mkWaitList (drop k (wakeEvents wl))
                                                (numReferences wl)) waitList h
                | None => h
                end)
      (set_signalLog (fun log => log ++ take k l)
         (set_events (signalAll (take k l)) st)) in
  signalLog st' = signalLog st ++ take k l /\
  (forall e, events st' !! e
             = if decide (e ∈ take k l) then Some true else events st !! e) /\
  waiters st' address = drop k l /\
  addressToWaitListMap st' = addressToWaitListMap st /\
  (forall waitList wl, waitLists st !! waitList = Some wl ->
     exists wl', waitLists st' !! waitList = Some wl' /\
       numReferences wl' = numReferences wl /\
       (addressToWaitListMap st !! address <> Some waitList -> wl' = wl)) /\
  dom (waitLists st') = dom (waitLists st) /\
  memory st' = memory st /\ clock st' = clock st /\
  tableInvariant st'.
Proof.
  intros Hinv l st'. pose proof Hinv as (Hlive & Htab & Hinj).
  subst st' l. unfold waiters. cbn.
  split; [reflexivity | ]. split; [intros e; apply signalAll_lookup | ].
  destruct (addressToWaitListMap st !! address) as [p|] eqn:Ht.
  - destruct (Htab _ _ Ht) as [wl Hwl]. rewrite Hwl.
    rewrite lookup_alter_eq, Hwl. cbn.
    split; [reflexivity | ]. split; [reflexivity | ]. split.
    + intros q wl' Hq. rewrite lookup_alter. case_decide as E.
      * subst q. rewrite Hq. cbn. eexists. split; [reflexivity | ].
        split; [reflexivity | congruence].
      * exists wl'. auto.
    + split; [apply dom_alter_L | ]. split; [reflexivity | ]. split; [reflexivity | ].
      split; [ | split]; cbn.
      * intros q wl'. rewrite lookup_alter. case_decide as E.
        -- subst q. rewrite Hwl. cbn. intros [= <-]. cbn. apply (Hlive _ _ Hwl).
        -- apply Hlive.
      * intros a q Hq. rewrite lookup_alter. case_decide as E.
        -- subst q. rewrite Hwl. cbn. eauto.
        -- eauto.
      * exact Hinj.
  - rewrite drop_nil.
    split; [reflexivity | ]. split; [reflexivity | ]. split; [eauto | ].
    split; [reflexivity | ]. split; [reflexivity | ]. split; [reflexivity | ].
    split; [ | split]; cbn; assumption.
Qed.

(** C1, as amended.  wakeAddress with count 0 returns 0 and changes
    nothing.  Otherwise let n be the number of registered tokens when
    count is UINT32_MAX, and min(count, that number) when it is not: the
    call signals the first n tokens of wakeEvents in their order, removes
    exactly those, keeps the table (which stays at rest), the reference
    counts, the other wait lists, the memory and the clock, and returns n
    when n <= UINT32_MAX;
    when n is greater it throws integerDivideByZeroOrIntegerOverflow after
    the tokens were signaled and removed. *)
Theorem wakeAddress_wakes_oldest (st : Runtime) (address numToWake : Z) :
  tableInvariant st ->
  (forall waitList wl, addressToWaitListMap st !! address = Some waitList ->
     waitLists st !! waitList = Some wl -> numReferences wl < UINT64_MAX) ->
  (forall e, e ∈ waiters st address -> is_Some (events st !! e)) ->
  0 <= numToWake <= UINT32_MAX ->
  let l := waiters st address in
  let n := if numToWake =? UINT32_MAX then Z.of_nat (length l)
           else Z.min numToWake (Z.of_nat (length l)) in
  (numToWake = 0 -> wakeAddress address numToWake st = Returned 0 st) /\
  (numToWake <> 0 ->
   exists st',
     (n <= UINT32_MAX -> wakeAddress address numToWake st = Returned n st') /\
     (UINT32_MAX < n ->
      wakeAddress address numToWake st
      = Thrown integerDivideByZeroOrIntegerOverflowType st') /\
     signalLog st' = signalLog st ++ take (Z.to_nat n) l /\
     (forall e, events st' !! e
                = if decide (e ∈ take (Z.to_nat n) l) then Some true else events st !! e) /\
     waiters st' address = drop (Z.to_nat n) l /\
     addressToWaitListMap st' = addressToWaitListMap st /\
     (forall waitList wl, waitLists st !! waitList = Some wl ->
        exists wl', waitLists st' !! waitList = Some wl' /\
          numReferences wl' = numReferences wl /\
          (addressToWaitListMap st !! address <> Some waitList -> wl' = wl)) /\
     dom (waitLists st') = dom (waitLists st) /\
     memory st' = memory st /\ clock st' = clock st /\
     tableInvariant st').
Proof.
  intros Hinv Hbound Hex Hrange l n. split.
  - intros ->. reflexivity.
  - intros Hnz.
    pose proof (wakeAddress_run st address numToWake Hinv Hbound Hex Hnz) as Hrun.
    cbv zeta in Hrun. fold l in Hrun.
    rewrite numWoken_min in Hrun by lia. fold n in Hrun.
    eexists. split; [ | split ].
    + intros Hn. rewrite Hrun.
      destruct (Z.gtb_spec n UINT32_MAX) as [?|_]; [lia | ].
      rewrite U32_small; [reflexivity | ]. subst n.
      destruct (numToWake =? UINT32_MAX); lia.
    + intros Hn. rewrite Hrun.
      destruct (Z.gtb_spec n UINT32_MAX) as [_|?]; [reflexivity | lia].
    + apply (wakeAddress_state_facts st address (Z.to_nat n) Hinv).
Qed.

(** C8, as amended.  The check [actualNumToWake > UINT32_MAX] fires
    exactly when count is UINT32_MAX and more than UINT32_MAX tokens are
    registered on the wait list; with at most UINT32_MAX registered tokens
    wakeAddress throws nothing. *)
Theorem wakeAddress_overflow_check (st : Runtime) (address numToWake : Z) :
  tableInvariant st ->
  (forall waitList wl, addressToWaitListMap st !! address = Some waitList ->
     waitLists st !! waitList = Some wl -> numReferences wl < UINT64_MAX) ->
  (forall e, e ∈ waiters st address -> is_Some (events st !! e)) ->
  0 <= numToWake <= UINT32_MAX ->
  ((exists st', wakeAddress address numToWake st
                = Thrown integerDivideByZeroOrIntegerOverflowType st')
   <-> numToWake = UINT32_MAX /\ UINT32_MAX < Z.of_nat (length (waiters st address))) /\
  (Z.of_nat (length (waiters st address)) <= UINT32_MAX ->
   forall e st', wakeAddress address numToWake st <> Thrown e st').
Proof.
  intros Hinv Hbound Hex Hrange.
  assert (Hiff : forall e st', wakeAddress address numToWake st = Thrown e st' ->
            numToWake = UINT32_MAX /\ UINT32_MAX < Z.of_nat (length (waiters st address))).
  { intros e st' H. destruct (Z.eq_dec numToWake 0) as [->|Hnz]; [discriminate H | ].
    rewrite (wakeAddress_run st address numToWake Hinv Hbound Hex Hnz) in H.
    rewrite numWoken_min in H by lia.
    match type of H with (if ?n >? _ then _ else _) = _ =>
      destruct (Z.gtb_spec n UINT32_MAX) as [Hgt|_]; [ | discriminate H] end.
    destruct (Z.eqb_spec numToWake UINT32_MAX) as [->|Hne]; lia. }
  split; [split | ].
  - intros [st' H]. eapply Hiff, H.
  - intros [-> Hbig].
    assert (Hnz : UINT32_MAX <> 0) by discriminate.
    rewrite (wakeAddress_run st address UINT32_MAX Hinv Hbound Hex Hnz).
    rewrite numWoken_min by lia. change (UINT32_MAX =? UINT32_MAX) with true. cbv iota.
    destruct (Z.gtb_spec (Z.of_nat (length (waiters st address))) UINT32_MAX); [eauto | lia].
  - intros Hsmall e st' H. apply Hiff in H. lia.
Qed.

(** ** Who signals *)

Lemma quiet_bind {A B} (m : M A) (k : A -> M B) :
  quiet m -> (forall a, quiet (k a)) -> quiet (bind m k).
Proof.
  intros Hm Hk st b st'. unfold bind.
  destruct (m st) as [a s|e0 s| |] eqn:E; try discriminate.
  intros H. destruct (Hm _ _ _ E) as (H1 & H2 & H3 & H4).
  destruct (Hk _ _ _ _ H) as (K1 & K2 & K3 & K4).
  repeat split; try congruence. auto.
Qed.

Lemma quiet_pure {A} (m : M A) :
  (forall st a st', m st = Returned a st' ->
     events st' = events st /\ signalLog st' = signalLog st /\
     memory st' = memory st /\ clock st' = clock st) ->
  quiet m.
Proof.
  intros H st a st' E. destruct (H _ _ _ E) as (H1 & H2 & H3 & H4).
  repeat split; try assumption. intros e. rewrite H1. auto.
Qed.

Lemma ret_quiet {A} (a : A) : quiet (ret a).
Proof. apply quiet_pure. intros st b st' [= _ <-]. auto. Qed.

Lemma deref_quiet p : quiet (deref p).
Proof.
  apply quiet_pure. intros st b st'. unfold deref.
  destruct (_ !! _); [ | discriminate]. intros [= _ <-]. auto.
Qed.

Lemma assign_quiet p wl : quiet (assign p wl).
Proof. apply quiet_pure. intros st b st' [= _ <-]. auto. Qed.

Lemma errorUnless_quiet b : quiet (errorUnless b).
Proof.
  apply quiet_pure. intros st u st'. unfold errorUnless.
  destruct b; [ | discriminate]. intros [= _ <-]. auto.
Qed.

Lemma liftChecked_quiet {A} (c : Checked A) : quiet (liftChecked c).
Proof.
  apply quiet_pure. intros st u st'. unfold liftChecked.
  destruct c; try discriminate. intros [= _ <-]. auto.
Qed.

Lemma getMonotonicClock_quiet : quiet getMonotonicClock.
Proof. apply quiet_pure. intros st b st' [= _ <-]. auto. Qed.

Lemma atomicLoad_quiet ty p : quiet (atomicLoad ty p).
Proof. apply quiet_pure. intros st b st' [= _ <-]. auto. Qed.

Lemma createEvent_quiet : quiet createEvent.
Proof.
  intros st a st' [= <- <-]. cbn. repeat split.
  intros e. rewrite lookup_insert. case_decide; [discriminate | auto].
Qed.

Lemma waitForEvent_quiet ev t : quiet (waitForEvent ev t).
Proof.
  intros st a st'. unfold waitForEvent.
  destruct (events st !! ev) as [[|]|] eqn:E; try discriminate.
  - intros [= _ <-]. cbn. repeat split.
    intros e. rewrite lookup_insert. case_decide; [discriminate | auto].
  - destruct (_ && _); intros [= _ <-]; auto.
Qed.

Ltac quiet_steps :=
  repeat first
    [ apply ret_quiet | apply deref_quiet | apply assign_quiet
    | apply errorUnless_quiet | apply liftChecked_quiet | apply createEvent_quiet
    | apply waitForEvent_quiet | apply getMonotonicClock_quiet | apply atomicLoad_quiet
    | apply quiet_bind; [ | intros ? ]
    | match goal with
      | |- forall _, _ => intros ?; cbv beta
      | |- quiet (if ?b then _ else _) => destruct b
      | |- quiet (match ?x with _ => _ end) => destruct x
      | |- quiet (fun _ => Returned _ _) =>
          apply quiet_pure; intros ? ? ? [= _ <-]; auto
      end ].

Lemma openWaitList_quiet a : quiet (openWaitList a).
Proof.
  intros st p st'. unfold openWaitList.
  destruct (_ !! _) as [q|].
  - intros H. eapply (quiet_bind (deref q)); [ | | exact H]; quiet_steps.
  - cbn. intros [= _ <-]. cbn. auto.
Qed.

Lemma closeWaitList_decrement_quiet p : quiet (closeWaitList_decrement p).
Proof. unfold closeWaitList_decrement. quiet_steps. Qed.

Lemma closeWaitList_locked_quiet a p : quiet (closeWaitList_locked a p).
Proof. unfold closeWaitList_locked, assert. quiet_steps. Qed.

Lemma closeWaitList_quiet a p : quiet (closeWaitList a p).
Proof.
  unfold closeWaitList. apply quiet_bind; [apply closeWaitList_decrement_quiet | intros n].
  destruct (n =? 0); [apply closeWaitList_locked_quiet | apply ret_quiet].
Qed.

Lemma waitOnAddress_check_quiet ty tls vp ex p : quiet (waitOnAddress_check ty tls vp ex p).
Proof. unfold waitOnAddress_check. quiet_steps. Qed.

Lemma waitOnAddress_timedOut_quiet p ev : quiet (waitOnAddress_timedOut p ev).
Proof. unfold waitOnAddress_timedOut. quiet_steps. Qed.

Lemma discard_quiet {A} (m : M A) : quiet m -> quiet (discard m).
Proof. intros H. unfold discard. apply quiet_bind; [exact H | intros; apply ret_quiet]. Qed.

Lemma signalsOnly_refl st : signalsOnly st st.
Proof. exists []. rewrite app_nil_r. auto. Qed.

Lemma signalsOnly_trans s1 s2 s3 : signalsOnly s1 s2 -> signalsOnly s2 s3 -> signalsOnly s1 s3.
Proof.
  intros (n1 & L1 & E1) (n2 & L2 & E2). exists (n1 ++ n2). split.
  - rewrite L2, L1, app_assoc. reflexivity.
  - intros e He. rewrite elem_of_app.
    destruct (E2 _ He) as [H|H]; [ | auto]. destruct (E1 _ H); auto.
Qed.

Lemma quiet_signalsOnly {A} (m : M A) st a st' :
  quiet m -> m st = Returned a st' -> signalsOnly st st'.
Proof.
  intros Hq H. destruct (Hq _ _ _ H) as (L & _ & _ & E).
  exists []. rewrite app_nil_r. auto.
Qed.

Lemma signalEvents_signals l st u s :
  signalEvents l st = Returned u s ->
  signalLog s = signalLog st ++ l /\
  forall e, events s !! e = Some true -> events st !! e = Some true \/ e ∈ l.
Proof.
  revert st. induction l as [|x l IH]; intros st E; cbn in E.
  - injection E as _ <-. rewrite app_nil_r. auto.
  - unfold bind, signalEvent in E.
    destruct (events st !! x); [ | discriminate].
    apply IH in E. cbn in E. destruct E as [L Ev]. split.
    + rewrite L, <- app_assoc. reflexivity.
    + intros e He. destruct (Ev _ He) as [H|H].
      * rewrite lookup_insert in H. case_decide; subst.
        -- right. apply list_elem_of_here.
        -- auto.
      * right. by apply list_elem_of_further.
Qed.

Lemma wakeAddress_locked_signals waitList numToWake st n st' :
  wakeAddress_locked waitList numToWake st = Returned n st' ->
  exists wl, waitLists st !! waitList = Some wl /\
    n = numWoken numToWake (Z.of_nat (length (wakeEvents wl))) /\
    signalLog st' = signalLog st ++ take (Z.to_nat n) (wakeEvents wl) /\
    forall e, events st' !! e = Some true ->
      events st !! e = Some true \/ e ∈ take (Z.to_nat n) (wakeEvents wl).
Proof.
  unfold wakeAddress_locked. unfold bind at 1. unfold deref.
  destruct (waitLists st !! waitList) as [wl|]; [ | discriminate].
  fold (numWoken numToWake (Z.of_nat (length (wakeEvents wl)))).
  set (k := numWoken numToWake (Z.of_nat (length (wakeEvents wl)))).
  unfold bind at 1.
  destruct (signalEvents _ st) as [[] s| | |] eqn:E; try discriminate.
  cbn. intros [= <- <-]. exists wl. split; [reflexivity | ]. split; [reflexivity | ].
  cbn. apply (signalEvents_signals _ _ _ _ E).
Qed.

Lemma perform_signals a st st' :
  perform a st = Returned tt st' ->
  signalsOnly st st' /\
  (signalLog st' <> signalLog st ->
   exists waitList numToWake wl,
     a = Act_wakeAddress_locked waitList numToWake /\
     waitLists st !! waitList = Some wl /\
     signalLog st' = signalLog st
       ++ take (Z.to_nat (numWoken numToWake (Z.of_nat (length (wakeEvents wl)))))
            (wakeEvents wl)).
Proof.
  assert (Hq : forall (m : M unit), quiet m -> m st = Returned tt st' ->
            signalsOnly st st' /\
            (signalLog st' <> signalLog st ->
             exists waitList numToWake wl,
               a = Act_wakeAddress_locked waitList numToWake /\
               waitLists st !! waitList = Some wl /\
               signalLog st' = signalLog st
                 ++ take (Z.to_nat (numWoken numToWake (Z.of_nat (length (wakeEvents wl)))))
                      (wakeEvents wl))).
  { intros m Hm H. split; [eapply quiet_signalsOnly; eauto | ].
    intros Hne. destruct (Hm _ _ _ H) as (L & _). contradiction. }
  destruct a; cbn [perform].
  - apply Hq, discard_quiet, openWaitList_quiet.
  - apply Hq, discard_quiet, closeWaitList_decrement_quiet.
  - apply Hq, closeWaitList_locked_quiet.
  - apply Hq, discard_quiet, waitOnAddress_check_quiet.
  - apply Hq, discard_quiet, waitForEvent_quiet.
  - apply Hq, discard_quiet, waitOnAddress_timedOut_quiet.
  - clear Hq. unfold discard, bind.
    destruct (wakeAddress_locked waitList numToWake st) as [n s| | |] eqn:E; try discriminate.
    unfold ret. intros [= <-]. apply wakeAddress_locked_signals in E.
    destruct E as (wl & Hwl & -> & L & Ev). split.
    + eexists. eauto.
    + intros _. eauto 6.
  - intros [= <-]. split; [exists []; cbn; rewrite app_nil_r; auto | ].
    cbn. intros H. contradiction.
  - intros [= <-]. split; [exists []; cbn; rewrite app_nil_r; auto | ].
    cbn. intros H. contradiction.
Qed.

Lemma interleaving_signalsOnly st st' : interleaving st st' -> signalsOnly st st'.
Proof.
  induction 1 as [|a s1 s2 s3 H _ IH]; [apply signalsOnly_refl | ].
  eapply signalsOnly_trans; [ | exact IH]. apply (perform_signals _ _ _ H).
Qed.

(** ** The pieces of waitOnAddress *)

Lemma bind_Returned {A B} (m : M A) (k : A -> M B) st b st' :
  bind m k st = Returned b st' ->
  exists a s, m st = Returned a s /\ k a s = Returned b st'.
Proof.
  unfold bind. destruct (m st) as [a s| | |]; try discriminate. eauto.
Qed.

Lemma waitOnAddress_check_None ty tls vp ex p s0 s :
  waitOnAddress_check ty tls vp ex p s0 = Returned None s ->
  asValue ty (loadBytes (sizeofValue ty) vp (memory s0)) <> ex /\ s = s0.
Proof.
  unfold waitOnAddress_check. unfold bind at 1. unfold atomicLoad.
  destruct (Z.eqb_spec (asValue ty (loadBytes (sizeofValue ty) vp (memory s0))) ex) as [E|E];
    cbn [negb].
  - intros H. apply bind_Returned in H as (event & s1 & _ & H).
    apply bind_Returned in H as (wl & s2 & _ & H).
    apply bind_Returned in H as (u & s3 & _ & H). discriminate H.
  - intros [= <-]. auto.
Qed.

Lemma waitOnAddress_check_Some ty tls vp ex p s0 event s :
  (forall e, tls = Some e -> events s0 !! e = Some false) ->
  waitOnAddress_check ty tls vp ex p s0 = Returned (Some event) s ->
  asValue ty (loadBytes (sizeofValue ty) vp (memory s0)) = ex /\
  events s !! event = Some false /\
  (forall e, tls = Some e -> event = e).
Proof.
  intros Htls. unfold waitOnAddress_check. unfold bind at 1. unfold atomicLoad.
  destruct (Z.eqb_spec (asValue ty (loadBytes (sizeofValue ty) vp (memory s0))) ex) as [E|E];
    cbn [negb]; [ | discriminate].
  intros H. apply bind_Returned in H as (ev & s1 & Hev & H).
  apply bind_Returned in H as (wl & s2 & Hd & H).
  apply bind_Returned in H as (u & s3 & Ha & H).
  unfold deref in Hd. destruct (waitLists s1 !! p); [ | discriminate].
  unfold assign, ret in *. simplify_eq. cbn.
  split; [reflexivity | ].
  destruct tls as [e|].
  - simplify_eq. split; [auto | ]. intros ? [= ->]. reflexivity.
  - unfold createEvent in Hev. simplify_eq. cbn.
    split; [apply lookup_insert_eq | discriminate].
Qed.

Lemma waitForEvent_result event untilTime s r s' :
  waitForEvent event untilTime s = Returned r s' ->
  match r with
  | Some true => events s !! event = Some true
  | Some false =>
      events s !! event = Some false /\ untilTime < UINT64_MAX /\ untilTime <= clock s /\
      s' = s
  | None =>
      events s !! event = Some false /\ ~ (untilTime < UINT64_MAX /\ untilTime <= clock s) /\
      s' = s
  end.
Proof.
  unfold waitForEvent. destruct (events s !! event) as [[|]|]; try discriminate.
  - intros [= <- _]. reflexivity.
  - destruct (Z.ltb_spec untilTime UINT64_MAX); destruct (Z.leb_spec untilTime (clock s));
      cbn [andb]; intros [= <- <-]; repeat split; auto; lia.
Qed.

Lemma waitOnAddress_timedOut_result waitList event s timedOut s' :
  waitOnAddress_timedOut waitList event s = Returned timedOut s' ->
  exists wl, waitLists s !! waitList = Some wl /\
    if timedOut
    then event ∈ wakeEvents wl /\
         s' = set_waitLists
                (insert waitList (mkWaitList (eraseFirst event (wakeEvents wl))
                                             (numReferences wl))) s
    else (event ∉ wakeEvents wl) /\ events s !! event = Some true.
Proof.
  unfold waitOnAddress_timedOut. unfold bind at 1. unfold deref.
  destruct (waitLists s !! waitList) as [wl|]; [ | discriminate].
  intros H. exists wl. split; [reflexivity | ].
  case_bool_decide as Hin.
  - unfold bind, assign, ret in H. simplify_eq. auto.
  - apply bind_Returned in H as (now & s1 & Hc & H).
    apply bind_Returned in H as (r & s2 & Hw & H).
    apply bind_Returned in H as (u & s3 & He & H).
    unfold getMonotonicClock, ret in *. simplify_eq.
    unfold errorUnless in He. destruct r as [[|]|]; try discriminate.
    apply waitForEvent_result in Hw. auto.
Qed.

Lemma open_close_restores st address :
  tableInvariant st ->
  (forall waitList wl, addressToWaitListMap st !! address = Some waitList ->
     waitLists st !! waitList = Some wl -> numReferences wl < UINT64_MAX) ->
  exists waitList st1,
    openWaitList address st = Returned waitList st1 /\
    closeWaitList address waitList st1 = Returned tt st /\
    match addressToWaitListMap st !! address with
    | Some p =>
        waitList = p /\
        exists wl, waitLists st !! p = Some wl /\
          waitLists st1 !! p
          = Some (mkWaitList (wakeEvents wl) (numReferences wl + 1))
    | None =>
        waitLists st !! waitList = None /\
        waitLists st1 !! waitList = Some (mkWaitList [] 1)
    end.
Proof.
  intros Hinv Hbound. pose proof Hinv as (Hlive & Htab & Hinj).
  destruct (addressToWaitListMap st !! address) as [p|] eqn:Ht.
  - destruct (Htab _ _ Ht) as [wl Hwl].
    pose proof (Hbound _ _ eq_refl Hwl) as Hb.
    destruct (Hlive _ _ Hwl) as [Hr _].
    eexists p, _. rewrite (openWaitList_existing _ _ _ _ Ht Hwl).
    rewrite Uptr_small by lia.
    split; [reflexivity | ]. split.
    + erewrite closeWaitList_live; [ | cbn; apply lookup_insert_eq ].
      cbn [wakeEvents numReferences]. cbv zeta.
      replace (numReferences wl + 1 - 1) with (numReferences wl) by lia.
      rewrite Uptr_small by lia.
      destruct (Z.eqb_spec (numReferences wl) 0); [lia | ].
      f_equal. destruct st as [h t e lg m c]. unfold set_waitLists. cbn in *.
      f_equal. rewrite insert_insert_eq. apply insert_id.
      rewrite Hwl. destruct wl; reflexivity.
    + split; [reflexivity | ]. exists wl. split; [assumption | ].
      cbn. apply lookup_insert_eq.
  - destruct (openWaitList_absent _ _ Ht) as [Hf Ho].
    eexists _, _. split; [exact Ho | ].
    set (p := fresh (dom (waitLists st))) in *. split.
    + erewrite closeWaitList_live; [ | cbn; apply lookup_insert_eq ].
      cbn [wakeEvents numReferences length]. cbv zeta.
      change (Uptr (1 - 1)) with 0. cbn [Z.eqb Z.of_nat].
      f_equal. destruct st as [h t e lg m c].
      unfold set_waitLists, set_addressToWaitListMap. cbn in *. f_equal.
      * rewrite !delete_insert_eq. apply delete_id. exact Hf.
      * rewrite delete_insert_eq. apply delete_id. exact Ht.
    + split; [exact Hf | ]. cbn. apply lookup_insert_eq.
Qed.

(** C9. When the value loaded under the wait list's mutex differs from
    the expected one, waitOnAddress returns 1, leaves threadWakeEvent as
    it was, and leaves the shared state exactly as it found it: the
    reference openWaitList took (on the entry found, or on the entry it
    created) is released by closeWaitList, and no token is on wakeEvents
    at any point in between. *)
Theorem waitOnAddress_notEqual_restores
    (env : Interference) (ty : ValueType) (threadWakeEvent : option Z)
    (valuePointer expectedValue : Z) (timeout : F64) (st : Runtime) (endTime : Z) :
  tableInvariant st ->
  (forall waitList wl, addressToWaitListMap st !! valuePointer = Some waitList ->
     waitLists st !! waitList = Some wl -> numReferences wl < UINT64_MAX) ->
  getEndTimeFromTimeout (clock st) timeout = Value endTime ->
  asValue ty (loadBytes (sizeofValue ty) valuePointer (memory st)) <> expectedValue ->
  waitOnAddress env ty threadWakeEvent valuePointer expectedValue timeout st
    = Returned (Some 1, threadWakeEvent) st /\
  exists waitList st1,
    openWaitList valuePointer st = Returned waitList st1 /\
    waitOnAddress_check ty threadWakeEvent valuePointer expectedValue waitList st1
      = Returned None st1 /\
    closeWaitList valuePointer waitList st1 = Returned tt st /\
    waiters st1 valuePointer = waiters st valuePointer /\
    events st1 = events st.
Proof.
  intros Hinv Hbound Hend Hne.
  destruct (open_close_restores st valuePointer Hinv Hbound)
    as (waitList & st1 & Hopen & Hclose & Hshape).
  destruct (openWaitList_quiet _ _ _ _ Hopen) as (_ & Hmem & _ & _).
  assert (Hcheck : waitOnAddress_check ty threadWakeEvent valuePointer expectedValue
                     waitList st1 = Returned None st1).
  { unfold waitOnAddress_check. unfold bind at 1. unfold atomicLoad. rewrite Hmem.
    destruct (Z.eqb_spec (asValue ty (loadBytes (sizeofValue ty) valuePointer (memory st)))
                expectedValue); [contradiction | reflexivity]. }
  split.
  - unfold waitOnAddress. unfold bind at 1. unfold getMonotonicClock.
    unfold bind at 1. rewrite Hend. unfold liftChecked.
    unfold bind at 1. rewrite Hopen.
    unfold bind at 1. rewrite Hcheck.
    unfold bind at 1. rewrite Hclose. reflexivity.
  - exists waitList, st1. repeat split; try assumption.
    + unfold waiters. pose proof Hinv as (Hlive & Htab & Hinj).
      destruct (addressToWaitListMap st !! valuePointer) as [p|] eqn:Ht.
      * destruct Hshape as (-> & wl & Hwl & Hwl1).
        assert (Ht1 : addressToWaitListMap st1 !! valuePointer = Some p).
        { rewrite (openWaitList_existing _ _ _ _ Ht Hwl) in Hopen.
          injection Hopen as <-. exact Ht. }
        rewrite Ht1, Hwl1, Hwl. reflexivity.
      * destruct Hshape as (Hf & Hwl1).
        destruct (openWaitList_absent _ _ Ht) as [_ Ho]. rewrite Ho in Hopen.
        injection Hopen as <- <-. cbn. rewrite lookup_insert_eq.
        cbn. rewrite lookup_insert_eq. reflexivity.
    + unfold openWaitList in Hopen.
      destruct (addressToWaitListMap st !! valuePointer) as [p|].
      * apply bind_Returned in Hopen as (wl & s & Hd & H).
        apply bind_Returned in H as (u & s' & Ha & H).
        unfold deref in Hd. destruct (waitLists st !! p); [ | discriminate].
        unfold assign, ret in *. simplify_eq. reflexivity.
      * cbn in Hopen. simplify_eq. reflexivity.
Qed.

Lemma quiet_log {A} (m : M A) st a st' :
  quiet m -> m st = Returned a st' -> signalLog st' = signalLog st.
Proof. intros Hq H. apply (Hq _ _ _ H). Qed.

(** What the code a call returned says about the run. *)
Lemma waitOnAddress_returned_code
    (env : Interference) (ty : ValueType) (threadWakeEvent : option Z)
    (valuePointer expectedValue : Z) (timeout : F64)
    (st : Runtime) (code : Z) (threadWakeEvent' : option Z) (st' : Runtime) :
  (forall s, interleaving s (whileParked env s)) ->
  (forall s, interleaving s (afterTimeout env s)) ->
  (forall event, threadWakeEvent = Some event -> events st !! event = Some false) ->
  waitOnAddress env ty threadWakeEvent valuePointer expectedValue timeout st
    = Returned (Some code, threadWakeEvent') st' ->
  let loaded := asValue ty (loadBytes (sizeofValue ty) valuePointer (memory st)) in
  (code = 0 \/ code = 1 \/ code = 2) /\
  (code = 1 <-> loaded <> expectedValue) /\
  (code = 1 -> threadWakeEvent' = threadWakeEvent /\ signalLog st' = signalLog st) /\
  (loaded = expectedValue ->
   exists endTime waitList opened event parked,
     getEndTimeFromTimeout (clock st) timeout = Value endTime /\
     openWaitList valuePointer st = Returned waitList opened /\
     waitOnAddress_check ty threadWakeEvent valuePointer expectedValue waitList opened
       = Returned (Some event) parked /\
     threadWakeEvent' = Some event /\
     let atWake := whileParked env parked in
     let atLock := afterTimeout env atWake in
     (code = 2 <->
      events atWake !! event = Some false /\
      (endTime < UINT64_MAX /\ endTime <= clock atWake) /\
      exists wl, waitLists atLock !! waitList = Some wl /\ event ∈ wakeEvents wl) /\
     (code = 0 ->
      exists new, signalLog st' = signalLog st ++ new /\ event ∈ new)).
Proof.
  intros Hpark Hrace Htls Hrun loaded.
  unfold waitOnAddress in Hrun.
  apply bind_Returned in Hrun as (startTime & sa & Hclock & Hrun).
  unfold getMonotonicClock in Hclock. injection Hclock as <- <-.
  apply bind_Returned in Hrun as (endTime0 & sb & Hend & Hrun).
  unfold liftChecked in Hend.
  destruct (getEndTimeFromTimeout (clock st) timeout) as [endTime| |] eqn:Hget;
    try discriminate.
  injection Hend as <- <-.
  apply bind_Returned in Hrun as (waitList & opened & Hopen & Hrun).
  destruct (openWaitList_quiet _ _ _ _ Hopen) as (Lopen & Mopen & _ & Eopen).
  assert (Eopen' : events opened = events st).
  { clear - Hopen. unfold openWaitList in Hopen.
    destruct (addressToWaitListMap st !! valuePointer) as [p|].
    - apply bind_Returned in Hopen as (wl & s & Hd & H).
      apply bind_Returned in H as (u & s' & Ha & H).
      unfold deref in Hd. destruct (waitLists st !! p); [ | discriminate].
      unfold assign, ret in *. simplify_eq. reflexivity.
    - cbn in Hopen. simplify_eq. reflexivity. }
  apply bind_Returned in Hrun as (parkedOn & parked & Hcheck & Hrun).
  pose proof (quiet_log _ _ _ _ (waitOnAddress_check_quiet _ _ _ _ _) Hcheck) as Lcheck.
  destruct parkedOn as [event|].
  - (* the value was the expected one: the thread parks *)
    apply waitOnAddress_check_Some in Hcheck as Hfacts;
      [ | intros e He; rewrite Eopen'; auto ].
    destruct Hfacts as (Hload & Hunsignaled & _).
    rewrite Mopen in Hload. fold loaded in Hload.
    apply bind_Returned in Hrun as ([] & atWake & Hint & Hrun).
    unfold interfere in Hint. simplify_eq.
    pose proof (interleaving_signalsOnly _ _ (Hpark parked)) as (new1 & L1 & E1).
    apply bind_Returned in Hrun as (signaled & s1 & Hwait & Hrun).
    pose proof (quiet_log _ _ _ _ (waitForEvent_quiet _ _) Hwait) as Lwait.
    apply waitForEvent_result in Hwait.
    destruct signaled as [[|]|].
    + (* a signal was consumed *)
      apply bind_Returned in Hrun as ([] & s2 & Hclose & Hrun).
      pose proof (quiet_log _ _ _ _ (closeWaitList_quiet _ _) Hclose) as Lclose.
      unfold ret in Hrun. simplify_eq.
      split; [auto | ]. split; [split; [discriminate | intros; contradiction] | ].
      split; [discriminate | ].
      intros _. exists endTime, waitList, opened, event, parked.
      repeat split; try assumption; try discriminate.
      * intros (Hf & _). congruence.
      * intros _. exists new1. split; [congruence | ].
        destruct (E1 _ Hwait); [congruence | assumption].
    + (* the wait timed out *)
      destruct Hwait as (Hstill & Hfinite & Hpassed & ->).
      apply bind_Returned in Hrun as ([] & atLock & Hint & Hrun).
      unfold interfere in Hint. simplify_eq.
      pose proof (interleaving_signalsOnly _ _ (Hrace (whileParked env parked)))
        as (new2 & L2 & E2).
      apply bind_Returned in Hrun as (timedOut & s2 & Hto & Hrun).
      pose proof (quiet_log _ _ _ _ (waitOnAddress_timedOut_quiet _ _) Hto) as Lto.
      apply waitOnAddress_timedOut_result in Hto as (wl & Hwl & Hto).
      apply bind_Returned in Hrun as ([] & s3 & Hclose & Hrun).
      pose proof (quiet_log _ _ _ _ (closeWaitList_quiet _ _) Hclose) as Lclose.
      unfold ret in Hrun. simplify_eq.
      destruct timedOut.
      * destruct Hto as (Hin & _).
        split; [auto | ]. split; [split; [discriminate | intros; contradiction] | ].
        split; [discriminate | ].
        intros _. exists endTime, waitList, opened, event, parked.
        repeat split; try assumption; try discriminate. eauto.
      * destruct Hto as (Hout & Hsig).
        split; [auto | ]. split; [split; [discriminate | intros; contradiction] | ].
        split; [discriminate | ].
        intros _. exists endTime, waitList, opened, event, parked.
        repeat split; try assumption; try discriminate.
        -- intros (_ & _ & wl' & Hwl' & Hin). congruence.
        -- intros _. exists (new1 ++ new2). split.
           ++ rewrite Lclose, Lto, L2, L1, Lcheck, Lopen, app_assoc. reflexivity.
           ++ rewrite elem_of_app. right.
              destruct (E2 _ Hsig); [congruence | assumption].
    + (* still blocked *)
      unfold ret in Hrun. discriminate Hrun.
  - (* the value differs *)
    apply waitOnAddress_check_None in Hcheck as (Hload & ->).
    rewrite Mopen in Hload. fold loaded in Hload.
    apply bind_Returned in Hrun as ([] & s2 & Hclose & Hrun).
    pose proof (quiet_log _ _ _ _ (closeWaitList_quiet _ _) Hclose) as Lclose.
    unfold ret in Hrun. simplify_eq.
    split; [auto | ]. split; [split; auto | ].
    split; [intros _; split; [reflexivity | congruence] | ].
    intros; contradiction.
Qed.

Lemma closeWaitList_returns st address waitList :
  closable st waitList -> exists st', closeWaitList address waitList st = Returned tt st'.
Proof.
  intros (wl & Hwl & Hr & Hlast).
  rewrite (closeWaitList_live _ _ _ _ Hwl). cbn zeta.
  rewrite Uptr_small by lia.
  destruct (Z.eqb_spec (numReferences wl - 1) 0) as [E|E]; [ | eauto].
  rewrite Hlast by lia. cbn. eauto.
Qed.

Lemma closable_events st waitList f :
  closable st waitList -> closable (set_events f st) waitList.
Proof. intros H. exact H. Qed.

(** When a parked call returns, and with which code. *)
Lemma waitOnAddress_resumes
    (env : Interference) (ty : ValueType) (threadWakeEvent : option Z)
    (valuePointer expectedValue : Z) (timeout : F64) (st : Runtime)
    (endTime waitList : Z) (opened : Runtime) (event : Z) (parked : Runtime) :
  getEndTimeFromTimeout (clock st) timeout = Value endTime ->
  openWaitList valuePointer st = Returned waitList opened ->
  waitOnAddress_check ty threadWakeEvent valuePointer expectedValue waitList opened
    = Returned (Some event) parked ->
  let run := waitOnAddress env ty threadWakeEvent valuePointer expectedValue timeout st in
  let atWake := whileParked env parked in
  let atLock := afterTimeout env atWake in
  let passed := endTime < UINT64_MAX /\ endTime <= clock atWake in
  (events atWake !! event = Some true -> closable atWake waitList ->
   exists st', run = Returned (Some 0, Some event) st') /\
  (events atWake !! event = Some false -> ~ passed ->
   run = Returned (None, Some event) atWake) /\
  (events atWake !! event = Some false -> passed ->
   forall wl, waitLists atLock !! waitList = Some wl ->
     (event ∈ wakeEvents wl ->
      closable (set_waitLists
                  (insert waitList (mkWaitList (eraseFirst event (wakeEvents wl))
                                               (numReferences wl))) atLock) waitList ->
      exists st', run = Returned (Some 2, Some event) st') /\
     (event ∉ wakeEvents wl -> events atLock !! event = Some true ->
      closable atLock waitList ->
      exists st', run = Returned (Some 0, Some event) st') /\
     (event ∉ wakeEvents wl -> events atLock !! event = Some false -> run = Fatal)).
Proof.
  intros Hend Hopen Hcheck run atWake atLock passed. subst atLock.
  assert (Hrun : run = (signaled <- waitForEvent event endTime ;;
                        match signaled with
                        | None => ret (None, Some event)
                        | Some true =>
                            closeWaitList valuePointer waitList ;;;
                            ret (Some 0, Some event)
                        | Some false =>
                            interfere (afterTimeout env) ;;;
                            timedOut <- waitOnAddress_timedOut waitList event ;;
                            closeWaitList valuePointer waitList ;;;
                            ret (Some (if timedOut : bool then 2 else 0), Some event)
                        end) atWake).
  { subst run. unfold waitOnAddress. unfold bind at 1. unfold getMonotonicClock.
    unfold bind at 1. rewrite Hend. unfold liftChecked.
    unfold bind at 1. rewrite Hopen.
    unfold bind at 1. rewrite Hcheck.
    unfold bind at 1. unfold interfere. reflexivity. }
  rewrite Hrun. clear Hrun. subst passed.
  split; [ | split ].
  - intros Hsig Hclosable. unfold bind at 1. unfold waitForEvent. rewrite Hsig.
    destruct (closeWaitList_returns _ valuePointer _
                (closable_events atWake waitList (insert event false) Hclosable))
      as [st' Hclose].
    unfold bind at 1. rewrite Hclose. eauto.
  - intros Hsig Hnot. unfold bind at 1. unfold waitForEvent. rewrite Hsig.
    destruct (Z.ltb_spec endTime UINT64_MAX); destruct (Z.leb_spec endTime (clock atWake));
      cbn [andb]; try reflexivity.
    exfalso. apply Hnot. split; assumption.
  - intros Hsig [Hfin Hpassed] wl Hwl.
    assert (Hstep :
      (signaled <- waitForEvent event endTime ;;
       match signaled with
       | None => ret (None, Some event)
       | Some true =>
           closeWaitList valuePointer waitList ;;;
           ret (Some 0, Some event)
       | Some false =>
           interfere (afterTimeout env) ;;;
           timedOut <- waitOnAddress_timedOut waitList event ;;
           closeWaitList valuePointer waitList ;;;
           ret (Some (if timedOut : bool then 2 else 0), Some event)
       end) atWake
      = (timedOut <-
           (if bool_decide (event ∈ wakeEvents wl) then
              assign waitList (mkWaitList (eraseFirst event (wakeEvents wl))
                                          (numReferences wl)) ;;;
              ret true
            else
              now <- getMonotonicClock ;;
              r <- waitForEvent event now ;;
              errorUnless (match r with Some true => true | _ => false end) ;;;
              ret false) ;;
         closeWaitList valuePointer waitList ;;;
         ret (Some (if timedOut : bool then 2 else 0), Some event))
          (afterTimeout env atWake)).
    { unfold bind at 1. unfold waitForEvent. rewrite Hsig.
      destruct (Z.ltb_spec endTime UINT64_MAX); [ | lia].
      destruct (Z.leb_spec endTime (clock atWake)); [ | lia]. cbn [andb].
      unfold bind at 1. unfold interfere.
      unfold waitOnAddress_timedOut.
      unfold bind at 1. unfold bind at 1. unfold deref. rewrite Hwl. reflexivity. }
    rewrite Hstep. clear Hstep.
    split; [ | split ].
    + intros Hin Hclosable.
      rewrite bool_decide_eq_true_2 by exact Hin.
      unfold bind at 1. unfold bind at 1. unfold assign at 1. unfold ret at 1.
      destruct (closeWaitList_returns _ valuePointer _ Hclosable) as [st' Hclose].
      unfold bind at 1. rewrite Hclose. eauto.
    + intros Hout Hsig' Hclosable.
      rewrite bool_decide_eq_false_2 by exact Hout.
      unfold bind at 1. unfold bind at 1. unfold getMonotonicClock.
      unfold bind at 1. unfold waitForEvent. rewrite Hsig'.
      unfold bind at 1. unfold errorUnless. unfold ret at 1.
      destruct (closeWaitList_returns _ valuePointer _
                  (closable_events _ waitList (insert event false) Hclosable))
        as [st' Hclose].
      unfold bind at 1. rewrite Hclose. eauto.
    + intros Hout Hsig'.
      rewrite bool_decide_eq_false_2 by exact Hout.
      unfold bind at 1. unfold bind at 1. unfold getMonotonicClock.
      unfold bind at 1. unfold waitForEvent. rewrite Hsig'.
      destruct (_ && _); reflexivity.
Qed.

Lemma only_wakeAddress_signals a s s' :
  perform a s = Returned tt s' -> signalLog s' <> signalLog s ->
  exists waitList numToWake, a = Act_wakeAddress_locked waitList numToWake.
Proof.
  intros H Hne. destruct (perform_signals _ _ _ H) as [_ Hw].
  destruct (Hw Hne) as (p & n & wl & -> & _). eauto.
Qed.

(** C2. A call of waitOnAddress that returns, returns 0, 1 or 2.  It
    returns 1 exactly when the value loaded differs from the expected one,
    and then the thread never parked.  Otherwise the thread registered its
    token, and the call returns 2 exactly when the wait ended on the
    deadline with the token unsignaled and the token is still on the wait
    list when the list is locked again; it returns 0 only when the token
    was signaled during the call, by a logged signalEvent, and the only
    code that signals is the locked block of wakeAddress.  Conversely a
    parked call whose wait list can be closed returns 0 once its token is
    signaled, stays blocked while the token is unsignaled and the deadline
    has not passed, and after the deadline returns 2 if the token is still
    on the list and 0 if it is not and is signaled; a token that is
    neither on the list nor signaled is the fatal error. *)
Theorem waitOnAddress_codes
    (env : Interference) (ty : ValueType) (threadWakeEvent : option Z)
    (valuePointer expectedValue : Z) (timeout : F64) (st : Runtime) :
  (forall s, interleaving s (whileParked env s)) ->
  (forall s, interleaving s (afterTimeout env s)) ->
  (forall event, threadWakeEvent = Some event -> events st !! event = Some false) ->
  let run := waitOnAddress env ty threadWakeEvent valuePointer expectedValue timeout st in
  let loaded := asValue ty (loadBytes (sizeofValue ty) valuePointer (memory st)) in
  (forall code threadWakeEvent' st',
     run = Returned (Some code, threadWakeEvent') st' ->
     (code = 0 \/ code = 1 \/ code = 2) /\
     (code = 1 <-> loaded <> expectedValue) /\
     (code = 1 -> threadWakeEvent' = threadWakeEvent /\ signalLog st' = signalLog st) /\
     (loaded = expectedValue ->
      exists endTime waitList opened event parked,
        getEndTimeFromTimeout (clock st) timeout = Value endTime /\
        openWaitList valuePointer st = Returned waitList opened /\
        waitOnAddress_check ty threadWakeEvent valuePointer expectedValue waitList opened
          = Returned (Some event) parked /\
        threadWakeEvent' = Some event /\
        let atWake := whileParked env parked in
        let atLock := afterTimeout env atWake in
        (code = 2 <->
         events atWake !! event = Some false /\
         (endTime < UINT64_MAX /\ endTime <= clock atWake) /\
         exists wl, waitLists atLock !! waitList = Some wl /\ event ∈ wakeEvents wl) /\
        (code = 0 ->
         exists new, signalLog st' = signalLog st ++ new /\ event ∈ new))) /\
  (forall endTime waitList opened event parked,
     getEndTimeFromTimeout (clock st) timeout = Value endTime ->
     openWaitList valuePointer st = Returned waitList opened ->
     waitOnAddress_check ty threadWakeEvent valuePointer expectedValue waitList opened
       = Returned (Some event) parked ->
     let atWake := whileParked env parked in
     let atLock := afterTimeout env atWake in
     let passed := endTime < UINT64_MAX /\ endTime <= clock atWake in
     (events atWake !! event = Some true -> closable atWake waitList ->
      exists st', run = Returned (Some 0, Some event) st') /\
     (events atWake !! event = Some false -> ~ passed ->
      run = Returned (None, Some event) atWake) /\
     (events atWake !! event = Some false -> passed ->
      forall wl, waitLists atLock !! waitList = Some wl ->
        (event ∈ wakeEvents wl ->
         closable (set_waitLists
                     (insert waitList (mkWaitList (eraseFirst event (wakeEvents wl))
                                                  (numReferences wl))) atLock) waitList ->
         exists st', run = Returned (Some 2, Some event) st') /\
        (event ∉ wakeEvents wl -> events atLock !! event = Some true ->
         closable atLock waitList ->
         exists st', run = Returned (Some 0, Some event) st') /\
        (event ∉ wakeEvents wl -> events atLock !! event = Some false -> run = Fatal))) /\
  (forall a s s', perform a s = Returned tt s' -> signalLog s' <> signalLog s ->
     exists waitList numToWake, a = Act_wakeAddress_locked waitList numToWake).
Proof.
  intros Hpark Hrace Htls run loaded. split; [ | split ].
  - intros code threadWakeEvent' st' Hrun.
    exact (waitOnAddress_returned_code env ty threadWakeEvent valuePointer expectedValue
             timeout st code threadWakeEvent' st' Hpark Hrace Htls Hrun).
  - intros endTime waitList opened event parked Hend Hopen Hcheck.
    exact (waitOnAddress_resumes env ty threadWakeEvent valuePointer expectedValue timeout
             st endTime waitList opened event parked Hend Hopen Hcheck).
  - exact only_wakeAddress_signals.
Qed.

(** ** The code on concrete states *)

Lemma singleEntry_invariant l refs :
  1 <= refs <= UINT64_MAX -> tableInvariant (singleEntry l refs).
Proof.
  intros Hr. unfold singleEntry. split; [ | split]; cbn.
  - intros p wl H. apply lookup_singleton_Some in H as [<- <-]. cbn.
    split; [assumption | ]. exists 4096. apply lookup_singleton_eq.
  - intros a p H. apply lookup_singleton_Some in H as [<- <-].
    rewrite lookup_singleton_eq. eauto.
  - intros a1 a2 p H1 H2.
    apply lookup_singleton_Some in H1 as [<- _].
    apply lookup_singleton_Some in H2 as [<- _]. reflexivity.
Qed.

Lemma singleEntry_bound l refs address :
  refs < UINT64_MAX ->
  forall waitList wl,
    addressToWaitListMap (singleEntry l refs) !! address = Some waitList ->
    waitLists (singleEntry l refs) !! waitList = Some wl ->
    numReferences wl < UINT64_MAX.
Proof.
  intros Hr p wl _ H. cbn in H. apply lookup_singleton_Some in H as [_ <-]. exact Hr.
Qed.

Lemma singleEntry_waiters l refs : waiters (singleEntry l refs) 4096 = l.
Proof. unfold waiters, singleEntry. cbn. rewrite !lookup_singleton_eq. reflexivity. Qed.

Lemma singleEntry_events l refs address e :
  e ∈ waiters (singleEntry l refs) address -> is_Some (events (singleEntry l refs) !! e).
Proof.
  unfold waiters. cbn.
  destruct (decide (address = 4096)) as [->|Hne].
  - rewrite !lookup_singleton_eq. intros He.
    destruct (list_to_map ((fun e => (e, false)) <$> l) !! e) as [b|] eqn:E; [eauto | ].
    apply not_elem_of_list_to_map_2 in E. exfalso. apply E.
    rewrite <- list_fmap_compose. cbn.
    replace (fst ∘ (fun e => (e, false))) with (@id Z) by reflexivity.
    rewrite list_fmap_id. exact He.
  - rewrite lookup_singleton_ne by congruence. intros He. by apply not_elem_of_nil in He.
Qed.

Lemma crowd_length n : length (crowd n) = n.
Proof. unfold crowd. rewrite length_fmap. apply length_seq. Qed.

(** Waking all of more than UINT32_MAX parked threads throws. *)
Lemma crowd_wake_all n :
  UINT32_MAX < Z.of_nat n -> Z.of_nat n < UINT64_MAX ->
  exists st', wakeAddress 4096 UINT32_MAX (crowdedRuntime n)
              = Thrown integerDivideByZeroOrIntegerOverflowType st'.
Proof.
  intros Hbig Hsmall. unfold crowdedRuntime.
  assert (Hnz : UINT32_MAX <> 0) by discriminate.
  rewrite (wakeAddress_run _ 4096 UINT32_MAX).
  - rewrite singleEntry_waiters, crowd_length.
    unfold numWoken. change (UINT32_MAX =? UINT32_MAX) with true. cbn [orb].
    destruct (Z.gtb_spec (Z.of_nat n) UINT32_MAX) as [_|?]; [eauto | lia].
  - apply singleEntry_invariant. unfold UINT32_MAX in Hbig. lia.
  - apply singleEntry_bound. exact Hsmall.
  - apply singleEntry_events.
  - exact Hnz.
Qed.

Lemma many_threads :
  UINT32_MAX < Z.of_nat (Z.to_nat 4294967296) /\
  Z.of_nat (Z.to_nat 4294967296) < UINT64_MAX.
Proof. rewrite Z2Nat.id by discriminate. split; reflexivity. Qed.

(** Against C8 as stated: with 2^32 threads parked on an address, a wake
    of all of them (count UINT32_MAX) reaches the throw. *)
Lemma wakeAddress_overflow_check_fires :
  exists st', wakeAddress 4096 UINT32_MAX (crowdedRuntime (Z.to_nat 4294967296))
              = Thrown integerDivideByZeroOrIntegerOverflowType st'.
Proof. destruct many_threads. apply crowd_wake_all; assumption. Qed.

(** Against C1 as stated: on the same state the call with count
    UINT32_MAX does not return the number of tokens it woke, 2^32: it
    does not return. *)
Lemma wakeAddress_returns_nothing_on_crowd :
  Z.of_nat (length (waiters (crowdedRuntime (Z.to_nat 4294967296)) 4096)) = 4294967296 /\
  forall n st',
    wakeAddress 4096 UINT32_MAX (crowdedRuntime (Z.to_nat 4294967296)) <> Returned n st'.
Proof.
  split.
  - unfold crowdedRuntime. rewrite singleEntry_waiters, crowd_length.
    apply Z2Nat.id. discriminate.
  - intros n st' H. destruct many_threads as [H1 H2].
    destruct (crowd_wake_all _ H1 H2) as [st'' E]. rewrite E in H. discriminate H.
Qed.

Lemma wakeAddress_wakes_oldest_witness :
  exists st', wakeAddress 4096 2 (crowdedRuntime 3) = Returned 2 st' /\
    signalLog st' = [0; 1] /\ waiters st' 4096 = [2].
Proof.
  destruct (wakeAddress_wakes_oldest (crowdedRuntime 3) 4096 2) as [_ H].
  - apply singleEntry_invariant. vm_compute. split; discriminate.
  - apply singleEntry_bound. reflexivity.
  - apply singleEntry_events.
  - vm_compute. split; discriminate.
  - destruct H as (st' & Hret & _ & Hlog & _ & Hw & _); [discriminate | ].
    exists st'. split; [ | split ].
    + apply Hret. vm_compute. discriminate.
    + exact Hlog.
    + exact Hw.
Defined.

Lemma wakeAddress_overflow_check_witness :
  ((exists st', wakeAddress 4096 UINT32_MAX (crowdedRuntime 3)
                = Thrown integerDivideByZeroOrIntegerOverflowType st')
   <-> UINT32_MAX = UINT32_MAX /\
       UINT32_MAX < Z.of_nat (length (waiters (crowdedRuntime 3) 4096))).
Proof.
  apply (wakeAddress_overflow_check (crowdedRuntime 3) 4096 UINT32_MAX).
  - apply singleEntry_invariant. vm_compute. split; discriminate.
  - apply singleEntry_bound. reflexivity.
  - apply singleEntry_events.
  - vm_compute. split; discriminate.
Defined.

Lemma addressTable_invariant_witness :
  exists st2,
    closeWaitList 4096 0 (singleEntry [] 1) = Returned tt st2 /\
    tableInvariant st2 /\
    addressToWaitListMap st2 = delete 4096 (addressToWaitListMap (singleEntry [] 1)) /\
    waitLists st2 = delete 0 (waitLists (singleEntry [] 1)).
Proof.
  destruct (addressTable_invariant (singleEntry [] 1) 4096) as (_ & _ & Hclose & _).
  - apply singleEntry_invariant. vm_compute. split; discriminate.
  - apply singleEntry_bound. reflexivity.
  - destruct (Hclose 0 (mkWaitList [] 1)) as (_ & Hlast & _).
    + reflexivity.
    + reflexivity.
    + apply Hlast; reflexivity.
Defined.

Lemma closeWaitList_last_reference_race_witness :
  exists decremented destroyed,
    closeWaitList_decrement 0 (singleEntry [] 1) = Returned 0 decremented /\
    ~ tableInvariant decremented /\
    openWaitList 4096 decremented = Returned 0 (singleEntry [] 1) /\
    closeWaitList 4096 0 (singleEntry [] 1) = Returned tt destroyed /\
    addressToWaitListMap destroyed !! 4096 = None /\
    closeWaitList_locked 4096 0 destroyed = Undefined.
Proof.
  destruct (closeWaitList_last_reference_race (singleEntry [] 1) 4096 0)
    as (decremented & destroyed & Hdec & _ & _ & Hbroken & Hopen & Hclose & _ & _ & Hgone
        & _ & Hrecheck).
  - apply singleEntry_invariant. vm_compute. split; discriminate.
  - apply lookup_singleton_eq.
  - apply lookup_singleton_eq.
  - exists decremented, destroyed.
    split; [exact Hdec | ]. split; [exact Hbroken | ]. split; [exact Hopen | ].
    split; [exact Hclose | ]. split; [exact Hgone | exact Hrecheck].
Defined.

Lemma waitOnAddress_notEqual_restores_witness :
  waitOnAddress (mkInterference wakeAll wakeAll) TI32 None 4096 1 (S754_zero false)
    (crowdedRuntime 3)
  = Returned (Some 1, None) (crowdedRuntime 3).
Proof.
  apply (waitOnAddress_notEqual_restores (mkInterference wakeAll wakeAll) TI32 None 4096 1
           (S754_zero false) (crowdedRuntime 3) 0).
  - apply singleEntry_invariant. vm_compute. split; discriminate.
  - apply singleEntry_bound. reflexivity.
  - vm_compute. reflexivity.
  - vm_compute. discriminate.
Defined.

Lemma wakeAll_interleaving s : interleaving s (wakeAll s).
Proof.
  unfold wakeAll.
  destruct (perform (Act_wakeAddress_locked 0 UINT32_MAX) s) as [[] s'| | |] eqn:E;
    try apply interleaving_done.
  eapply interleaving_step; [exact E | apply interleaving_done].
Qed.

Lemma wakeAllEnv_whileParked s : interleaving s (whileParked wakeAllEnv s).
Proof. apply wakeAll_interleaving. Qed.

Lemma wakeAllEnv_afterTimeout s : interleaving s (afterTimeout wakeAllEnv s).
Proof. apply interleaving_done. Qed.

Lemma afterWake_run :
  waitOnAddress wakeAllEnv TI32 None 4096 0 (S754_infinity false) (crowdedRuntime 3)
  = Returned (Some 0, Some 3) afterWake.
Proof. vm_compute. reflexivity. Qed.

Lemma waitOnAddress_codes_witness :
  waitOnAddress wakeAllEnv TI32 None 4096 0 (S754_infinity false) (crowdedRuntime 3)
    = Returned (Some 0, Some 3) afterWake /\
  (0 = 0 \/ 0 = 1 \/ 0 = 2) /\
  (0 = 1 <->
   asValue TI32 (loadBytes (sizeofValue TI32) 4096 (memory (crowdedRuntime 3))) <> 0).
Proof.
  split; [exact afterWake_run | ].
  pose proof (waitOnAddress_codes wakeAllEnv TI32 None 4096 0 (S754_infinity false)
                (crowdedRuntime 3)
                wakeAllEnv_whileParked wakeAllEnv_afterTimeout
                ltac:(discriminate)) as H.
  cbv zeta in H. destruct H as (H & _).
  destruct (H 0 (Some 3) afterWake afterWake_run) as (H1 & H2 & _).
  split; [exact H1 | exact H2].
Defined.

(** Thread A holds the only reference and decrements it to 0; before A
    takes the table mutex, thread B opens the wait list and closes it
    again, which destroys it; the re-check of A then reads the count of a
    destroyed wait list. *)
Lemma closeWaitList_recheck_after_destruction :
  closeWaitList_decrement 0 (singleEntry [] 1) = Returned 0 (singleEntry [] 0) /\
  openWaitList 4096 (singleEntry [] 0) = Returned 0 (singleEntry [] 1) /\
  closeWaitList 4096 0 (singleEntry [] 1) = Returned tt (mkRuntime ∅ ∅ ∅ [] ∅ 0) /\
  closeWaitList_locked 4096 0 (mkRuntime ∅ ∅ ∅ [] ∅ 0) = Undefined.
Proof. repeat split; vm_compute; reflexivity. Qed.

(** A wait with the expected value in memory, a deadline of now and no
    waker times out: the token is taken off the list again and the call
    returns 2. *)
Lemma waitOnAddress_times_out :
  waitOnAddress (mkInterference (fun s => s) (fun s => s)) TI32 None 4096 0
    (S754_zero false) (crowdedRuntime 3)
  = Returned (Some 2, Some 3) (set_events (insert 3 false) (crowdedRuntime 3)).
Proof. vm_compute. reflexivity. Qed.

(* --------------------------------------------------------------------- *)
(** ** Deadlines, stores, and waits and wakes that meet *)

(** X2.  The deadline getEndTimeFromTimeout returns is never before the
    start time and never above UINT64_MAX, whatever the timeout is
    (negative, zero, NaN, infinite or huge). *)
Theorem getEndTimeFromTimeout_not_before_start (startTime : Z) (timeout : F64) (endTime : Z) :
  0 <= startTime <= UINT64_MAX ->
  getEndTimeFromTimeout startTime timeout = Value endTime ->
  startTime <= endTime <= UINT64_MAX.
Proof.
  intros Hs. unfold getEndTimeFromTimeout.
  destruct (negb _ && _).
  - destruct (F64_leb _ (S754_zero false)); [intros [= <-]; lia | ].
    destruct (F64_leb _ _); [ | intros [= <-]; lia].
    destruct (U64_of_F64 _) as [us|]; [ | discriminate].
    destruct (Z.leb_spec startTime (U64 (startTime + us))); [ | discriminate].
    intros [= <-]. split; [assumption | ].
    unfold U64, UINT64_MAX. pose proof (Z.mod_pos_bound (startTime + us) (2 ^ 64)). lia.
  - intros [= <-]. lia.
Qed.

Lemma storeBytes_other n : forall pointer value mem a,
  ~ (pointer <= a < pointer + Z.of_nat n) ->
  storeBytes n pointer value mem !! a = mem !! a.
Proof.
  induction n as [|n IH]; intros pointer value mem a Ha; [reflexivity | ].
  cbn [storeBytes]. rewrite IH by lia. apply lookup_insert_ne. lia.
Qed.

Lemma loadBytes_storeBytes n : forall pointer value mem,
  loadBytes n pointer (storeBytes n pointer value mem) = value mod 256 ^ Z.of_nat n.
Proof.
  induction n as [|n IH]; intros pointer value mem.
  - cbn. symmetry. apply Z.mod_1_r.
  - cbn [loadBytes storeBytes].
    (* the byte at [pointer] is not touched by the later stores *)
    assert (Hb : storeBytes n (pointer + 1) (value / 256) (<[pointer := value mod 256]> mem)
                 !! pointer = Some (value mod 256)).
    { rewrite storeBytes_other by lia. apply lookup_insert_eq. }
    rewrite Hb. cbn [default]. rewrite IH.
    rewrite Nat2Z.inj_succ, Z.pow_succ_r by lia.
    rewrite Z.rem_mul_r by (try apply Z.pow_nonzero; lia). reflexivity.
Qed.

Lemma loadBytes_ext n : forall pointer m1 m2,
  (forall a, pointer <= a < pointer + Z.of_nat n -> m1 !! a = m2 !! a) ->
  loadBytes n pointer m1 = loadBytes n pointer m2.
Proof.
  induction n as [|n IH]; intros pointer m1 m2 H; [reflexivity | ].
  cbn [loadBytes]. rewrite (H pointer) by lia. f_equal. f_equal.
  apply IH. intros a Ha. apply H. lia.
Qed.

Lemma asValue_mod ty value :
  asValue ty (value mod 256 ^ Z.of_nat (sizeofValue ty)) = asValue ty value.
Proof.
  destruct ty; cbn [sizeofValue asValue]; unfold I32, I64.
  - change (256 ^ Z.of_nat 4) with (2 ^ 32).
    rewrite Zplus_mod_idemp_l. reflexivity.
  - change (256 ^ Z.of_nat 8) with (2 ^ 64).
    rewrite Zplus_mod_idemp_l. reflexivity.
Qed.

Lemma asValue_small ty value :
  - 2 ^ (8 * Z.of_nat (sizeofValue ty) - 1) <= value < 2 ^ (8 * Z.of_nat (sizeofValue ty) - 1) ->
  asValue ty value = value.
Proof.
  destruct ty; cbn [sizeofValue asValue]; unfold I32, I64.
  - change (8 * Z.of_nat 4 - 1) with 31. intros H. rewrite Z.mod_small; lia.
  - change (8 * Z.of_nat 8 - 1) with 63. intros H. rewrite Z.mod_small; lia.
Qed.

(** X3.  atomicStore then atomicLoad at the same pointer and type reads
    back the stored value (as the value of the type's width, so the value
    itself when it fits); a load of bytes outside the stored ones reads
    what it read before the store; the wait lists, the address table, the
    events, the signal log and the clock are not touched. *)
Theorem atomicStore_atomicLoad (ty : ValueType) (valuePointer newValue : Z) (st : Runtime) :
  exists st',
    atomicStore ty valuePointer newValue st = Returned tt st' /\
    atomicLoad ty valuePointer st' = Returned (asValue ty newValue) st' /\
    (- 2 ^ (8 * Z.of_nat (sizeofValue ty) - 1) <= newValue
       < 2 ^ (8 * Z.of_nat (sizeofValue ty) - 1) ->
     atomicLoad ty valuePointer st' = Returned newValue st') /\
    (forall ty' pointer,
       pointer + Z.of_nat (sizeofValue ty') <= valuePointer \/
       valuePointer + Z.of_nat (sizeofValue ty) <= pointer ->
       exists v, atomicLoad ty' pointer st = Returned v st /\
                 atomicLoad ty' pointer st' = Returned v st') /\
    waitLists st' = waitLists st /\
    addressToWaitListMap st' = addressToWaitListMap st /\
    events st' = events st /\
    signalLog st' = signalLog st /\
    clock st' = clock st.
Proof.
  eexists. split; [reflexivity | ].
  assert (Hload : atomicLoad ty valuePointer
            (mkRuntime (waitLists st) (addressToWaitListMap st) (events st) (signalLog st)
               (storeBytes (sizeofValue ty) valuePointer newValue (memory st)) (clock st))
          = Returned (asValue ty newValue)
              (mkRuntime (waitLists st) (addressToWaitListMap st) (events st) (signalLog st)
                 (storeBytes (sizeofValue ty) valuePointer newValue (memory st)) (clock st))).
  { unfold atomicLoad. cbn [memory]. rewrite loadBytes_storeBytes, asValue_mod. reflexivity. }
  split; [exact Hload | ]. split.
  - intros Hr. rewrite Hload, (asValue_small _ _ Hr). reflexivity.
  - split; [ | repeat split].
    intros ty' pointer Hdisjoint. eexists. split; [reflexivity | ].
    unfold atomicLoad. cbn [memory]. f_equal. f_equal.
    apply loadBytes_ext. intros a Ha. apply storeBytes_other. lia.
Qed.

Lemma alter_wakeEvents_id (f : list Z -> list Z) waitList (h : gmap Z WaitList) :
  (forall wl, h !! waitList = Some wl -> f (wakeEvents wl) = wakeEvents wl) ->
  alter (fun wl => mkWaitList (f (wakeEvents wl)) (numReferences wl)) waitList h = h.
Proof.
  intros Hf. apply map_eq. intros i. rewrite lookup_alter. case_decide as E; [ | reflexivity].
  subst i. destruct (h !! waitList) as [wl|] eqn:Hwl; cbn; [ | reflexivity].
  rewrite (Hf wl eq_refl). destruct wl; reflexivity.
Qed.

Lemma numWoken_range numToWake size :
  0 <= numToWake -> 0 <= size -> 0 <= numWoken numToWake size <= size.
Proof.
  intros Hn Hs. unfold numWoken.
  destruct (numToWake =? UINT32_MAX); cbn [orb]; [lia | ].
  destruct (Z.ltb_spec size numToWake); lia.
Qed.

(** X5.  wakeAddress on an address nobody waits on (no wait list, or an
    empty one) returns 0 for every count and leaves the whole state as it
    was: the wait list it opened is closed again, and one it created is
    deleted. *)
Theorem wakeAddress_without_waiters (st : Runtime) (address numToWake : Z) :
  tableInvariant st ->
  (forall waitList wl, addressToWaitListMap st !! address = Some waitList ->
     waitLists st !! waitList = Some wl -> numReferences wl < UINT64_MAX) ->
  0 <= numToWake <= UINT32_MAX ->
  waiters st address = [] ->
  wakeAddress address numToWake st = Returned 0 st.
Proof.
  intros Hinv Hbound Hrange Hnone.
  destruct (Z.eq_dec numToWake 0) as [->|Hnz]; [reflexivity | ].
  pose proof (wakeAddress_run st address numToWake Hinv Hbound) as Hrun.
  cbv zeta in Hrun. rewrite Hnone in Hrun. cbn [length Z.of_nat] in Hrun.
  assert (Hn : numWoken numToWake 0 = 0)
    by (pose proof (numWoken_range numToWake 0); lia).
  change (Z.of_nat 0) with 0 in Hrun. rewrite Hn in Hrun. cbn [take drop Z.to_nat] in Hrun.
  rewrite Hrun; [ | intros e He; by apply not_elem_of_nil in He | exact Hnz].
  change (0 >? UINT32_MAX) with false. cbv iota. change (U32 0) with 0.
  f_equal. destruct st as [h t ev lg m c].
  unfold set_waitLists, set_signalLog, set_events, signalAll. cbn. f_equal.
  - destruct (t !! address); [ | reflexivity].
    apply (alter_wakeEvents_id (fun l => l)). reflexivity.
  - apply app_nil_r.
Qed.

Lemma signalAll_app l1 l2 ev : signalAll (l1 ++ l2) ev = signalAll l2 (signalAll l1 ev).
Proof. unfold signalAll. apply foldl_app. Qed.

Lemma signalAll_is_Some l ev e : is_Some (ev !! e) -> is_Some (signalAll l ev !! e).
Proof. intros H. rewrite signalAll_lookup. case_decide; eauto. Qed.

(** X6.  Waking n1 and then n2 threads of an address is waking n1 + n2
    at once (n1, n2 >= 1 and n1 + n2 < UINT32_MAX): the two calls return
    min(n1, size) and min(n2, size - min(n1, size)), the single call
    returns their sum, and both ways end in the same state. *)
Theorem wakeAddress_twice (st : Runtime) (address n1 n2 : Z) :
  tableInvariant st ->
  (forall waitList wl, addressToWaitListMap st !! address = Some waitList ->
     waitLists st !! waitList = Some wl -> numReferences wl < UINT64_MAX) ->
  (forall e, e ∈ waiters st address -> is_Some (events st !! e)) ->
  1 <= n1 -> 1 <= n2 -> n1 + n2 < UINT32_MAX ->
  let size := Z.of_nat (length (waiters st address)) in
  exists st1 st2,
    wakeAddress address n1 st = Returned (Z.min n1 size) st1 /\
    wakeAddress address n2 st1 = Returned (Z.min n2 (size - Z.min n1 size)) st2 /\
    wakeAddress address (n1 + n2) st = Returned (Z.min (n1 + n2) size) st2 /\
    Z.min (n1 + n2) size = Z.min n1 size + Z.min n2 (size - Z.min n1 size).
Proof.
  intros Hinv Hbound Hex H1 H2 H12 size.
  set (l := waiters st address) in *.
  assert (Hsize : 0 <= size) by (subst size; lia).
  set (k1 := Z.min n1 size). set (k2 := Z.min n2 (size - k1)).
  assert (Hk : Z.min (n1 + n2) size = k1 + k2) by lia.
  assert (HU : UINT32_MAX = 4294967295) by reflexivity.
  (* the first call *)
  pose proof (wakeAddress_run st address n1 Hinv Hbound Hex ltac:(lia)) as Hrun1.
  cbv zeta in Hrun1. fold l in Hrun1. fold size in Hrun1.
  rewrite numWoken_min in Hrun1 by lia.
  destruct (Z.eqb_spec n1 UINT32_MAX) as [|_]; [lia | ]. fold k1 in Hrun1.
  destruct (Z.gtb_spec k1 UINT32_MAX) as [|_]; [lia | ].
  rewrite U32_small in Hrun1 by lia.
  pose proof (wakeAddress_state_facts st address (Z.to_nat k1) Hinv) as Hfacts.
  cbv zeta in Hfacts. fold l in Hfacts.
  match type of Hrun1 with _ = Returned _ ?s => set (st1 := s) in * end.
  destruct Hfacts as (_ & Hev1 & Hw1 & Ht1 & Hrefs1 & _ & _ & _ & Hinv1).
  (* the second call *)
  assert (Hbound1 : forall waitList wl, addressToWaitListMap st1 !! address = Some waitList ->
            waitLists st1 !! waitList = Some wl -> numReferences wl < UINT64_MAX).
  { intros p wl Hp Hwl. rewrite Ht1 in Hp.
    destruct Hinv as (_ & Htab & _). destruct (Htab _ _ Hp) as [wl0 Hwl0].
    destruct (Hrefs1 _ _ Hwl0) as (wl' & Hwl' & Hr & _).
    rewrite Hwl in Hwl'. injection Hwl' as <-. rewrite Hr. eauto. }
  assert (Hex1 : forall e, e ∈ waiters st1 address -> is_Some (events st1 !! e)).
  { intros e He. rewrite Hw1 in He. rewrite Hev1. case_decide; [eauto | ].
    apply Hex. apply list_elem_of_lookup in He as (i & Hi).
    rewrite lookup_drop in Hi. eapply list_elem_of_lookup_2, Hi. }
  pose proof (wakeAddress_run st1 address n2 Hinv1 Hbound1 Hex1 ltac:(lia)) as Hrun2.
  cbv zeta in Hrun2. rewrite Hw1, Ht1 in Hrun2.
  rewrite length_drop in Hrun2.
  replace (Z.of_nat (length l - Z.to_nat k1)) with (size - k1) in Hrun2 by (subst size; lia).
  rewrite numWoken_min in Hrun2 by lia.
  destruct (Z.eqb_spec n2 UINT32_MAX) as [|_]; [lia | ]. fold k2 in Hrun2.
  destruct (Z.gtb_spec k2 UINT32_MAX) as [|_]; [lia | ].
  rewrite U32_small in Hrun2 by lia.
  (* the call that asks for both at once *)
  pose proof (wakeAddress_run st address (n1 + n2) Hinv Hbound Hex ltac:(lia)) as Hrun.
  cbv zeta in Hrun. fold l in Hrun. fold size in Hrun.
  rewrite numWoken_min in Hrun by lia.
  destruct (Z.eqb_spec (n1 + n2) UINT32_MAX) as [|_]; [lia | ]. rewrite Hk in Hrun.
  destruct (Z.gtb_spec (k1 + k2) UINT32_MAX) as [|_]; [lia | ].
  rewrite U32_small in Hrun by lia.
  eexists st1, _. split; [exact Hrun1 | ]. split; [exact Hrun2 | ].
  split; [ | exact Hk]. rewrite Hk, Hrun. f_equal.
  clear Hrun1 Hrun2 Hrun Hbound1 Hex1 Hinv1 Hev1 Hw1 Ht1 Hrefs1.
  assert (Hk1 : 0 <= k1) by lia. assert (Hk2 : 0 <= k2) by lia.
  subst st1. clearbody l size k1 k2. clear Hinv Hbound Hex. destruct st as [h t ev lg m c].
  unfold set_waitLists, set_signalLog, set_events. cbn.
  replace (Z.to_nat (k1 + k2)) with (Z.to_nat k1 + Z.to_nat k2)%nat by lia.
  rewrite <- take_take_drop, signalAll_app, app_assoc. f_equal.
  destruct (t !! address) as [p|]; [ | reflexivity].
  apply map_eq. intros i.
  destruct (decide (p = i)) as [->|Hne];
    [rewrite !lookup_alter_eq | rewrite !lookup_alter_ne by done; reflexivity].
  destruct (h !! i) as [wl|]; cbn; [ | reflexivity].
  rewrite drop_drop. reflexivity.
Qed.

Lemma waiters_live st address waitList wl :
  addressToWaitListMap st !! address = Some waitList ->
  waitLists st !! waitList = Some wl ->
  waiters st address = wakeEvents wl.
Proof. intros Ht Hwl. unfold waiters. rewrite Ht, Hwl. reflexivity. Qed.

Lemma waiters_absent st address :
  addressToWaitListMap st !! address = None -> waiters st address = [].
Proof. intros Ht. unfold waiters. rewrite Ht. reflexivity. Qed.

Lemma park_run ty tls valuePointer expectedValue st :
  tableInvariant st ->
  (forall waitList wl, addressToWaitListMap st !! valuePointer = Some waitList ->
     waitLists st !! waitList = Some wl -> numReferences wl < UINT64_MAX) ->
  asValue ty (loadBytes (sizeofValue ty) valuePointer (memory st)) = expectedValue ->
  let waitList := (heldBy st valuePointer).1 in
  let refs := (heldBy st valuePointer).2 in
  let event := tokenOf tls st in
  exists opened,
    openWaitList valuePointer st = Returned waitList opened /\
    waitOnAddress_check ty tls valuePointer expectedValue waitList opened
    = Returned (Some event) (parkedOn valuePointer waitList refs event (withToken tls st) st).
Proof.
  intros Hinv Hbound Hload waitList refs event. subst waitList refs event.
  pose proof Hinv as (Hlive & Htab & Hinj).
  unfold heldBy, parkedOn.
  destruct (addressToWaitListMap st !! valuePointer) as [p|] eqn:Ht.
  - destruct (Htab _ _ Ht) as [wl Hwl]. rewrite Hwl. cbn [fst snd].
    pose proof (Hbound _ _ eq_refl Hwl) as Hb. destruct (Hlive _ _ Hwl) as [Hr _].
    eexists. rewrite (openWaitList_existing _ _ _ _ Ht Hwl), Uptr_small by lia.
    split; [reflexivity | ].
    unfold waitOnAddress_check. unfold bind at 1. unfold atomicLoad. cbn [memory set_waitLists].
    rewrite Hload, Z.eqb_refl. cbn [negb].
    rewrite (waiters_live _ _ _ _ Ht Hwl), (insert_id _ _ _ Ht).
    destruct tls as [e|]; cbn [tokenOf withToken].
    + unfold bind, ret, deref, assign. cbn. rewrite lookup_insert_eq. cbn.
      unfold set_waitLists, set_events, set_addressToWaitListMap. cbn.
      rewrite insert_insert_eq. reflexivity.
    + unfold bind, ret, deref, assign, createEvent. cbn. rewrite lookup_insert_eq. cbn.
      unfold set_waitLists, set_events, set_addressToWaitListMap. cbn.
      rewrite insert_insert_eq. reflexivity.
  - cbn [fst snd]. destruct (openWaitList_absent _ _ Ht) as [Hf Ho].
    eexists. split; [exact Ho | ].
    unfold waitOnAddress_check. unfold bind at 1. unfold atomicLoad.
    cbn [memory set_waitLists set_addressToWaitListMap].
    rewrite Hload, Z.eqb_refl. cbn [negb]. rewrite (waiters_absent _ _ Ht).
    destruct tls as [e|]; cbn [tokenOf withToken].
    + unfold bind, ret, deref, assign. cbn. rewrite lookup_insert_eq. cbn.
      unfold set_waitLists, set_events, set_addressToWaitListMap. cbn.
      rewrite insert_insert_eq. reflexivity.
    + unfold bind, ret, deref, assign, createEvent. cbn. rewrite lookup_insert_eq. cbn.
      unfold set_waitLists, set_events, set_addressToWaitListMap. cbn.
      rewrite insert_insert_eq. reflexivity.
Qed.

Lemma heldBy_refs st address :
  tableInvariant st ->
  (forall waitList wl, addressToWaitListMap st !! address = Some waitList ->
     waitLists st !! waitList = Some wl -> numReferences wl < UINT64_MAX) ->
  1 <= (heldBy st address).2 <= UINT64_MAX /\
  ((heldBy st address).2 = 1 -> waiters st address = []) /\
  (forall a, addressToWaitListMap st !! a = Some (heldBy st address).1 -> a = address).
Proof.
  intros (Hlive & Htab & Hinj) Hbound. unfold heldBy, waiters.
  destruct (addressToWaitListMap st !! address) as [p|] eqn:Ht; cbn [fst snd].
  - destruct (Htab _ _ Ht) as [wl Hwl]. rewrite Hwl.
    pose proof (Hbound _ _ eq_refl Hwl). destruct (Hlive _ _ Hwl) as [? _].
    split; [lia | ]. split; [lia | ]. intros a Ha. eapply Hinj; eauto.
  - split; [unfold UINT64_MAX; lia | ]. split; [reflexivity | ].
    intros a Ha. destruct (Htab _ _ Ha) as [wl Hwl].
    exfalso. eapply (is_fresh (dom (waitLists st))). apply elem_of_dom. eauto.
Qed.

Lemma parkedOn_invariant st address event ev :
  tableInvariant st ->
  (forall waitList wl, addressToWaitListMap st !! address = Some waitList ->
     waitLists st !! waitList = Some wl -> numReferences wl < UINT64_MAX) ->
  tableInvariant
    (parkedOn address (heldBy st address).1 (heldBy st address).2 event ev st).
Proof.
  intros Hinv Hbound. pose proof (heldBy_refs st address Hinv Hbound) as (Hr & _ & Hown).
  destruct Hinv as (Hlive & Htab & Hinj).
  set (p := (heldBy st address).1) in *. set (refs := (heldBy st address).2) in *.
  unfold parkedOn. split; [ | split]; cbn.
  - intros q wl. rewrite lookup_insert. case_decide as E.
    + intros [= <-]. subst q. cbn. split; [exact Hr | ].
      exists address. apply lookup_insert_eq.
    + intros Hq. destruct (Hlive _ _ Hq) as [? [a Ha]]. split; [assumption | ].
      exists a. rewrite lookup_insert_ne; [assumption | ].
      intros <-. apply E. subst p. unfold heldBy. rewrite Ha. reflexivity.
  - intros a q. rewrite !lookup_insert. case_decide as E.
    + intros [= <-]. rewrite decide_True by reflexivity. eauto.
    + intros Hq. case_decide; eauto.
  - intros a1 a2 q. rewrite !lookup_insert.
    repeat case_decide; subst; intros H1 H2; try congruence.
    + injection H1 as <-. symmetry. eauto.
    + injection H2 as <-. eauto.
    + eauto.
Qed.

Lemma parkedOn_waiters st address waitList refs event ev :
  waiters (parkedOn address waitList refs event ev st) address
  = waiters st address ++ [event].
Proof. unfold waiters at 1, parkedOn. cbn. rewrite !lookup_insert_eq. reflexivity. Qed.

Lemma parkedOn_waiters_other st address event ev a :
  tableInvariant st ->
  (forall waitList wl, addressToWaitListMap st !! address = Some waitList ->
     waitLists st !! waitList = Some wl -> numReferences wl < UINT64_MAX) ->
  a <> address ->
  waiters (parkedOn address (heldBy st address).1 (heldBy st address).2 event ev st) a
  = waiters st a.
Proof.
  intros Hinv Hbound Hne. pose proof (heldBy_refs st address Hinv Hbound) as (_ & _ & Hown).
  unfold waiters at 1 2, parkedOn. cbn. rewrite lookup_insert_ne by congruence.
  destruct (addressToWaitListMap st !! a) as [q|] eqn:Ha; [ | reflexivity].
  rewrite lookup_insert_ne; [reflexivity | ].
  intros <-. apply Hne. apply Hown. exact Ha.
Qed.

(** The rest of a call whose thread parked. *)
Lemma waitOnAddress_after_park env ty tls valuePointer expectedValue timeout st
    endTime waitList opened event parked :
  getEndTimeFromTimeout (clock st) timeout = Value endTime ->
  openWaitList valuePointer st = Returned waitList opened ->
  waitOnAddress_check ty tls valuePointer expectedValue waitList opened
    = Returned (Some event) parked ->
  waitOnAddress env ty tls valuePointer expectedValue timeout st
  = (signaled <- waitForEvent event endTime ;;
     match signaled with
     | None => ret (None, Some event)
     | Some true =>
         closeWaitList valuePointer waitList ;;;
         ret (Some 0, Some event)
     | Some false =>
         interfere (afterTimeout env) ;;;
         timedOut <- waitOnAddress_timedOut waitList event ;;
         closeWaitList valuePointer waitList ;;;
         ret (Some (if timedOut : bool then 2 else 0), Some event)
     end) (whileParked env parked).
Proof.
  intros Hend Hopen Hcheck.
  unfold waitOnAddress. unfold bind at 1. unfold getMonotonicClock.
  unfold bind at 1. rewrite Hend. unfold liftChecked.
  unfold bind at 1. rewrite Hopen.
  unfold bind at 1. rewrite Hcheck.
  unfold bind at 1. unfold interfere. reflexivity.
Qed.

Lemma withToken_token tls st :
  (forall e, tls = Some e -> events st !! e = Some false) ->
  withToken tls st !! tokenOf tls st = Some false.
Proof.
  intros Htls. destruct tls as [e|]; cbn; [auto | apply lookup_insert_eq].
Qed.

(** X7.  waitOnAddress with the expected value in memory and a deadline
    that has not passed parks the caller: it creates the thread's wake
    event when the thread has none, appends it at the back of the wait
    list of the address, keeps one more reference on that wait list, and
    does not return while nothing else happens; the waiters of the other
    addresses, the memory, the signal log and the clock are as before, and
    the address table keeps its invariant. *)
Theorem waitOnAddress_parks
    (env : Interference) (ty : ValueType) (threadWakeEvent : option Z)
    (valuePointer expectedValue : Z) (timeout : F64) (st : Runtime) (endTime : Z) :
  tableInvariant st ->
  (forall waitList wl, addressToWaitListMap st !! valuePointer = Some waitList ->
     waitLists st !! waitList = Some wl -> numReferences wl < UINT64_MAX) ->
  getEndTimeFromTimeout (clock st) timeout = Value endTime ->
  asValue ty (loadBytes (sizeofValue ty) valuePointer (memory st)) = expectedValue ->
  (forall event, threadWakeEvent = Some event -> events st !! event = Some false) ->
  ~ (endTime < UINT64_MAX /\ endTime <= clock st) ->
  exists waitList event parked,
    (whileParked env parked = parked ->
     waitOnAddress env ty threadWakeEvent valuePointer expectedValue timeout st
     = Returned (None, Some event) parked) /\
    event = match threadWakeEvent with
            | Some e => e
            | None => fresh (dom (events st))
            end /\
    events parked = match threadWakeEvent with
                    | Some _ => events st
                    | None => <[event := false]> (events st)
                    end /\
    addressToWaitListMap parked = <[valuePointer := waitList]> (addressToWaitListMap st) /\
    waiters parked valuePointer = waiters st valuePointer ++ [event] /\
    (forall address, address <> valuePointer -> waiters parked address = waiters st address) /\
    (exists wl, waitLists parked !! waitList = Some wl /\
       numReferences wl
       = match addressToWaitListMap st !! valuePointer with
         | Some p => match waitLists st !! p with
                     | Some wl0 => numReferences wl0 + 1
                     | None => 1
                     end
         | None => 1
         end) /\
    signalLog parked = signalLog st /\
    memory parked = memory st /\
    clock parked = clock st /\
    tableInvariant parked.
Proof.
  intros Hinv Hbound Hend Hload Htls Hnot.
  destruct (park_run ty threadWakeEvent valuePointer expectedValue st Hinv Hbound Hload)
    as (opened & Hopen & Hcheck).
  set (waitList := (heldBy st valuePointer).1) in *.
  set (refs := (heldBy st valuePointer).2) in *.
  set (event := tokenOf threadWakeEvent st) in *.
  set (parked := parkedOn valuePointer waitList refs event (withToken threadWakeEvent st) st)
    in *.
  exists waitList, event, parked.
  split; [ | split; [ | split; [ | split; [ | split; [ | split; [ | split ] ] ] ] ] ].
  - intros Hquiet.
    rewrite (waitOnAddress_after_park env ty threadWakeEvent valuePointer expectedValue
               timeout st endTime waitList opened event parked Hend Hopen Hcheck).
    rewrite Hquiet. unfold bind at 1. unfold waitForEvent.
    assert (Hev : events parked !! event = Some false)
      by (apply withToken_token; exact Htls).
    rewrite Hev. change (clock parked) with (clock st).
    destruct (Z.ltb_spec endTime UINT64_MAX); destruct (Z.leb_spec endTime (clock st));
      cbn [andb]; try reflexivity.
    exfalso. apply Hnot. split; assumption.
  - subst event. destruct threadWakeEvent; reflexivity.
  - subst parked event. destruct threadWakeEvent; reflexivity.
  - reflexivity.
  - apply parkedOn_waiters.
  - intros a Ha. apply parkedOn_waiters_other; assumption.
  - eexists. split; [subst parked; cbn; apply lookup_insert_eq | ].
    cbn. subst refs. unfold heldBy.
    destruct (addressToWaitListMap st !! valuePointer); reflexivity.
  - split; [reflexivity | ]. split; [reflexivity | ]. split; [reflexivity | ].
    apply parkedOn_invariant; assumption.
Qed.

Lemma eraseFirst_middle event l1 l2 :
  event ∉ l1 -> eraseFirst event (l1 ++ event :: l2) = l1 ++ l2.
Proof.
  induction l1 as [|x l1 IH]; intros Hout; cbn.
  - rewrite Z.eqb_refl. reflexivity.
  - apply not_elem_of_cons in Hout as [Hx Hout].
    destruct (Z.eqb_spec x event) as [|_]; [congruence | ]. rewrite IH by assumption.
    reflexivity.
Qed.

Lemma eraseFirst_absent event l : event ∉ l -> eraseFirst event l = l.
Proof.
  induction l as [|x l IH]; intros Hout; cbn; [reflexivity | ].
  apply not_elem_of_cons in Hout as [Hx Hout].
  destruct (Z.eqb_spec x event) as [|_]; [congruence | ]. rewrite IH by assumption.
  reflexivity.
Qed.

(** X8.  waitOnAddress with the expected value in memory, a deadline that
    has already passed and no other thread running returns 2, and leaves
    the state as it was but for the wake event it created for a thread
    that had none: the token is off the wait list again and the reference
    is released. *)
Theorem waitOnAddress_deadline_passed
    (env : Interference) (ty : ValueType) (threadWakeEvent : option Z)
    (valuePointer expectedValue : Z) (timeout : F64) (st : Runtime) (endTime : Z) :
  tableInvariant st ->
  (forall waitList wl, addressToWaitListMap st !! valuePointer = Some waitList ->
     waitLists st !! waitList = Some wl -> numReferences wl < UINT64_MAX) ->
  getEndTimeFromTimeout (clock st) timeout = Value endTime ->
  endTime < UINT64_MAX -> endTime <= clock st ->
  asValue ty (loadBytes (sizeofValue ty) valuePointer (memory st)) = expectedValue ->
  (forall event, threadWakeEvent = Some event ->
     events st !! event = Some false /\ event ∉ waiters st valuePointer) ->
  (forall event, event ∈ waiters st valuePointer -> is_Some (events st !! event)) ->
  (forall s, whileParked env s = s) ->
  (forall s, afterTimeout env s = s) ->
  let event := match threadWakeEvent with
               | Some e => e
               | None => fresh (dom (events st))
               end in
  waitOnAddress env ty threadWakeEvent valuePointer expectedValue timeout st
  = Returned (Some 2, Some event)
      (set_events (fun ev => match threadWakeEvent with
                             | Some _ => ev
                             | None => <[event := false]> ev
                             end) st).
Proof.
  intros Hinv Hbound Hend Hfin Hpassed Hload Htls Hex Hpark Hrace event0.
  destruct (park_run ty threadWakeEvent valuePointer expectedValue st Hinv Hbound Hload)
    as (opened & Hopen & Hcheck).
  pose proof (heldBy_refs st valuePointer Hinv Hbound) as (Hrefs & Hlast & _).
  set (waitList := (heldBy st valuePointer).1) in *.
  set (refs := (heldBy st valuePointer).2) in *.
  set (event := tokenOf threadWakeEvent st) in *.
  assert (Hsame : event0 = event) by reflexivity.
  set (l := waiters st valuePointer) in *.
  rewrite (waitOnAddress_after_park env ty threadWakeEvent valuePointer expectedValue
             timeout st endTime waitList opened event _ Hend Hopen Hcheck).
  rewrite Hpark.
  assert (Hev : withToken threadWakeEvent st !! event = Some false).
  { apply withToken_token. intros e He. apply (Htls e He). }
  assert (Hout : event ∉ l).
  { subst event. destruct threadWakeEvent as [e|]; cbn.
    - apply (Htls e eq_refl).
    - intros Hin. apply Hex in Hin as [b Hb].
      apply (is_fresh (dom (events st))). apply elem_of_dom. eauto. }
  unfold bind at 1. unfold waitForEvent. cbn [events parkedOn clock]. rewrite Hev.
  destruct (Z.ltb_spec endTime UINT64_MAX); [ | lia].
  destruct (Z.leb_spec endTime (clock st)); [ | lia]. cbn [andb].
  unfold bind at 1. unfold interfere. rewrite Hrace.
  unfold bind at 1. unfold waitOnAddress_timedOut.
  unfold bind at 1. unfold deref. cbn [waitLists parkedOn]. rewrite lookup_insert_eq.
  cbn [wakeEvents numReferences]. fold l.
  rewrite bool_decide_eq_true_2 by (apply elem_of_app; right; apply list_elem_of_here).
  unfold bind at 1. unfold assign at 1. unfold ret at 1.
  rewrite eraseFirst_middle by exact Hout. rewrite app_nil_r.
  unfold bind at 1. erewrite closeWaitList_live; [ | cbn; apply lookup_insert_eq ].
  cbn [wakeEvents numReferences]. cbv zeta.
  rewrite Uptr_small by lia.
  clear Hcheck Hopen. subst event0.
  assert (Hevents : withToken threadWakeEvent st
                    = match threadWakeEvent with
                      | Some _ => events st
                      | None => <[event := false]> (events st)
                      end) by (subst event; destruct threadWakeEvent; reflexivity).
  rewrite Hevents. clear Hevents Hev Hout. unfold tokenOf in event. subst event.
  subst refs waitList l. unfold heldBy, waiters in *.
  pose proof Hinv as (Hlive & Htab & Hinj).
  destruct (addressToWaitListMap st !! valuePointer) as [p|] eqn:Ht.
  - destruct (Htab _ _ Ht) as [wl Hwl]. rewrite Hwl in *. cbn [fst snd] in *.
    destruct (Hlive _ _ Hwl) as [Hr _].
    destruct (Z.eqb_spec (numReferences wl + 1 - 1) 0); [lia | ].
    unfold ret. f_equal.
    clear Htls Hex.
    destruct st as [h t ev lg m c]. unfold parkedOn, set_waitLists, set_events, waiters.
    cbn in *. rewrite ?Ht, ?Hwl. f_equal.
    + rewrite !insert_insert_eq.
      replace (numReferences wl + 1 - 1) with (numReferences wl) by lia.
      apply insert_id. rewrite Hwl. destruct wl; reflexivity.
    + apply insert_id. exact Ht.
  - cbn [fst snd length Z.of_nat Z.sub Z.eqb Z.add Z.opp Z.pos_sub].
    unfold ret. f_equal. clear Htls Hex.
    assert (Hf : waitLists st !! fresh (dom (waitLists st)) = None)
      by (apply not_elem_of_dom, is_fresh).
    destruct st as [h t ev lg m c].
    unfold parkedOn, set_waitLists, set_events, set_addressToWaitListMap, waiters.
    cbn in *. rewrite ?Ht. f_equal.
    + rewrite !insert_insert_eq, delete_insert_eq. apply delete_id. exact Hf.
    + rewrite delete_insert_eq. apply delete_id. exact Ht.
Qed.

Lemma closeWaitList_effect st address waitList wl :
  tableInvariant st ->
  addressToWaitListMap st !! address = Some waitList ->
  waitLists st !! waitList = Some wl ->
  (numReferences wl = 1 -> wakeEvents wl = []) ->
  exists st',
    closeWaitList address waitList st = Returned tt st' /\
    tableInvariant st' /\
    waiters st' address = wakeEvents wl /\
    (forall a, a <> address -> waiters st' a = waiters st a) /\
    addressToWaitListMap st'
    = (if numReferences wl =? 1 then delete address (addressToWaitListMap st)
       else addressToWaitListMap st) /\
    events st' = events st /\ signalLog st' = signalLog st /\
    memory st' = memory st /\ clock st' = clock st.
Proof.
  intros Hinv Ht Hwl Hlast. pose proof Hinv as (Hlive & Htab & Hinj).
  destruct (Hlive _ _ Hwl) as [Hr _].
  rewrite (closeWaitList_live _ _ _ _ Hwl). cbn zeta. rewrite Uptr_small by lia.
  destruct (Z.eqb_spec (numReferences wl) 1) as [E|E].
  - rewrite E. cbn [Z.sub Z.eqb Z.add Z.opp Z.pos_sub]. rewrite (Hlast E).
    cbn [length Z.of_nat Z.eqb].
    eexists. split; [reflexivity | ].
    split; [eapply tableInvariant_close_last; eauto | ].
    split; [ | split; [ | split; [reflexivity | repeat split ] ] ].
    + unfold waiters. cbn. rewrite lookup_delete_eq. reflexivity.
    + intros a Ha. unfold waiters. cbn. rewrite lookup_delete_ne by congruence.
      destruct (addressToWaitListMap st !! a) as [q|] eqn:Hq; [ | reflexivity].
      rewrite lookup_delete_ne, lookup_insert_ne; [reflexivity | | ];
        intros <-; apply Ha; eapply Hinj; eauto.
  - destruct (Z.eqb_spec (numReferences wl - 1) 0); [lia | ].
    eexists. split; [reflexivity | ].
    split; [eapply tableInvariant_close_stay; eauto; lia | ].
    split; [ | split; [ | split; [reflexivity | repeat split ] ] ].
    + unfold waiters. cbn. rewrite Ht, lookup_insert_eq. reflexivity.
    + intros a Ha. unfold waiters. cbn.
      destruct (addressToWaitListMap st !! a) as [q|] eqn:Hq; [ | reflexivity].
      rewrite lookup_insert_ne; [reflexivity | ].
      intros <-; apply Ha; eapply Hinj; eauto.
Qed.

Lemma heldBy_bound st address :
  tableInvariant st ->
  (forall waitList wl, addressToWaitListMap st !! address = Some waitList ->
     waitLists st !! waitList = Some wl -> numReferences wl < UINT64_MAX - 1) ->
  (heldBy st address).2 < UINT64_MAX.
Proof.
  intros (Hlive & Htab & Hinj) Hbound. unfold heldBy.
  destruct (addressToWaitListMap st !! address) as [p|] eqn:Ht; cbn [snd]; [ | reflexivity].
  destruct (Htab _ _ Ht) as [wl Hwl]. rewrite Hwl.
  pose proof (Hbound _ _ eq_refl Hwl). lia.
Qed.

Lemma withToken_is_Some tls st e : is_Some (events st !! e) -> is_Some (withToken tls st !! e).
Proof.
  intros H. destruct tls; cbn; [exact H | ].
  rewrite lookup_insert. case_decide; eauto.
Qed.

(** A wake that reaches the token of the thread that parked last. *)
Lemma wakes_parked st address tls numToWake :
  tableInvariant st ->
  (forall waitList wl, addressToWaitListMap st !! address = Some waitList ->
     waitLists st !! waitList = Some wl -> numReferences wl < UINT64_MAX - 1) ->
  (forall e, tls = Some e -> events st !! e = Some false) ->
  (forall e, e ∈ waiters st address -> is_Some (events st !! e)) ->
  Z.of_nat (length (waiters st address)) < numToWake <= UINT32_MAX ->
  let waitList := (heldBy st address).1 in
  let event := tokenOf tls st in
  let parked := parkedOn address waitList (heldBy st address).2 event (withToken tls st) st in
  let woken := wakes address numToWake parked in
  wakeAddress address numToWake parked
  = Returned (Z.of_nat (length (waiters st address)) + 1) woken /\
  tableInvariant woken /\
  addressToWaitListMap woken !! address = Some waitList /\
  (exists wl, waitLists woken !! waitList = Some wl /\ wakeEvents wl = []) /\
  events woken !! event = Some true /\
  (forall e, e ∈ waiters st address -> events woken !! e = Some true) /\
  (forall e, e ∉ waiters st address -> e <> event ->
     events woken !! e = withToken tls st !! e) /\
  (forall a, a <> address -> waiters woken a = waiters st a) /\
  signalLog woken = signalLog st ++ waiters st address ++ [event] /\
  memory woken = memory st /\ clock woken = clock st.
Proof.
  intros Hinv Hbound Htls Hex Hcount waitList event parked woken.
  set (l := waiters st address) in *.
  assert (Hbound0 : forall waitList wl, addressToWaitListMap st !! address = Some waitList ->
            waitLists st !! waitList = Some wl -> numReferences wl < UINT64_MAX).
  { intros p wl Hp Hwl. pose proof (Hbound p wl Hp Hwl). lia. }
  assert (HinvP : tableInvariant parked) by (apply parkedOn_invariant; assumption).
  assert (HwP : waiters parked address = l ++ [event]) by apply parkedOn_waiters.
  assert (HtP : addressToWaitListMap parked !! address = Some waitList)
    by (cbn; apply lookup_insert_eq).
  assert (HboundP : forall p wl, addressToWaitListMap parked !! address = Some p ->
            waitLists parked !! p = Some wl -> numReferences wl < UINT64_MAX).
  { intros p wl Hp Hwl. rewrite HtP in Hp. injection Hp as <-.
    cbn in Hwl. rewrite lookup_insert_eq in Hwl. injection Hwl as <-. cbn.
    apply heldBy_bound; assumption. }
  assert (HexP : forall e, e ∈ waiters parked address -> is_Some (events parked !! e)).
  { intros e He. rewrite HwP in He. cbn [events parkedOn parked].
    apply elem_of_app in He as [He|He].
    - apply withToken_is_Some, Hex, He.
    - apply list_elem_of_singleton in He as ->. subst event.
      rewrite withToken_token by exact Htls. eauto. }
  assert (HU : UINT32_MAX = 4294967295) by reflexivity.
  pose proof (wakeAddress_run parked address numToWake HinvP HboundP HexP ltac:(lia)) as Hrun.
  cbv zeta in Hrun. rewrite HwP in Hrun.
  assert (Hlen : Z.of_nat (length (l ++ [event])) = Z.of_nat (length l) + 1)
    by (rewrite length_app; cbn; lia).
  rewrite Hlen in Hrun.
  assert (Hn : numWoken numToWake (Z.of_nat (length l) + 1) = Z.of_nat (length l) + 1).
  { rewrite numWoken_min by lia. destruct (numToWake =? UINT32_MAX); lia. }
  rewrite Hn in Hrun.
  destruct (Z.gtb_spec (Z.of_nat (length l) + 1) UINT32_MAX) as [|_]; [lia | ].
  rewrite U32_small in Hrun by lia.
  assert (Hwoken : wakeAddress address numToWake parked
                   = Returned (Z.of_nat (length l) + 1) woken).
  { subst woken. unfold wakes. rewrite Hrun. reflexivity. }
  split; [exact Hwoken | ].
  pose proof (wakeAddress_state_facts parked address (Z.to_nat (Z.of_nat (length l) + 1)) HinvP)
    as Hfacts.
  cbv zeta in Hfacts. rewrite HwP in Hfacts.
  assert (Hsame : woken = ltac:(match type of Hrun with _ = Returned _ ?s => exact s end)).
  { subst woken. unfold wakes. rewrite Hrun. reflexivity. }
  rewrite <- Hsame in Hfacts. clear Hsame Hrun.
  assert (Htake : take (Z.to_nat (Z.of_nat (length l) + 1)) (l ++ [event]) = l ++ [event]).
  { apply take_ge. rewrite length_app. cbn. lia. }
  assert (Hdrop : drop (Z.to_nat (Z.of_nat (length l) + 1)) (l ++ [event]) = []).
  { apply drop_ge. rewrite length_app. cbn. lia. }
  rewrite Htake, Hdrop in Hfacts.
  destruct Hfacts as (Hlog & Hev & Hw & Ht & Hrefs & _ & Hmem & Hclock & HinvW).
  split; [exact HinvW | ].
  split; [rewrite Ht; exact HtP | ].
  split.
  { destruct (Hrefs waitList _ ltac:(cbn; apply lookup_insert_eq)) as (wl' & Hwl' & _).
    exists wl'. split; [exact Hwl' | ].
    rewrite <- Hw. symmetry. eapply waiters_live; [rewrite Ht; exact HtP | exact Hwl']. }
  split.
  { rewrite Hev. rewrite decide_True; [reflexivity | ].
    apply elem_of_app. right. apply list_elem_of_here. }
  split.
  { intros e He. rewrite Hev. rewrite decide_True; [reflexivity | ].
    apply elem_of_app. left. exact He. }
  split.
  { intros e He Hne. rewrite Hev. rewrite decide_False; [reflexivity | ].
    intros H. apply elem_of_app in H as [H|H]; [contradiction | ].
    apply list_elem_of_singleton in H. contradiction. }
  split.
  { intros a Ha. rewrite <- (parkedOn_waiters_other st address event (withToken tls st) a)
      by assumption.
    fold waitList. fold parked.
    unfold waiters. rewrite Ht.
    destruct (addressToWaitListMap parked !! a) as [q|] eqn:Hq; [ | reflexivity].
    destruct HinvP as (_ & HtabP & HinjP).
    destruct (HtabP _ _ Hq) as [wlq Hwlq].
    destruct (Hrefs q wlq Hwlq) as (wl' & Hwl' & _ & Hother).
    rewrite Hwl', Hwlq. rewrite Hother; [reflexivity | ].
    intros H. apply Ha. eapply HinjP; eauto. }
  split; [rewrite Hlog; reflexivity | ].
  split; [rewrite Hmem; reflexivity | rewrite Hclock; reflexivity].
Qed.

Lemma tableInvariant_set_events f st : tableInvariant st -> tableInvariant (set_events f st).
Proof. intros H. exact H. Qed.

(** X9.  A wakeAddress of more threads than wait, run by another thread
    while the caller is parked: wakeAddress returns the number of the
    earlier waiters plus one, the call of waitOnAddress returns 0, the
    signals went to the earlier waiters in their order and to the caller
    last, the caller's event is reset, and the wait list of the address is
    empty afterwards. *)
Theorem wake_after_park_returns_0
    (env : Interference) (ty : ValueType) (threadWakeEvent : option Z)
    (valuePointer expectedValue : Z) (timeout : F64) (st : Runtime) (endTime numToWake : Z) :
  tableInvariant st ->
  (forall waitList wl, addressToWaitListMap st !! valuePointer = Some waitList ->
     waitLists st !! waitList = Some wl -> numReferences wl < UINT64_MAX - 1) ->
  getEndTimeFromTimeout (clock st) timeout = Value endTime ->
  asValue ty (loadBytes (sizeofValue ty) valuePointer (memory st)) = expectedValue ->
  (forall event, threadWakeEvent = Some event -> events st !! event = Some false) ->
  (forall event, event ∈ waiters st valuePointer -> is_Some (events st !! event)) ->
  Z.of_nat (length (waiters st valuePointer)) < numToWake <= UINT32_MAX ->
  (forall s, whileParked env s = wakes valuePointer numToWake s) ->
  let l := waiters st valuePointer in
  let event := match threadWakeEvent with
               | Some e => e
               | None => fresh (dom (events st))
               end in
  exists waitList opened parked st',
    openWaitList valuePointer st = Returned waitList opened /\
    waitOnAddress_check ty threadWakeEvent valuePointer expectedValue waitList opened
      = Returned (Some event) parked /\
    waiters parked valuePointer = l ++ [event] /\
    wakeAddress valuePointer numToWake parked
      = Returned (Z.of_nat (length l) + 1) (whileParked env parked) /\
    waitOnAddress env ty threadWakeEvent valuePointer expectedValue timeout st
      = Returned (Some 0, Some event) st' /\
    signalLog st' = signalLog st ++ l ++ [event] /\
    events st' !! event = Some false /\
    (forall e, e ∈ l -> e <> event -> events st' !! e = Some true) /\
    waiters st' valuePointer = [] /\
    (forall address, address <> valuePointer -> waiters st' address = waiters st address) /\
    memory st' = memory st /\ clock st' = clock st /\
    tableInvariant st'.
Proof.
  intros Hinv Hbound Hend Hload Htls Hex Hcount Henv l event.
  assert (Hbound0 : forall waitList wl, addressToWaitListMap st !! valuePointer = Some waitList ->
            waitLists st !! waitList = Some wl -> numReferences wl < UINT64_MAX).
  { intros p wl Hp Hwl. pose proof (Hbound p wl Hp Hwl). lia. }
  destruct (park_run ty threadWakeEvent valuePointer expectedValue st Hinv Hbound0 Hload)
    as (opened & Hopen & Hcheck).
  pose proof (wakes_parked st valuePointer threadWakeEvent numToWake
                Hinv Hbound Htls Hex Hcount) as Hwake.
  cbv zeta in Hwake.
  change (tokenOf threadWakeEvent st) with event in *.
  set (waitList := (heldBy st valuePointer).1) in *.
  set (parked := parkedOn valuePointer waitList (heldBy st valuePointer).2 event
                   (withToken threadWakeEvent st) st) in *.
  set (woken := wakes valuePointer numToWake parked) in *.
  destruct Hwake as (Hwoken & HinvW & HtW & (wlW & HwlW & HnilW) & HevW & HallW & _ &
                     HotherW & HlogW & HmemW & HclockW).
  destruct (closeWaitList_effect (set_events (insert event false) woken) valuePointer
              waitList wlW) as (st' & Hclose & Hinv' & Hw' & Hother' & _ & Hev' & Hlog' &
                                Hmem' & Hclock');
    [ apply tableInvariant_set_events; exact HinvW | exact HtW | exact HwlW
    | intros _; exact HnilW | ].
  exists waitList, opened, parked, st'.
  split; [exact Hopen | ]. split; [exact Hcheck | ].
  split; [apply parkedOn_waiters | ].
  split; [rewrite Henv; exact Hwoken | ].
  split.
  { rewrite (waitOnAddress_after_park env ty threadWakeEvent valuePointer expectedValue
               timeout st endTime waitList opened event parked Hend Hopen Hcheck).
    rewrite Henv. fold woken.
    unfold bind at 1. unfold waitForEvent. rewrite HevW.
    unfold bind at 1. rewrite Hclose. reflexivity. }
  split; [rewrite Hlog'; exact HlogW | ].
  split; [rewrite Hev'; cbn; apply lookup_insert_eq | ].
  split.
  { intros e He Hne. rewrite Hev'. cbn. rewrite lookup_insert_ne by congruence.
    apply HallW, He. }
  split; [rewrite Hw'; exact HnilW | ].
  split; [intros a Ha; rewrite Hother' by exact Ha; apply HotherW, Ha | ].
  split; [rewrite Hmem'; exact HmemW | ].
  split; [rewrite Hclock'; exact HclockW | exact Hinv'].
Qed.

(** X10.  A wakeAddress of at most as many threads as waited before the
    caller, run while the caller is parked, wakes the oldest waiters and
    not the caller: it returns its count, signals the first numToWake
    tokens in their order, and leaves the caller's token unsignaled at the
    back of the remaining ones, so the call of waitOnAddress does not
    return. *)
Theorem wake_serves_earlier_waiters_first
    (env : Interference) (ty : ValueType) (threadWakeEvent : option Z)
    (valuePointer expectedValue : Z) (timeout : F64) (st : Runtime) (endTime numToWake : Z) :
  tableInvariant st ->
  (forall waitList wl, addressToWaitListMap st !! valuePointer = Some waitList ->
     waitLists st !! waitList = Some wl -> numReferences wl < UINT64_MAX - 1) ->
  getEndTimeFromTimeout (clock st) timeout = Value endTime ->
  ~ (endTime < UINT64_MAX /\ endTime <= clock st) ->
  asValue ty (loadBytes (sizeofValue ty) valuePointer (memory st)) = expectedValue ->
  (forall event, threadWakeEvent = Some event ->
     events st !! event = Some false /\ event ∉ waiters st valuePointer) ->
  (forall event, event ∈ waiters st valuePointer -> is_Some (events st !! event)) ->
  1 <= numToWake <= Z.of_nat (length (waiters st valuePointer)) ->
  numToWake < UINT32_MAX ->
  (forall s, whileParked env s = wakes valuePointer numToWake s) ->
  let l := waiters st valuePointer in
  let event := match threadWakeEvent with
               | Some e => e
               | None => fresh (dom (events st))
               end in
  exists waitList opened parked,
    openWaitList valuePointer st = Returned waitList opened /\
    waitOnAddress_check ty threadWakeEvent valuePointer expectedValue waitList opened
      = Returned (Some event) parked /\
    wakeAddress valuePointer numToWake parked
      = Returned numToWake (whileParked env parked) /\
    waitOnAddress env ty threadWakeEvent valuePointer expectedValue timeout st
      = Returned (None, Some event) (whileParked env parked) /\
    signalLog (whileParked env parked) = signalLog st ++ take (Z.to_nat numToWake) l /\
    waiters (whileParked env parked) valuePointer = drop (Z.to_nat numToWake) l ++ [event] /\
    events (whileParked env parked) !! event = Some false.
Proof.
  intros Hinv Hbound Hend Hnot Hload Htls Hex Hcount Hsome Henv l event.
  subst l. set (l := waiters st valuePointer) in *.
  assert (Hbound0 : forall waitList wl, addressToWaitListMap st !! valuePointer = Some waitList ->
            waitLists st !! waitList = Some wl -> numReferences wl < UINT64_MAX).
  { intros p wl Hp Hwl. pose proof (Hbound p wl Hp Hwl). lia. }
  assert (Htls0 : forall e, threadWakeEvent = Some e -> events st !! e = Some false).
  { intros e He. apply (Htls e He). }
  destruct (park_run ty threadWakeEvent valuePointer expectedValue st Hinv Hbound0 Hload)
    as (opened & Hopen & Hcheck).
  change (tokenOf threadWakeEvent st) with event in *.
  set (waitList := (heldBy st valuePointer).1) in *.
  set (parked := parkedOn valuePointer waitList (heldBy st valuePointer).2 event
                   (withToken threadWakeEvent st) st) in *.
  assert (Hout : event ∉ l).
  { subst event. destruct threadWakeEvent as [e|]; cbn.
    - apply (Htls e eq_refl).
    - intros Hin. apply Hex in Hin as [b Hb].
      apply (is_fresh (dom (events st))). apply elem_of_dom. eauto. }
  assert (HinvP : tableInvariant parked) by (apply parkedOn_invariant; assumption).
  assert (HwP : waiters parked valuePointer = l ++ [event]) by apply parkedOn_waiters.
  assert (HtP : addressToWaitListMap parked !! valuePointer = Some waitList)
    by (cbn; apply lookup_insert_eq).
  assert (HboundP : forall p wl, addressToWaitListMap parked !! valuePointer = Some p ->
            waitLists parked !! p = Some wl -> numReferences wl < UINT64_MAX).
  { intros p wl Hp Hwl. rewrite HtP in Hp. injection Hp as <-.
    cbn in Hwl. rewrite lookup_insert_eq in Hwl. injection Hwl as <-. cbn.
    apply heldBy_bound; assumption. }
  assert (HevP : events parked !! event = Some false).
  { cbn [events parkedOn parked]. subst event. apply withToken_token. exact Htls0. }
  assert (HexP : forall e, e ∈ waiters parked valuePointer -> is_Some (events parked !! e)).
  { intros e He. rewrite HwP in He.
    apply elem_of_app in He as [He|He].
    - cbn [events parkedOn parked]. apply withToken_is_Some, Hex, He.
    - apply list_elem_of_singleton in He as ->. rewrite HevP. eauto. }
  assert (HU : UINT32_MAX = 4294967295) by reflexivity.
  pose proof (wakeAddress_run parked valuePointer numToWake HinvP HboundP HexP ltac:(lia))
    as Hrun.
  cbv zeta in Hrun. rewrite HwP in Hrun.
  assert (Hlen : Z.of_nat (length (l ++ [event])) = Z.of_nat (length l) + 1)
    by (rewrite length_app; cbn; lia).
  rewrite Hlen in Hrun.
  assert (Hn : numWoken numToWake (Z.of_nat (length l) + 1) = numToWake).
  { rewrite numWoken_min by lia. destruct (Z.eqb_spec numToWake UINT32_MAX); lia. }
  rewrite Hn in Hrun.
  destruct (Z.gtb_spec numToWake UINT32_MAX) as [|_]; [lia | ].
  rewrite U32_small in Hrun by lia.
  pose proof (wakeAddress_state_facts parked valuePointer (Z.to_nat numToWake) HinvP)
    as Hfacts.
  cbv zeta in Hfacts. rewrite HwP in Hfacts.
  assert (Hsame : whileParked env parked
                  = ltac:(match type of Hrun with _ = Returned _ ?s => exact s end)).
  { rewrite Henv. unfold wakes. rewrite Hrun. reflexivity. }
  rewrite <- Hsame in Hfacts, Hrun. clear Hsame.
  set (woken := whileParked env parked) in *.
  assert (Hk : (Z.to_nat numToWake <= length l)%nat) by lia.
  rewrite take_app_le, drop_app_le in Hfacts by exact Hk.
  destruct Hfacts as (Hlog & Hev & Hw & _ & _ & _ & _ & Hclock & _).
  exists waitList, opened, parked.
  split; [exact Hopen | ]. split; [exact Hcheck | ]. split; [exact Hrun | ].
  assert (HevW : events woken !! event = Some false).
  { rewrite Hev. rewrite decide_False; [exact HevP | ].
    intros Hin. apply Hout. apply elem_of_take in Hin as (i & Hi & _).
    eapply list_elem_of_lookup_2, Hi. }
  split.
  { rewrite (waitOnAddress_after_park env ty threadWakeEvent valuePointer expectedValue
               timeout st endTime waitList opened event parked Hend Hopen Hcheck).
    fold woken. unfold bind at 1. unfold waitForEvent. rewrite HevW, Hclock.
    change (clock parked) with (clock st).
    destruct (Z.ltb_spec endTime UINT64_MAX); destruct (Z.leb_spec endTime (clock st));
      cbn [andb]; try reflexivity.
    exfalso. apply Hnot. split; assumption. }
  split; [exact Hlog | ]. split; [exact Hw | exact HevW].
Qed.

(** X11.  A wake between the timeout of the wait and the re-lock of the
    wait list: the wait has timed out, but wakeAddress, run by another
    thread before the caller locks the wait list again, took the caller's
    token and counted the caller; waitOnAddress then returns 0, not 2, and
    resets its event. *)
Theorem wake_between_timeout_and_relock
    (env : Interference) (ty : ValueType) (threadWakeEvent : option Z)
    (valuePointer expectedValue : Z) (timeout : F64) (st : Runtime) (endTime numToWake : Z) :
  tableInvariant st ->
  (forall waitList wl, addressToWaitListMap st !! valuePointer = Some waitList ->
     waitLists st !! waitList = Some wl -> numReferences wl < UINT64_MAX - 1) ->
  getEndTimeFromTimeout (clock st) timeout = Value endTime ->
  endTime < UINT64_MAX -> endTime <= clock st ->
  asValue ty (loadBytes (sizeofValue ty) valuePointer (memory st)) = expectedValue ->
  (forall event, threadWakeEvent = Some event -> events st !! event = Some false) ->
  (forall event, event ∈ waiters st valuePointer -> is_Some (events st !! event)) ->
  Z.of_nat (length (waiters st valuePointer)) < numToWake <= UINT32_MAX ->
  (forall s, whileParked env s = s) ->
  (forall s, afterTimeout env s = wakes valuePointer numToWake s) ->
  let l := waiters st valuePointer in
  let event := match threadWakeEvent with
               | Some e => e
               | None => fresh (dom (events st))
               end in
  exists waitList opened parked st',
    openWaitList valuePointer st = Returned waitList opened /\
    waitOnAddress_check ty threadWakeEvent valuePointer expectedValue waitList opened
      = Returned (Some event) parked /\
    waitForEvent event endTime parked = Returned (Some false) parked /\
    wakeAddress valuePointer numToWake parked
      = Returned (Z.of_nat (length l) + 1) (afterTimeout env parked) /\
    waitOnAddress env ty threadWakeEvent valuePointer expectedValue timeout st
      = Returned (Some 0, Some event) st' /\
    signalLog st' = signalLog st ++ l ++ [event] /\
    events st' !! event = Some false /\
    waiters st' valuePointer = [] /\
    (forall address, address <> valuePointer -> waiters st' address = waiters st address) /\
    memory st' = memory st /\ clock st' = clock st /\
    tableInvariant st'.
Proof.
  intros Hinv Hbound Hend Hfin Hpassed Hload Htls Hex Hcount Hpark Hrace l event.
  subst l. set (l := waiters st valuePointer) in *.
  assert (Hbound0 : forall waitList wl, addressToWaitListMap st !! valuePointer = Some waitList ->
            waitLists st !! waitList = Some wl -> numReferences wl < UINT64_MAX).
  { intros p wl Hp Hwl. pose proof (Hbound p wl Hp Hwl). lia. }
  destruct (park_run ty threadWakeEvent valuePointer expectedValue st Hinv Hbound0 Hload)
    as (opened & Hopen & Hcheck).
  pose proof (wakes_parked st valuePointer threadWakeEvent numToWake
                Hinv Hbound Htls Hex Hcount) as Hwake.
  cbv zeta in Hwake.
  change (tokenOf threadWakeEvent st) with event in *.
  set (waitList := (heldBy st valuePointer).1) in *.
  set (parked := parkedOn valuePointer waitList (heldBy st valuePointer).2 event
                   (withToken threadWakeEvent st) st) in *.
  set (woken := wakes valuePointer numToWake parked) in *.
  destruct Hwake as (Hwoken & HinvW & HtW & (wlW & HwlW & HnilW) & HevW & HallW & _ &
                     HotherW & HlogW & HmemW & HclockW).
  destruct (closeWaitList_effect (set_events (insert event false) woken) valuePointer
              waitList wlW) as (st' & Hclose & Hinv' & Hw' & Hother' & _ & Hev' & Hlog' &
                                Hmem' & Hclock');
    [ apply tableInvariant_set_events; exact HinvW | exact HtW | exact HwlW
    | intros _; exact HnilW | ].
  assert (HevP : events parked !! event = Some false).
  { cbn [events parkedOn parked]. subst event. apply withToken_token. exact Htls. }
  assert (Hwait : waitForEvent event endTime parked = Returned (Some false) parked).
  { unfold waitForEvent. rewrite HevP. change (clock parked) with (clock st).
    destruct (Z.ltb_spec endTime UINT64_MAX); [ | lia].
    destruct (Z.leb_spec endTime (clock st)); [ | lia]. reflexivity. }
  exists waitList, opened, parked, st'.
  split; [exact Hopen | ]. split; [exact Hcheck | ]. split; [exact Hwait | ].
  split; [rewrite Hrace; exact Hwoken | ].
  split.
  { rewrite (waitOnAddress_after_park env ty threadWakeEvent valuePointer expectedValue
               timeout st endTime waitList opened event parked Hend Hopen Hcheck).
    rewrite Hpark. unfold bind at 1. rewrite Hwait.
    unfold bind at 1. unfold interfere. rewrite Hrace. fold woken.
    unfold bind at 1. unfold waitOnAddress_timedOut.
    unfold bind at 1. unfold deref. rewrite HwlW, HnilW.
    rewrite bool_decide_eq_false_2 by apply not_elem_of_nil.
    unfold bind at 1. unfold getMonotonicClock.
    unfold bind at 1. unfold waitForEvent. rewrite HevW.
    unfold bind at 1. unfold errorUnless. unfold ret at 1.
    unfold bind at 1. rewrite Hclose. reflexivity. }
  split; [rewrite Hlog'; exact HlogW | ].
  split; [rewrite Hev'; cbn; apply lookup_insert_eq | ].
  split; [rewrite Hw'; exact HnilW | ].
  split; [intros a Ha; rewrite Hother' by exact Ha; apply HotherW, Ha | ].
  split; [rewrite Hmem'; exact HmemW | ].
  split; [rewrite Hclock'; exact HclockW | exact Hinv'].
Qed.

Lemma eraseFirst_split event l :
  event ∈ l ->
  exists l1 l2, l = l1 ++ (event :: l2) /\ (event ∉ l1) /\ eraseFirst event l = l1 ++ l2.
Proof.
  intros Hin. apply list_elem_of_split_l in Hin as (l1 & l2 & -> & Hout).
  exists l1, l2. split; [reflexivity | ]. split; [exact Hout | ].
  apply eraseFirst_middle, Hout.
Qed.

(** X12.  The re-check of waitOnAddress after a timeout.  If the thread's
    event is still on the wait list, its first occurrence (and nothing
    else) is erased and the wait timed out; if it is not, a signaled event
    is reset and the wait did not time out, and an event that is not
    signaled is a fatal error (errorUnless). *)
Theorem waitOnAddress_timedOut_cases (waitList threadWakeEvent : Z) (s : Runtime) :
  match waitLists s !! waitList with
  | None => waitOnAddress_timedOut waitList threadWakeEvent s = Undefined
  | Some wl =>
      (threadWakeEvent ∈ wakeEvents wl ->
       exists before after,
         wakeEvents wl = before ++ (threadWakeEvent :: after) /\
         (threadWakeEvent ∉ before) /\
         waitOnAddress_timedOut waitList threadWakeEvent s
         = Returned true
             (set_waitLists
                (insert waitList (mkWaitList (before ++ after) (numReferences wl))) s)) /\
      (threadWakeEvent ∉ wakeEvents wl ->
       waitOnAddress_timedOut waitList threadWakeEvent s
       = match events s !! threadWakeEvent with
         | Some true => Returned false (set_events (insert threadWakeEvent false) s)
         | Some false => Fatal
         | None => Undefined
         end)
  end.
Proof.
  assert (Hstep : forall wl, waitLists s !! waitList = Some wl ->
            waitOnAddress_timedOut waitList threadWakeEvent s
            = (if bool_decide (threadWakeEvent ∈ wakeEvents wl) then
                 assign waitList (mkWaitList (eraseFirst threadWakeEvent (wakeEvents wl))
                                             (numReferences wl)) ;;;
                 ret true
               else
                 now <- getMonotonicClock ;;
                 r <- waitForEvent threadWakeEvent now ;;
                 errorUnless (match r with Some true => true | _ => false end) ;;;
                 ret false) s).
  { intros wl Hwl. unfold waitOnAddress_timedOut. unfold bind at 1. unfold deref.
    rewrite Hwl. reflexivity. }
  destruct (waitLists s !! waitList) as [wl|] eqn:Hwl.
  2:{ unfold waitOnAddress_timedOut. unfold bind at 1. unfold deref. rewrite Hwl.
      reflexivity. }
  rewrite (Hstep wl eq_refl). clear Hstep.
  split.
  - intros Hin. destruct (eraseFirst_split _ _ Hin) as (l1 & l2 & Hl & Hout & He).
    exists l1, l2. split; [exact Hl | ]. split; [exact Hout | ].
    rewrite bool_decide_eq_true_2 by exact Hin. rewrite He. reflexivity.
  - intros Hout. rewrite bool_decide_eq_false_2 by exact Hout.
    unfold bind at 1. unfold getMonotonicClock.
    unfold bind at 1. unfold waitForEvent.
    destruct (events s !! threadWakeEvent) as [[|]|]; [reflexivity | | reflexivity].
    destruct (_ && _); reflexivity.
Qed.

(** X4.  A wait that starts after a store of another value does not
    park: atomicStore of a value different from the expected one followed
    by waitOnAddress returns 1, creates no wake event, and ends in the
    state the store left. *)
Theorem wait_after_store_does_not_park
    (env : Interference) (ty : ValueType) (threadWakeEvent : option Z)
    (valuePointer newValue expectedValue : Z) (timeout : F64) (st : Runtime) (endTime : Z) :
  tableInvariant st ->
  (forall waitList wl, addressToWaitListMap st !! valuePointer = Some waitList ->
     waitLists st !! waitList = Some wl -> numReferences wl < UINT64_MAX) ->
  getEndTimeFromTimeout (clock st) timeout = Value endTime ->
  asValue ty newValue <> expectedValue ->
  exists stored,
    atomicStore ty valuePointer newValue st = Returned tt stored /\
    waitOnAddress env ty threadWakeEvent valuePointer expectedValue timeout stored
    = Returned (Some 1, threadWakeEvent) stored /\
    (atomicStore ty valuePointer newValue ;;;
     waitOnAddress env ty threadWakeEvent valuePointer expectedValue timeout) st
    = Returned (Some 1, threadWakeEvent) stored.
Proof.
  intros Hinv Hbound Hend Hne.
  eexists. split; [reflexivity | ].
  set (stored := mkRuntime _ _ _ _ _ _).
  assert (Hinv' : tableInvariant stored) by exact Hinv.
  assert (Hwait : waitOnAddress env ty threadWakeEvent valuePointer expectedValue timeout stored
                  = Returned (Some 1, threadWakeEvent) stored).
  { destruct (open_close_restores stored valuePointer Hinv' Hbound)
      as (waitList & st1 & Hopen & Hclose & _).
    destruct (openWaitList_quiet _ _ _ _ Hopen) as (_ & Hmem & _ & _).
    unfold waitOnAddress. unfold bind at 1. unfold getMonotonicClock.
    unfold bind at 1. change (clock stored) with (clock st). rewrite Hend. unfold liftChecked.
    unfold bind at 1. rewrite Hopen.
    unfold bind at 1. unfold waitOnAddress_check. unfold bind at 1. unfold atomicLoad.
    rewrite Hmem. subst stored. cbn [memory].
    rewrite loadBytes_storeBytes, asValue_mod.
    destruct (Z.eqb_spec (asValue ty newValue) expectedValue); [contradiction | ].
    cbn [negb]. unfold ret at 1.
    unfold bind at 1. rewrite Hclose. reflexivity. }
  split; [exact Hwait | ].
  unfold bind at 1. unfold atomicStore. fold stored. exact Hwait.
Qed.

(** X13.  closeWaitList's re-check can read a deleted wait list.  The
    holder of the only reference decrements the count to 0; before it
    takes the table mutex another thread opens the wait list (the count
    is 1 again and the state is the one before the decrement) and closes
    it, which deletes the wait list and its table entry; the re-check of
    the first thread then reads the count of a wait list that no longer
    exists. *)
Theorem closeWaitList_recheck_reads_destroyed_list
    (st : Runtime) (address waitList : Z) (wl : WaitList) :
  tableInvariant st ->
  addressToWaitListMap st !! address = Some waitList ->
  waitLists st !! waitList = Some wl ->
  numReferences wl = 1 ->
  wakeEvents wl = [] ->
  exists decremented destroyed,
    closeWaitList_decrement waitList st = Returned 0 decremented /\
    openWaitList address decremented = Returned waitList st /\
    closeWaitList address waitList st = Returned tt destroyed /\
    waitLists destroyed !! waitList = None /\
    addressToWaitListMap destroyed !! address = None /\
    closeWaitList_locked address waitList destroyed = Undefined.
Proof.
  intros Hinv Ht Hwl Hone Hnil.
  assert (Hshape : wl = mkWaitList [] 1) by (destruct wl; cbn in *; congruence).
  subst wl.
  eexists _, _. split; [ | split; [ | split; [ | split; [ | split ] ] ] ].
  - rewrite (closeWaitList_decrement_live _ _ _ Hwl). reflexivity.
  - erewrite openWaitList_existing; [ | exact Ht | cbn; apply lookup_insert_eq ].
    cbn. f_equal. destruct st as [h t e l m c]. unfold set_waitLists. cbn in *.
    f_equal. rewrite insert_insert_eq. apply insert_id. exact Hwl.
  - rewrite (closeWaitList_live _ _ _ _ Hwl). reflexivity.
  - cbn. apply lookup_delete_eq.
  - cbn. apply lookup_delete_eq.
  - unfold closeWaitList_locked, bind, deref. cbn. rewrite lookup_delete_eq. reflexivity.
Qed.

(* --------------------------------------------------------------------- *)
(** ** getFunctionFromTable, launchThread and threadFunc *)

(** X14.  getFunctionFromTable, for an index that is a U32: it throws
    undefinedTableElement exactly when elementIndex times the size of an
    element is not below the table's endOffset; it throws
    indirectCallSignatureMismatch exactly when the index is in bounds and
    the type stored for the element is not the expected one; it returns
    the element's function exactly when the index is in bounds and the
    types agree; it changes nothing, and throws no other exception and no
    fatal error. *)
Theorem getFunctionFromTable_checks
    (table : TableInstance) (expectedType : FunctionType) (elementIndex : Z) (p : Process) :
  0 <= elementIndex <= UINT32_MAX ->
  let inBounds := elementIndex * sizeof_FunctionElement < table_endOffset table in
  let stored := table_baseAddress table !! Z.to_nat elementIndex in
  (forall p', getFunctionFromTable table expectedType elementIndex p
              = Raised undefinedTableElementType p' <-> ~ inBounds /\ p' = p) /\
  (forall p', getFunctionFromTable table expectedType elementIndex p
              = Raised indirectCallSignatureMismatchType p'
              <-> inBounds /\ p' = p /\
                  exists element, stored = Some element /\ fe_type element <> expectedType) /\
  (forall function p', getFunctionFromTable table expectedType elementIndex p
                       = Done function p'
                       <-> inBounds /\ p' = p /\
                           elements table !! Z.to_nat elementIndex = Some function /\
                           exists element, stored = Some element /\
                                           fe_type element = expectedType) /\
  (forall type p', getFunctionFromTable table expectedType elementIndex p
                   <> Raised (Exception_of type) p') /\
  (forall message, getFunctionFromTable table expectedType elementIndex p <> Aborted message).
Proof.
  intros Hidx inBounds stored. subst inBounds stored.
  unfold getFunctionFromTable, sizeof_FunctionElement.
  assert (HU : Uptr (elementIndex * 16) = elementIndex * 16).
  { apply Uptr_small. unfold UINT32_MAX, UINT64_MAX in *. lia. }
  rewrite HU. clear HU.
  destruct (Z.leb_spec (table_endOffset table) (elementIndex * 16)) as [Hout|Hin].
  { unfold raise.
    split; [ | split; [ | split; [ | split ] ] ]; try (intros; discriminate).
    - intros p'. split; [intros [= <-]; split; [lia | reflexivity] | intros [_ ->]; reflexivity].
    - intros p'. split; [discriminate | intros (? & _); lia].
    - intros f p'. split; [discriminate | intros (? & _); lia]. }
  destruct (table_baseAddress table !! Z.to_nat elementIndex) as [element|].
  2:{ split; [ | split; [ | split; [ | split ] ] ]; try (intros; discriminate).
      - intros p'. split; [discriminate | intros [? _]; lia].
      - intros p'. split; [discriminate | intros (_ & _ & ? & ? & _); discriminate].
      - intros f p'. split; [discriminate | intros (_ & _ & _ & ? & ? & _); discriminate]. }
  case_bool_decide as Htype; cbn [negb].
  - destruct (elements table !! Z.to_nat elementIndex) as [object|].
    + unfold pure.
      split; [ | split; [ | split; [ | split ] ] ]; try (intros; discriminate).
      * intros p'. split; [discriminate | intros [? _]; lia].
      * intros p'. split; [discriminate | ].
        intros (_ & _ & e & [= <-] & ?). contradiction.
      * intros f p'. split.
        -- intros [= <- <-]. split; [assumption | ]. split; [reflexivity | ].
           split; [reflexivity | eauto].
        -- intros (_ & -> & [= ->] & _). reflexivity.
    + split; [ | split; [ | split; [ | split ] ] ]; try (intros; discriminate).
      * intros p'. split; [discriminate | intros [? _]; lia].
      * intros p'. split; [discriminate | ].
        intros (_ & _ & e & [= <-] & ?). contradiction.
      * intros f p'. split; [discriminate | intros (_ & _ & ? & _); discriminate].
  - unfold raise.
    split; [ | split; [ | split; [ | split ] ] ]; try (intros; discriminate).
    + intros p'. split; [discriminate | intros [? _]; lia].
    + intros p'. split.
      * intros [= <-]. split; [assumption | ]. split; [reflexivity | eauto].
      * intros (_ & -> & _). reflexivity.
    + intros f p'. split; [discriminate | ].
      intros (_ & _ & _ & e & [= <-] & ?). contradiction.
Qed.

Lemma getFunctionFromTable_pure table expectedType elementIndex p :
  getFunctionFromTable table expectedType elementIndex p
  = match getFunctionFromTable table expectedType elementIndex p with
    | Done function _ => Done function p
    | Raised e _ => Raised e p
    | r => r
    end.
Proof.
  unfold getFunctionFromTable.
  destruct (_ <=? _); [reflexivity | ].
  destruct (_ !! _); [ | reflexivity].
  destruct (negb _); [reflexivity | ].
  destruct (_ !! _); reflexivity.
Qed.

Lemma getFunctionFromTable_state table expectedType elementIndex p q :
  getFunctionFromTable table expectedType elementIndex q
  = match getFunctionFromTable table expectedType elementIndex p with
    | Done function _ => Done function q
    | Raised e _ => Raised e q
    | r => r
    end.
Proof.
  unfold getFunctionFromTable.
  destruct (_ <=? _); [reflexivity | ].
  destruct (_ !! _); [ | reflexivity].
  destruct (negb _); [reflexivity | ].
  destruct (_ !! _); reflexivity.
Qed.

Lemma launchThread_run _context entryFunctionIndex argument errorFunctionIndex tableId p :
  let defaultTable := getTableFromRuntimeData _context tableId in
  let functionType := FunctionType_get ResultType_none [ValueType_i32] in
  let clone := fresh (contexts p) in
  launchThread _context entryFunctionIndex argument errorFunctionIndex tableId p
  = match getFunctionFromTable defaultTable functionType (U32 entryFunctionIndex) p with
    | Done entry _ =>
        match getFunctionFromTable defaultTable functionType (U32 errorFunctionIndex) p with
        | Done error _ => Done tt (launched p (mkThread clone entry error) argument)
        | Raised e _ => Raised e (allocated p (mkThread clone entry 0))
        | Aborted message => Aborted message
        | Unspecified => Unspecified
        end
    | Raised e _ => Raised e (allocated p (mkThread clone 0 0))
    | Aborted message => Aborted message
    | Unspecified => Unspecified
    end.
Proof.
  intros defaultTable functionType clone.
  unfold launchThread. fold defaultTable. fold functionType.
  unfold andThen at 1. unfold newThread.
  unfold andThen at 1. unfold cloneContext. cbn [contexts].
  unfold andThen at 1. unfold assignThread at 1. cbn [threadObjects].
  rewrite lookup_insert_eq. cbn [entryFunction errorFunction context].
  rewrite insert_insert_eq. fold clone.
  unfold andThen at 1.
  match goal with |- context [getFunctionFromTable defaultTable functionType
                                (U32 entryFunctionIndex) ?q] =>
    rewrite (getFunctionFromTable_state defaultTable functionType (U32 entryFunctionIndex) p q)
  end.
  destruct (getFunctionFromTable defaultTable functionType (U32 entryFunctionIndex) p)
    as [entry _|e _|m|]; try reflexivity.
  unfold andThen at 1. unfold assignThread at 1. cbn [threadObjects].
  rewrite lookup_insert_eq. cbn [entryFunction errorFunction context].
  rewrite insert_insert_eq.
  unfold andThen at 1.
  match goal with |- context [getFunctionFromTable defaultTable functionType
                                (U32 errorFunctionIndex) ?q] =>
    rewrite (getFunctionFromTable_state defaultTable functionType (U32 errorFunctionIndex) p q)
  end.
  destruct (getFunctionFromTable defaultTable functionType (U32 errorFunctionIndex) p)
    as [error _|e _|m|]; try reflexivity.
  unfold andThen at 1. unfold assignThread at 1. cbn [threadObjects].
  rewrite lookup_insert_eq. cbn [entryFunction errorFunction context].
  rewrite insert_insert_eq.
  reflexivity.
Qed.

(** X15.  When launchThread throws, the exception is
    undefinedTableElement or indirectCallSignatureMismatch, thrown by the
    lookup of the entry function or, the entry function found, by the
    lookup of the error function; no thread was registered or spawned and
    the waits are untouched, but the Thread object and the cloned context
    made before the lookups are still there. *)
Theorem launchThread_rejects_before_registering
    (_context : TableRuntimeData)
    (entryFunctionIndex argument errorFunctionIndex tableId : Z)
    (p : Process) (e : Exception) (p' : Process) :
  launchThread _context entryFunctionIndex argument errorFunctionIndex tableId p
    = Raised e p' ->
  let defaultTable := getTableFromRuntimeData _context tableId in
  let functionType := FunctionType_get ResultType_none [ValueType_i32] in
  (e = undefinedTableElementType \/ e = indirectCallSignatureMismatchType) /\
  (getFunctionFromTable defaultTable functionType (U32 entryFunctionIndex) p = Raised e p \/
   (exists entry,
      getFunctionFromTable defaultTable functionType (U32 entryFunctionIndex) p
        = Done entry p /\
      getFunctionFromTable defaultTable functionType (U32 errorFunctionIndex) p
        = Raised e p)) /\
  threads p' = threads p /\
  hostThreads p' = hostThreads p /\
  runtime p' = runtime p /\
  threadObjects p !! fresh (dom (threadObjects p)) = None /\
  is_Some (threadObjects p' !! fresh (dom (threadObjects p))) /\
  contexts p' = {[fresh (contexts p)]} ∪ contexts p.
Proof.
  intros Hrun defaultTable functionType.
  rewrite launchThread_run in Hrun. cbv zeta in Hrun.
  fold defaultTable in Hrun. fold functionType in Hrun.
  assert (Hfresh : threadObjects p !! fresh (dom (threadObjects p)) = None)
    by (apply not_elem_of_dom, is_fresh).
  assert (Hkind : forall i q, getFunctionFromTable defaultTable functionType i p = Raised e q ->
            e = undefinedTableElementType \/ e = indirectCallSignatureMismatchType).
  { intros i q H. unfold getFunctionFromTable, raise, pure in H.
    destruct (_ <=? _); [injection H as <- _; auto | ].
    destruct (table_baseAddress _ !! _); [ | discriminate H].
    destruct (negb _); [injection H as <- _; auto | ].
    destruct (elements _ !! _); discriminate H. }
  rewrite (getFunctionFromTable_pure defaultTable functionType (U32 entryFunctionIndex)).
  rewrite (getFunctionFromTable_pure defaultTable functionType (U32 errorFunctionIndex)).
  destruct (getFunctionFromTable defaultTable functionType (U32 entryFunctionIndex) p)
    as [entry q1|e1 q1|m|] eqn:Hentry; try discriminate.
  - destruct (getFunctionFromTable defaultTable functionType (U32 errorFunctionIndex) p)
      as [error q2|e2 q2|m|] eqn:Herror; try discriminate.
    injection Hrun as <- <-.
    split; [eapply Hkind, Herror | ].
    split; [right; eauto | ].
    cbn. rewrite lookup_insert_eq. repeat split; eauto.
  - injection Hrun as <- <-.
    split; [eapply Hkind, Hentry | ].
    split; [left; reflexivity | ].
    cbn. rewrite lookup_insert_eq. repeat split; eauto.
Qed.

(** X16.  When both functions are found, launchThread returns, having
    made one new Thread object with a clone of the context and the two
    functions found, appended it to the global list of threads, and
    spawned one host thread that runs threadFunc on it with the argument;
    nothing else changes. *)
Theorem launchThread_registers_and_spawns
    (_context : TableRuntimeData)
    (entryFunctionIndex argument errorFunctionIndex tableId : Z)
    (p : Process) (entry error : Z) :
  let defaultTable := getTableFromRuntimeData _context tableId in
  let functionType := FunctionType_get ResultType_none [ValueType_i32] in
  getFunctionFromTable defaultTable functionType (U32 entryFunctionIndex) p = Done entry p ->
  getFunctionFromTable defaultTable functionType (U32 errorFunctionIndex) p = Done error p ->
  let thread := fresh (dom (threadObjects p)) in
  exists p',
    launchThread _context entryFunctionIndex argument errorFunctionIndex tableId p
      = Done tt p' /\
    threadObjects p !! thread = None /\
    threadObjects p' = <[thread := mkThread (fresh (contexts p)) entry error]> (threadObjects p) /\
    threads p' = threads p ++ [thread] /\
    hostThreads p' = hostThreads p ++ [(thread, argument)] /\
    contexts p' = {[fresh (contexts p)]} ∪ contexts p /\
    runtime p' = runtime p /\
    tls_threadWakeEvent p' = tls_threadWakeEvent p /\
    logged p' = logged p.
Proof.
  intros defaultTable functionType Hentry Herror thread.
  eexists. rewrite launchThread_run. cbv zeta.
  fold defaultTable. fold functionType. rewrite Hentry, Herror.
  split; [reflexivity | ].
  split; [apply not_elem_of_dom, is_fresh | ].
  repeat split.
Qed.

Section SpawnProperties.

Variable invokeFunction : Z -> Z -> list Z -> Proc unit.
Variable describeException : Exception -> string.

Lemma threadFunc_exit_never_raises thread p e p' : threadFunc_exit thread p <> Raised e p'.
Proof.
  unfold threadFunc_exit, andThen, destroyEvent, threadFunc_unregister, deleteThread.
  destruct (tls_threadWakeEvent p) as [event|].
  - destruct (events (runtime p) !! event); [ | discriminate].
    cbn. case_bool_decide; [ | discriminate]. cbn.
    destruct (threadObjects p !! thread); discriminate.
  - case_bool_decide; [ | discriminate]. cbn.
    destruct (threadObjects p !! thread); discriminate.
Qed.

Lemma threadFunc_exit_run thread p :
  thread ∈ threads p ->
  is_Some (threadObjects p !! thread) ->
  (forall event, tls_threadWakeEvent p = Some event -> is_Some (events (runtime p) !! event)) ->
  threadFunc_exit thread p = Done tt (exited thread p).
Proof.
  intros Hin [t Ht] Htls.
  unfold threadFunc_exit, exited, andThen, destroyEvent, threadFunc_unregister, deleteThread.
  destruct (tls_threadWakeEvent p) as [event|] eqn:E.
  - destruct (Htls event eq_refl) as [b Hb]. rewrite Hb. cbn.
    rewrite bool_decide_eq_true_2 by exact Hin. cbn. rewrite Ht, ?E. reflexivity.
  - rewrite bool_decide_eq_true_2 by exact Hin. cbn. rewrite Ht, ?E. reflexivity.
Qed.

Lemma threadFunc_unfold thread argument p :
  threadFunc invokeFunction describeException thread argument p
  = match (t <~ derefThread thread ;;
           invokeFunction (context t) (entryFunction t) [argument]) p with
    | Done _ q => threadFunc_exit thread q
    | Raised exception q =>
        match (printf ("Runtime exception in thread: "
                         +:+ describeException exception +:+ newline) ;~
               printf ("Passing exception on to thread error handler" +:+ newline) ;~
               t <~ derefThread thread ;;
               invokeFunction (context t) (errorFunction t) [argument]) q with
        | Done _ q' => threadFunc_exit thread q'
        | Raised secondException q' => Aborted "double fault"
        | Aborted message => Aborted message
        | Unspecified => Unspecified
        end
    | Aborted message => Aborted message
    | Unspecified => Unspecified
    end.
Proof.
  unfold threadFunc. fold (threadFunc_exit thread).
  unfold andThen at 1. unfold catchRuntimeExceptions at 1.
  destruct ((t <~ derefThread thread ;;
             invokeFunction (context t) (entryFunction t) [argument]) p)
    as [[] q|exception q|m|]; try reflexivity.
  unfold catchRuntimeExceptions.
  set (second := t <~ derefThread thread ;;
                 invokeFunction (context t) (errorFunction t) [argument]).
  unfold andThen, printf.
  destruct (second _) as [[] q'|e2 q'|m|]; reflexivity.
Qed.

Lemma eraseFirst_NoDup thread (l : list Z) :
  NoDup l -> thread ∉ eraseFirst thread l.
Proof.
  induction 1 as [|x l Hx Hl IH]; cbn; [apply not_elem_of_nil | ].
  destruct (Z.eqb_spec x thread) as [->|Hne]; [exact Hx | ].
  intros H. apply elem_of_cons in H as [->|H]; [congruence | contradiction].
Qed.

Lemma eraseFirst_length thread (l : list Z) :
  thread ∈ l -> (length (eraseFirst thread l) + 1 = length l)%nat.
Proof.
  intros Hin. destruct (eraseFirst_split thread l Hin) as (l1 & l2 & -> & _ & ->).
  rewrite !length_app. cbn. lia.
Qed.

(** X17.  No runtime exception leaves threadFunc, whatever the entry and
    error functions do; and when threadFunc returns, the Thread object is
    deleted and the thread's wake event, if it had one, is destroyed. *)
Theorem threadFunc_lets_no_exception_escape (thread argument : Z) (p : Process) :
  match threadFunc invokeFunction describeException thread argument p with
  | Raised _ _ => False
  | Done _ p' =>
      threadObjects p' !! thread = None /\
      forall event, tls_threadWakeEvent p' = Some event -> events (runtime p') !! event = None
  | Aborted _ | Unspecified => True
  end.
Proof.
  assert (Hexit : forall q, match threadFunc_exit thread q with
                            | Raised _ _ => False
                            | Done _ p' =>
                                threadObjects p' !! thread = None /\
                                forall event, tls_threadWakeEvent p' = Some event ->
                                              events (runtime p') !! event = None
                            | Aborted _ | Unspecified => True
                            end).
  { intros q. unfold threadFunc_exit, andThen, destroyEvent, threadFunc_unregister, deleteThread.
    destruct (tls_threadWakeEvent q) as [event|] eqn:E.
    - destruct (events (runtime q) !! event); [ | exact I].
      cbn. case_bool_decide; [ | exact I]. cbn.
      destruct (threadObjects q !! thread); [ | exact I]. cbn.
      split; [apply lookup_delete_eq | ]. rewrite ?E. intros ? [= <-]. apply lookup_delete_eq.
    - case_bool_decide; [ | exact I]. cbn.
      destruct (threadObjects q !! thread); [ | exact I]. cbn.
      split; [apply lookup_delete_eq | ]. rewrite ?E. discriminate. }
  rewrite threadFunc_unfold.
  destruct (andThen _ _ p) as [[] q|exception q|m|]; try exact I; [apply Hexit | ].
  destruct (andThen _ _ q) as [[] q'|e2 q'|m|]; try exact I. apply Hexit.
Qed.

Lemma threadFunc_returns (thread argument : Z) (p : Process) (t : Thread) (q : Process) :
  threadObjects p !! thread = Some t ->
  invokeFunction (context t) (entryFunction t) [argument] p = Done tt q ->
  thread ∈ threads q ->
  is_Some (threadObjects q !! thread) ->
  (forall event, tls_threadWakeEvent q = Some event ->
     is_Some (events (runtime q) !! event)) ->
  threadFunc invokeFunction describeException thread argument p = Done tt (exited thread q).
Proof.
  intros Ht Hentry Hin Hlive Htls.
  rewrite threadFunc_unfold. unfold andThen at 1. unfold derefThread. rewrite Ht, Hentry.
  apply threadFunc_exit_run; assumption.
Qed.

(** X18.  When the entry function returns, threadFunc returns after
    destroying the thread's wake event (if any), erasing the thread from
    the global list (its first occurrence: the list is one shorter, and
    without the thread if it had no duplicates) and deleting the Thread
    object; the wait lists, the address table, the host threads and the
    log are as the entry function left them. *)
Theorem threadFunc_ends_thread (thread argument : Z) (p : Process) (t : Thread) (q : Process) :
  threadObjects p !! thread = Some t ->
  invokeFunction (context t) (entryFunction t) [argument] p = Done tt q ->
  thread ∈ threads q ->
  is_Some (threadObjects q !! thread) ->
  (forall event, tls_threadWakeEvent q = Some event ->
     is_Some (events (runtime q) !! event)) ->
  exists p',
    threadFunc invokeFunction describeException thread argument p = Done tt p' /\
    threads p' = eraseFirst thread (threads q) /\
    (length (threads p') + 1 = length (threads q))%nat /\
    (NoDup (threads q) -> thread ∉ threads p') /\
    threadObjects p' = delete thread (threadObjects q) /\
    events (runtime p')
    = match tls_threadWakeEvent q with
      | Some event => delete event (events (runtime q))
      | None => events (runtime q)
      end /\
    waitLists (runtime p') = waitLists (runtime q) /\
    addressToWaitListMap (runtime p') = addressToWaitListMap (runtime q) /\
    hostThreads p' = hostThreads q /\
    logged p' = logged q.
Proof.
  intros Ht Hentry Hin Hlive Htls.
  exists (exited thread q). split.
  - apply (threadFunc_returns thread argument p t q); assumption.
  - cbn. split; [reflexivity | ]. split; [apply eraseFirst_length, Hin | ].
    split; [apply eraseFirst_NoDup | ]. split; [reflexivity | ].
    destruct (tls_threadWakeEvent q); repeat split.
Qed.

(** X19.  When the entry function throws, threadFunc logs the two lines
    and calls the error function with the same argument; if that throws
    too, the outcome is the fatal error "double fault"; if it returns,
    threadFunc ends the thread as after a normal return. *)
Theorem threadFunc_error_function
    (thread argument : Z) (p : Process) (t : Thread) (exception : Exception)
    (q : Process) (t' : Thread) :
  threadObjects p !! thread = Some t ->
  invokeFunction (context t) (entryFunction t) [argument] p = Raised exception q ->
  threadObjects q !! thread = Some t' ->
  let lines := ["Runtime exception in thread: " +:+ describeException exception +:+ newline;
                "Passing exception on to thread error handler" +:+ newline] in
  let second := invokeFunction (context t') (errorFunction t') [argument] (logging lines q) in
  (forall secondException q',
     second = Raised secondException q' ->
     threadFunc invokeFunction describeException thread argument p = Aborted "double fault") /\
  (forall q',
     second = Done tt q' ->
     thread ∈ threads q' ->
     is_Some (threadObjects q' !! thread) ->
     (forall event, tls_threadWakeEvent q' = Some event ->
        is_Some (events (runtime q') !! event)) ->
     threadFunc invokeFunction describeException thread argument p
     = Done tt (exited thread q')).
Proof.
  intros Ht Hentry Ht' lines second.
  assert (Hrun : threadFunc invokeFunction describeException thread argument p
                 = match second with
                   | Done _ q' => threadFunc_exit thread q'
                   | Raised _ _ => Aborted "double fault"
                   | Aborted message => Aborted message
                   | Unspecified => Unspecified
                   end).
  { rewrite threadFunc_unfold. unfold andThen at 1. unfold derefThread at 1.
    rewrite Ht, Hentry.
    unfold andThen, printf, derefThread. cbn [threadObjects]. rewrite Ht'.
    subst second lines. unfold logging.
    cbn [runtime threads threadObjects contexts hostThreads tls_threadWakeEvent logged].
    rewrite <- app_assoc. reflexivity. }
  rewrite Hrun. split.
  - intros e2 q' ->. reflexivity.
  - intros q' -> Hin Hlive Htls. apply threadFunc_exit_run; assumption.
Qed.

(** X20.  launchThread followed by the run of the thread it spawned: the
    host thread was given the new Thread and the argument, and when the
    entry function returns (leaving the list and the objects alone),
    threadFunc returns and the global list of threads and the Thread
    objects are what they were before launchThread. *)
Theorem launched_thread_unregisters
    (_context : TableRuntimeData)
    (entryFunctionIndex argument errorFunctionIndex tableId : Z)
    (p launchedProcess q : Process) :
  (forall t, t ∈ threads p -> is_Some (threadObjects p !! t)) ->
  launchThread _context entryFunctionIndex argument errorFunctionIndex tableId p
    = Done tt launchedProcess ->
  let thread := fresh (dom (threadObjects p)) in
  (forall t, threadObjects launchedProcess !! thread = Some t ->
     invokeFunction (context t) (entryFunction t) [argument] (started launchedProcess)
     = Done tt q) ->
  threads q = threads launchedProcess ->
  threadObjects q = threadObjects launchedProcess ->
  (forall event, tls_threadWakeEvent q = Some event -> is_Some (events (runtime q) !! event)) ->
  hostThreads launchedProcess = hostThreads p ++ [(thread, argument)] /\
  exists p',
    threadFunc invokeFunction describeException thread argument (started launchedProcess)
      = Done tt p' /\
    threads p' = threads p /\
    threadObjects p' = threadObjects p.
Proof.
  intros Hlive Hlaunch thread Hentry Hthreads Hobjects Htls.
  rewrite launchThread_run in Hlaunch. cbv zeta in Hlaunch.
  destruct (getFunctionFromTable _ _ (U32 entryFunctionIndex) p) as [entry ?|? ?|?|];
    try discriminate.
  destruct (getFunctionFromTable _ _ (U32 errorFunctionIndex) p) as [error ?|? ?|?|];
    try discriminate.
  injection Hlaunch as <-.
  set (t := mkThread (fresh (contexts p)) entry error) in *.
  assert (Hfresh : threadObjects p !! thread = None) by (apply not_elem_of_dom, is_fresh).
  assert (Hout : thread ∉ threads p).
  { intros Hin. destruct (Hlive _ Hin) as [? H]. congruence. }
  assert (Ht : threadObjects (launched p t argument) !! thread = Some t)
    by (cbn; apply lookup_insert_eq).
  split; [reflexivity | ].
  exists (exited thread q). split; [ | split ].
  - apply (threadFunc_returns thread argument (started (launched p t argument)) t q).
    + exact Ht.
    + apply Hentry, Ht.
    + rewrite Hthreads. cbn. apply elem_of_app. right. apply list_elem_of_here.
    + rewrite Hobjects. eauto.
    + exact Htls.
  - cbn [threads exited]. rewrite Hthreads. cbn. fold thread.
    rewrite eraseFirst_middle by exact Hout. apply app_nil_r.
  - cbn [threadObjects exited]. rewrite Hobjects. cbn. fold thread.
    rewrite delete_insert_eq. apply delete_id. exact Hfresh.
Qed.

End SpawnProperties.

(* --------------------------------------------------------------------- *)
(** ** The properties above on the example states *)

Lemma getEndTimeFromTimeout_cases_witness :
  0 <= 5 <= UINT64_MAX /\
  F64_valid (F64_mul (S754_finite false 6755399441055744 (-52)) (F64_of_U64 1000)) = true /\
  getEndTimeFromTimeout 5 (S754_finite false 6755399441055744 (-52)) = Value 1505.
Proof.
  assert (H1 : 0 <= 5 <= UINT64_MAX) by (vm_compute; split; discriminate).
  assert (H2 : F64_valid (F64_mul (S754_finite false 6755399441055744 (-52)) (F64_of_U64 1000))
               = true) by (vm_compute; reflexivity).
  split; [exact H1 | ]. split; [exact H2 | ].
  rewrite (getEndTimeFromTimeout_cases 5 (S754_finite false 6755399441055744 (-52)) H1 H2).
  vm_compute. reflexivity.
Defined.

Lemma singleEntry_references l refs address waitList wl :
  addressToWaitListMap (singleEntry l refs) !! address = Some waitList ->
  waitLists (singleEntry l refs) !! waitList = Some wl ->
  numReferences wl = refs.
Proof.
  intros _ H. cbn in H. apply lookup_singleton_Some in H as [_ <-]. reflexivity.
Qed.

Lemma crowd_invariant : tableInvariant (crowdedRuntime 3).
Proof. apply singleEntry_invariant. vm_compute. split; discriminate. Qed.

Lemma crowd_bound address waitList wl :
  addressToWaitListMap (crowdedRuntime 3) !! address = Some waitList ->
  waitLists (crowdedRuntime 3) !! waitList = Some wl ->
  numReferences wl < UINT64_MAX - 1.
Proof.
  intros Ht Hwl. rewrite (singleEntry_references _ _ _ _ _ Ht Hwl). reflexivity.
Qed.

Lemma crowd_bound_1 address waitList wl :
  addressToWaitListMap (crowdedRuntime 3) !! address = Some waitList ->
  waitLists (crowdedRuntime 3) !! waitList = Some wl ->
  numReferences wl < UINT64_MAX.
Proof.
  intros Ht Hwl. rewrite (singleEntry_references _ _ _ _ _ Ht Hwl). reflexivity.
Qed.

Lemma crowd_events address e :
  e ∈ waiters (crowdedRuntime 3) address -> is_Some (events (crowdedRuntime 3) !! e).
Proof. apply singleEntry_events. Qed.

Lemma crowd_size : Z.of_nat (length (waiters (crowdedRuntime 3) 4096)) = 3.
Proof. unfold crowdedRuntime. rewrite singleEntry_waiters, crowd_length. reflexivity. Qed.

Lemma crowd_waits_forever :
  getEndTimeFromTimeout (clock (crowdedRuntime 3)) (S754_infinity false) = Value UINT64_MAX.
Proof. vm_compute. reflexivity. Qed.

Lemma crowd_polls :
  getEndTimeFromTimeout (clock (crowdedRuntime 3)) (S754_zero false) = Value 0.
Proof. vm_compute. reflexivity. Qed.

Lemma crowd_loads_0 :
  asValue TI32 (loadBytes (sizeofValue TI32) 4096 (memory (crowdedRuntime 3))) = 0.
Proof. vm_compute. reflexivity. Qed.

Lemma no_token_yet (P : Z -> Prop) : forall event : Z, @None Z = Some event -> P event.
Proof. intros event H. discriminate H. Qed.

Lemma getEndTimeFromTimeout_not_before_start_witness :
  0 <= 5 <= UINT64_MAX /\
  getEndTimeFromTimeout 5 (S754_finite false 6755399441055744 (-52)) = Value 1505 /\
  5 <= 1505 <= UINT64_MAX.
Proof.
  assert (H1 : 0 <= 5 <= UINT64_MAX) by (vm_compute; split; discriminate).
  assert (H2 : getEndTimeFromTimeout 5 (S754_finite false 6755399441055744 (-52))
               = Value 1505) by (vm_compute; reflexivity).
  split; [exact H1 | ]. split; [exact H2 | ].
  exact (getEndTimeFromTimeout_not_before_start 5 _ 1505 H1 H2).
Defined.

Lemma wait_after_store_does_not_park_witness :
  exists stored,
    atomicStore TI32 4096 1 (crowdedRuntime 3) = Returned tt stored /\
    waitOnAddress alone TI32 None 4096 0 (S754_zero false) stored
    = Returned (Some 1, None) stored.
Proof.
  destruct (wait_after_store_does_not_park alone TI32 None 4096 1 0 (S754_zero false)
              (crowdedRuntime 3) 0 crowd_invariant (crowd_bound_1 4096) crowd_polls)
    as (stored & Hstore & Hwait & _).
  - vm_compute. discriminate.
  - exists stored. split; [exact Hstore | exact Hwait].
Defined.

Lemma wakeAddress_without_waiters_witness :
  wakeAddress 8192 7 (crowdedRuntime 3) = Returned 0 (crowdedRuntime 3).
Proof.
  apply (wakeAddress_without_waiters (crowdedRuntime 3) 8192 7 crowd_invariant
           (crowd_bound_1 8192)).
  - vm_compute. split; discriminate.
  - unfold waiters. cbn. rewrite lookup_singleton_ne by discriminate. reflexivity.
Defined.

Lemma wakeAddress_twice_witness :
  exists st1 st2,
    wakeAddress 4096 1 (crowdedRuntime 3) = Returned 1 st1 /\
    wakeAddress 4096 1 st1 = Returned 1 st2 /\
    wakeAddress 4096 2 (crowdedRuntime 3) = Returned 2 st2.
Proof.
  destruct (wakeAddress_twice (crowdedRuntime 3) 4096 1 1 crowd_invariant
              (crowd_bound_1 4096) (crowd_events 4096))
    as (st1 & st2 & H1 & H2 & H12 & _).
  - lia.
  - lia.
  - reflexivity.
  - rewrite crowd_size in H1, H2, H12. exists st1, st2.
    split; [exact H1 | ]. split; [exact H2 | exact H12].
Defined.

Lemma waitOnAddress_parks_witness :
  exists event parked,
    waitOnAddress alone TI32 None 4096 0 (S754_infinity false) (crowdedRuntime 3)
    = Returned (None, Some event) parked /\
    waiters parked 4096 = waiters (crowdedRuntime 3) 4096 ++ [event].
Proof.
  destruct (waitOnAddress_parks alone TI32 None 4096 0 (S754_infinity false)
              (crowdedRuntime 3) UINT64_MAX crowd_invariant (crowd_bound_1 4096)
              crowd_waits_forever crowd_loads_0 (no_token_yet _))
    as (waitList & event & parked & Hrun & _ & _ & _ & Hw & _).
  - intros [H _]. exact (Z.lt_irrefl _ H).
  - exists event, parked. split; [apply Hrun; reflexivity | exact Hw].
Defined.

Lemma waitOnAddress_deadline_passed_witness :
  waitOnAddress alone TI32 None 4096 0 (S754_zero false) (crowdedRuntime 3)
  = Returned (Some 2, Some (fresh (dom (events (crowdedRuntime 3)))))
      (set_events (fun ev => <[fresh (dom (events (crowdedRuntime 3))) := false]> ev)
         (crowdedRuntime 3)).
Proof.
  apply (waitOnAddress_deadline_passed alone TI32 None 4096 0 (S754_zero false)
           (crowdedRuntime 3) 0 crowd_invariant (crowd_bound_1 4096) crowd_polls).
  - reflexivity.
  - reflexivity.
  - exact crowd_loads_0.
  - apply no_token_yet.
  - apply crowd_events.
  - reflexivity.
  - reflexivity.
Defined.

Lemma wake_after_park_returns_0_witness :
  exists event st',
    waitOnAddress (mkInterference (wakes 4096 UINT32_MAX) (fun s => s)) TI32 None 4096 0
      (S754_infinity false) (crowdedRuntime 3)
    = Returned (Some 0, Some event) st' /\
    events st' !! event = Some false /\
    waiters st' 4096 = [].
Proof.
  destruct (wake_after_park_returns_0
              (mkInterference (wakes 4096 UINT32_MAX) (fun s => s)) TI32 None 4096 0
              (S754_infinity false) (crowdedRuntime 3) UINT64_MAX UINT32_MAX
              crowd_invariant (crowd_bound 4096) crowd_waits_forever crowd_loads_0
              (no_token_yet _) (crowd_events 4096))
    as (waitList & opened & parked & st' & _ & _ & _ & _ & Hrun & _ & Hev & _ & Hw & _).
  - rewrite crowd_size. split; [reflexivity | discriminate].
  - reflexivity.
  - eexists _, st'. split; [exact Hrun | ]. split; [exact Hev | exact Hw].
Defined.

Lemma wake_serves_earlier_waiters_first_witness :
  exists event atWake,
    waitOnAddress (mkInterference (wakes 4096 2) (fun s => s)) TI32 None 4096 0
      (S754_infinity false) (crowdedRuntime 3)
    = Returned (None, Some event) atWake /\
    signalLog atWake
    = signalLog (crowdedRuntime 3) ++ take 2 (waiters (crowdedRuntime 3) 4096) /\
    waiters atWake 4096 = drop 2 (waiters (crowdedRuntime 3) 4096) ++ [event].
Proof.
  destruct (wake_serves_earlier_waiters_first
              (mkInterference (wakes 4096 2) (fun s => s)) TI32 None 4096 0
              (S754_infinity false) (crowdedRuntime 3) UINT64_MAX 2
              crowd_invariant (crowd_bound 4096) crowd_waits_forever)
    as (waitList & opened & parked & _ & _ & _ & Hrun & Hlog & Hw & _).
  - intros [H _]. exact (Z.lt_irrefl _ H).
  - exact crowd_loads_0.
  - apply no_token_yet.
  - apply crowd_events.
  - rewrite crowd_size. split; discriminate.
  - reflexivity.
  - reflexivity.
  - eexists _, _. split; [exact Hrun | ]. split; [exact Hlog | exact Hw].
Defined.

Lemma wake_between_timeout_and_relock_witness :
  exists event st',
    waitOnAddress (mkInterference (fun s => s) (wakes 4096 UINT32_MAX)) TI32 None 4096 0
      (S754_zero false) (crowdedRuntime 3)
    = Returned (Some 0, Some event) st' /\
    events st' !! event = Some false /\
    waiters st' 4096 = [].
Proof.
  destruct (wake_between_timeout_and_relock
              (mkInterference (fun s => s) (wakes 4096 UINT32_MAX)) TI32 None 4096 0
              (S754_zero false) (crowdedRuntime 3) 0 UINT32_MAX
              crowd_invariant (crowd_bound 4096) crowd_polls)
    as (waitList & opened & parked & st' & _ & _ & _ & _ & Hrun & _ & Hev & Hw & _).
  - reflexivity.
  - reflexivity.
  - exact crowd_loads_0.
  - apply no_token_yet.
  - apply crowd_events.
  - rewrite crowd_size. split; [reflexivity | discriminate].
  - reflexivity.
  - reflexivity.
  - eexists _, st'. split; [exact Hrun | ]. split; [exact Hev | exact Hw].
Defined.

Lemma closeWaitList_recheck_reads_destroyed_list_witness :
  exists decremented destroyed,
    closeWaitList_decrement 0 (singleEntry [] 1) = Returned 0 decremented /\
    openWaitList 4096 decremented = Returned 0 (singleEntry [] 1) /\
    closeWaitList 4096 0 (singleEntry [] 1) = Returned tt destroyed /\
    closeWaitList_locked 4096 0 destroyed = Undefined.
Proof.
  destruct (closeWaitList_recheck_reads_destroyed_list (singleEntry [] 1) 4096 0
              (mkWaitList [] 1))
    as (decremented & destroyed & H1 & H2 & H3 & _ & _ & H4).
  - apply singleEntry_invariant. vm_compute. split; discriminate.
  - apply lookup_singleton_eq.
  - apply lookup_singleton_eq.
  - reflexivity.
  - reflexivity.
  - exists decremented, destroyed. auto.
Defined.

Lemma exampleTable_entry p :
  getFunctionFromTable exampleTable (FunctionType_get ResultType_none [ValueType_i32])
    (U32 0) p = Done 100 p.
Proof. reflexivity. Qed.

Lemma exampleTable_error p :
  getFunctionFromTable exampleTable (FunctionType_get ResultType_none [ValueType_i32])
    (U32 2) p = Done 300 p.
Proof. reflexivity. Qed.

Lemma exampleTable_mismatch p :
  getFunctionFromTable exampleTable (FunctionType_get ResultType_none [ValueType_i32])
    (U32 1) p = Raised indirectCallSignatureMismatchType p.
Proof. reflexivity. Qed.

Lemma emptyProcess_launch_rejected :
  launchThread exampleData 0 5 1 0 emptyProcess
  = Raised indirectCallSignatureMismatchType
      (allocated emptyProcess (mkThread (fresh (contexts emptyProcess)) 100 0)).
Proof.
  rewrite launchThread_run. cbv zeta. unfold getTableFromRuntimeData, exampleData. cbn [tableOf].
  rewrite exampleTable_entry, exampleTable_mismatch. reflexivity.
Qed.

Lemma emptyProcess_launch :
  launchThread exampleData 0 5 2 0 emptyProcess
  = Done tt (launched emptyProcess (mkThread (fresh (contexts emptyProcess)) 100 300) 5).
Proof.
  rewrite launchThread_run. cbv zeta. unfold getTableFromRuntimeData, exampleData. cbn [tableOf].
  rewrite exampleTable_entry, exampleTable_error. reflexivity.
Qed.

Lemma runningProcess_thread : threadObjects runningProcess !! 7 = Some (mkThread 1 100 300).
Proof. apply lookup_singleton_eq. Qed.

Lemma getFunctionFromTable_checks_witness :
  0 <= 1 <= UINT32_MAX /\
  getFunctionFromTable exampleTable (FunctionType_get ResultType_none [ValueType_i32]) 1
    emptyProcess
  = Raised indirectCallSignatureMismatchType emptyProcess /\
  getFunctionFromTable exampleTable (FunctionType_get ResultType_none [ValueType_i32]) 1
    emptyProcess
  <> Done 200 emptyProcess.
Proof.
  assert (Hidx : 0 <= 1 <= UINT32_MAX) by (split; discriminate).
  destruct (getFunctionFromTable_checks exampleTable
              (FunctionType_get ResultType_none [ValueType_i32]) 1 emptyProcess Hidx)
    as (_ & Hmismatch & Hdone & _).
  split; [exact Hidx | ]. split.
  - apply Hmismatch. split; [reflexivity | ]. split; [reflexivity | ].
    eexists. split; [reflexivity | ]. discriminate.
  - intros H. apply Hdone in H as (_ & _ & _ & element & [= <-] & H). discriminate H.
Defined.

Lemma launchThread_rejects_before_registering_witness :
  exists p',
    launchThread exampleData 0 5 1 0 emptyProcess
    = Raised indirectCallSignatureMismatchType p' /\
    threads p' = [] /\ hostThreads p' = [] /\
    is_Some (threadObjects p' !! fresh (dom (threadObjects emptyProcess))).
Proof.
  eexists. split; [exact emptyProcess_launch_rejected | ].
  destruct (launchThread_rejects_before_registering exampleData 0 5 1 0 emptyProcess _ _
              emptyProcess_launch_rejected)
    as (_ & _ & Hthreads & Hhost & _ & _ & Hleak & _).
  split; [exact Hthreads | ]. split; [exact Hhost | exact Hleak].
Defined.

Lemma launchThread_registers_and_spawns_witness :
  exists p',
    launchThread exampleData 0 5 2 0 emptyProcess = Done tt p' /\
    threads p' = [fresh (dom (threadObjects emptyProcess))] /\
    hostThreads p' = [(fresh (dom (threadObjects emptyProcess)), 5)].
Proof.
  destruct (launchThread_registers_and_spawns exampleData 0 5 2 0 emptyProcess 100 300
              (exampleTable_entry emptyProcess) (exampleTable_error emptyProcess))
    as (p' & Hrun & _ & _ & Hthreads & Hhost & _).
  exists p'. split; [exact Hrun | ]. split; [exact Hthreads | exact Hhost].
Defined.

Lemma threadFunc_ends_thread_witness :
  exists p',
    threadFunc returning describing 7 5 runningProcess = Done tt p' /\
    threads p' = [] /\
    threadObjects p' = delete 7 (threadObjects runningProcess).
Proof.
  destruct (threadFunc_ends_thread returning describing 7 5 runningProcess
              (mkThread 1 100 300) runningProcess runningProcess_thread eq_refl)
    as (p' & Hrun & Hthreads & _ & _ & Hobjects & _).
  - apply list_elem_of_here.
  - exists (mkThread 1 100 300). exact runningProcess_thread.
  - apply no_token_yet.
  - exists p'. split; [exact Hrun | ]. split; [exact Hthreads | exact Hobjects].
Defined.

Lemma threadFunc_error_function_witness :
  threadFunc trapping describing 7 5 runningProcess = Aborted "double fault" /\
  exists p',
    threadFunc recovering describing 7 5 runningProcess = Done tt p' /\
    logged p' = ["Runtime exception in thread: trap" +:+ newline;
                 "Passing exception on to thread error handler" +:+ newline].
Proof.
  split.
  - destruct (threadFunc_error_function trapping describing 7 5 runningProcess
                (mkThread 1 100 300) (Exception_of accessViolationType) runningProcess
                (mkThread 1 100 300) runningProcess_thread eq_refl runningProcess_thread)
      as [Hfault _].
    exact (Hfault _ _ eq_refl).
  - destruct (threadFunc_error_function recovering describing 7 5 runningProcess
                (mkThread 1 100 300) (Exception_of accessViolationType) runningProcess
                (mkThread 1 100 300) runningProcess_thread eq_refl runningProcess_thread)
      as [_ Hrecover].
    eexists. split.
    + apply (Hrecover _ eq_refl).
      * apply list_elem_of_here.
      * exists (mkThread 1 100 300). exact runningProcess_thread.
      * apply no_token_yet.
    + reflexivity.
Defined.

Lemma launched_thread_unregisters_witness :
  exists launchedProcess p',
    launchThread exampleData 0 5 2 0 emptyProcess = Done tt launchedProcess /\
    hostThreads launchedProcess = [(fresh (dom (threadObjects emptyProcess)), 5)] /\
    threadFunc returning describing (fresh (dom (threadObjects emptyProcess))) 5
      (started launchedProcess) = Done tt p' /\
    threads p' = [] /\
    threadObjects p' = ∅.
Proof.
  destruct (launched_thread_unregisters returning describing exampleData 0 5 2 0
              emptyProcess
              (launched emptyProcess (mkThread (fresh (contexts emptyProcess)) 100 300) 5)
              (started (launched emptyProcess
                          (mkThread (fresh (contexts emptyProcess)) 100 300) 5)))
    as (Hhost & p' & Hrun & Hthreads & Hobjects).
  - intros t Hin. by apply not_elem_of_nil in Hin.
  - exact emptyProcess_launch.
  - intros t _. reflexivity.
  - reflexivity.
  - reflexivity.
  - apply no_token_yet.
  - eexists _, p'. split; [exact emptyProcess_launch | ]. split; [exact Hhost | ].
    split; [exact Hrun | ]. split; [exact Hthreads | exact Hobjects].
Defined.

(* ===================================================================== *)
(** * Properties of Lib/LLVMJIT/LLVMEmitModule.cpp *)
(* ===================================================================== *)

Import LLVMJIT.

Section EmitProperties.

Context {FunctionType TableType MemoryType GlobalType ExceptionTypeSig : Type}.
Context {Code Body : Type}.
Variable target : Target.
Variable asLLVMType : FunctionType -> LLVMType.
Variable emit : EmitModuleContext ->
                @IRModule FunctionType TableType MemoryType GlobalType ExceptionTypeSig Code ->
                @FunctionDef Code -> Body.

Abbreviation IRModule' :=
  (@IRModule FunctionType TableType MemoryType GlobalType ExceptionTypeSig Code).
Abbreviation LLVMModule' := (@LLVMModule Body).

Lemma importConstants_run baseName wrap n i out (m : LLVMModule') :
  importConstants baseName wrap n i out m
  = (out ++ ((fun k => wrap (GlobalAddress (getExternalName baseName k))) <$> seq i n),
     mkLLVMModule
       (m_globals m ++ ((fun k => importedGlobal (getExternalName baseName k)) <$> seq i n))
       (m_functions m)).
Proof.
  revert i out m. induction n as [|n IH]; intros i out m; cbn.
  - rewrite !app_nil_r. destruct m; reflexivity.
  - rewrite IH. cbn. rewrite <- !app_assoc. reflexivity.
Qed.

Lemma updateFunction_last g (fs : list (@LLVMFunction Body)) f upd :
  updateFunction (length fs) upd (mkLLVMModule g (fs ++ [f]))
  = mkLLVMModule g (fs ++ [upd f]).
Proof.
  unfold updateFunction. cbn. f_equal.
  replace (length fs) with (length fs + 0)%nat by lia.
  rewrite alter_app_r. reflexivity.
Qed.

Lemma createFunctions_run (irModule : IRModule') n i fns (m : LLVMModule') :
  (forall k, (i <= k < i + n)%nat ->
     exists ity ty, functions_getType irModule k = Some ity /\
                    types irModule !! index ity = Some ty) ->
  (i + n <= length fns)%nat ->
  exists fns' created,
    createFunctions asLLVMType irModule n i fns m
    = Some (fns', mkLLVMModule (m_globals m) (m_functions m ++ created)) /\
    length created = n /\
    length fns' = length fns /\
    (forall k, (k < n)%nat ->
       exists ity ty,
         functions_getType irModule (i + k) = Some ity /\
         types irModule !! index ity = Some ty /\
         created !! k
         = Some (mkLLVMFunction (functionName irModule (i + k)) (asLLVMType ty)
                   ExternalLinkage Wasm_CallingConv None None None)) /\
    (forall k, (k < n)%nat ->
       fns' !! (i + k)%nat = Some (Some (length (m_functions m) + k)%nat)) /\
    (forall k, (k < i)%nat -> fns' !! k = fns !! k).
Proof.
  revert i fns m. induction n as [|n IH]; intros i fns m Hok Hlen.
  - exists fns, []. cbn. rewrite app_nil_r. destruct m.
    repeat split; intros; lia.
  - destruct (Hok i) as (ity & ty & Hity & Hty); [lia | ].
    cbn [createFunctions]. rewrite Hity. cbn. rewrite Hty. cbn.
    fold (functionName irModule i).
    destruct m as [g fs]. unfold Function_Create. cbn [m_functions m_globals].
    rewrite updateFunction_last.
    destruct (IH (S i) (<[i := Some (length fs)]> fns)
                (mkLLVMModule g (fs ++ [setCallingConv Wasm_CallingConv
                   (mkLLVMFunction (functionName irModule i) (asLLVMType ty)
                      ExternalLinkage C_CallingConv None None None)])))
      as (fns' & created & Hrun & Hlc & Hlf & Hcreated & Hfns & Hold).
    { intros k Hk. apply Hok. lia. }
    { rewrite length_insert. lia. }
    exists fns', (setCallingConv Wasm_CallingConv
                    (mkLLVMFunction (functionName irModule i) (asLLVMType ty)
                       ExternalLinkage C_CallingConv None None None) :: created).
    cbn [m_functions m_globals] in *.
    split; [rewrite Hrun; rewrite <- app_assoc; reflexivity | ].
    split; [cbn; lia | ].
    split; [rewrite Hlf, length_insert; reflexivity | ].
    split; [ | split ].
    + intros [|k] Hk.
      * rewrite Nat.add_0_r. exists ity, ty. auto.
      * destruct (Hcreated k) as (ity' & ty' & H1 & H2 & H3); [lia | ].
        replace (i + S k)%nat with (S i + k)%nat by lia. exists ity', ty'. auto.
    + intros [|k] Hk.
      * rewrite Nat.add_0_r, Hold by lia.
        rewrite list_lookup_insert_eq by lia. rewrite Nat.add_0_r. reflexivity.
      * replace (i + S k)%nat with (S i + k)%nat by lia.
        rewrite Hfns by lia. rewrite length_app. cbn. do 2 f_equal. lia.
    + intros k Hk. rewrite Hold by lia. apply list_lookup_insert_ne. lia.
Qed.

Lemma compileFunctions_run moduleContext (irModule : IRModule') p hb n j0 (m : LLVMModule') :
  (forall j, (j0 <= j < j0 + n)%nat ->
     functions moduleContext !! (length (functions_imports irModule) + j)%nat
     = Some (Some (hb + j)%nat)) ->
  (forall j def, (j0 <= j < j0 + n)%nat -> functions_defs irModule !! j = Some def ->
     is_Some (typeIds moduleContext !! index (type def))) ->
  (j0 + n <= length (functions_defs irModule))%nat ->
  exists m',
    compileFunctions emit moduleContext irModule p n j0 m = Some m' /\
    m_globals m'
    = m_globals m
      ++ ((fun j => importedGlobal (getExternalName "functionDefInstance" j)) <$> seq j0 n) /\
    length (m_functions m') = length (m_functions m) /\
    (forall h, ~ (hb + j0 <= h < hb + j0 + n)%nat ->
       m_functions m' !! h = m_functions m !! h) /\
    (forall j def tid, (j0 <= j < j0 + n)%nat ->
       functions_defs irModule !! j = Some def ->
       typeIds moduleContext !! index (type def) = Some tid ->
       m_functions m' !! (hb + j)%nat
       = compiled emit moduleContext irModule p tid j def <$> m_functions m !! (hb + j)%nat).
Proof.
  revert j0 m. induction n as [|n IH]; intros j0 m Hfn Hty Hlen.
  - exists m. cbn. rewrite app_nil_r. repeat split; intros; try reflexivity; lia.
  - assert (is_Some (functions_defs irModule !! j0)) as [def Hdef]
      by (apply lookup_lt_is_Some_2; lia).
    destruct (Hty j0 def) as [tid Htid]; [lia | exact Hdef | ].
    cbn [compileFunctions]. rewrite Hdef. cbn. rewrite Hfn by lia. cbn.
    rewrite Htid. cbn.
    set (m1 := updateFunction (hb + j0) (setBody _) _).
    destruct (IH (S j0) m1) as (m' & Hrun & Hg & Hl & Hother & Hmine).
    { intros j Hj. apply Hfn. lia. }
    { intros j d Hj. apply Hty. lia. }
    { lia. }
    exists m'. split; [exact Hrun | ].
    assert (Hm1 : forall h, h <> (hb + j0)%nat -> m_functions m1 !! h = m_functions m !! h).
    { intros h Hh. subst m1. unfold updateFunction. cbn.
      rewrite !list_lookup_alter_ne by lia. reflexivity. }
    assert (Hm1' : m_functions m1 !! (hb + j0)%nat
                   = compiled emit moduleContext irModule p tid j0 def
                       <$> m_functions m !! (hb + j0)%nat).
    { subst m1. unfold updateFunction. cbn. rewrite !list_lookup_alter_eq.
      destruct (m_functions m !! (hb + j0)%nat); reflexivity. }
    split; [ | split; [ | split ] ].
    + rewrite Hg. subst m1. cbn. rewrite <- app_assoc. reflexivity.
    + rewrite Hl. subst m1. unfold updateFunction. cbn. rewrite !length_alter. reflexivity.
    + intros h Hh. rewrite Hother by lia. apply Hm1. lia.
    + intros j d t Hj Hd Ht.
      destruct (decide (j = j0)) as [->|Hne].
      * rewrite Hother by lia. rewrite Hm1'. congruence.
      * rewrite (Hmine j d t) by (try lia; assumption). rewrite Hm1 by lia. reflexivity.
Qed.

Lemma validTypeIndices_getType (irModule : IRModule') k :
  validTypeIndices irModule ->
  (k < functions_size irModule)%nat ->
  exists ity ty, functions_getType irModule k = Some ity /\
                 types irModule !! index ity = Some ty.
Proof.
  intros [Himp Hdef] Hk. unfold functions_getType, functions_size in *.
  destruct (Nat.ltb_spec k (length (functions_imports irModule))) as [Hlt|Hge].
  - destruct (lookup_lt_is_Some_2 _ _ Hlt) as [ity Hity].
    destruct (lookup_lt_is_Some_2 (types irModule) (index ity)) as [ty Hty].
    { apply Himp. eapply list_elem_of_lookup_2, Hity. }
    eauto.
  - assert (is_Some (functions_defs irModule !! (k - length (functions_imports irModule))%nat))
      as [def Hd] by (apply lookup_lt_is_Some_2; lia).
    destruct (lookup_lt_is_Some_2 (types irModule) (index (type def))) as [ty Hty].
    { apply Hdef. eapply list_elem_of_lookup_2, Hd. }
    rewrite Hd. cbn. eauto.
Qed.

Lemma emitModule_run (irModule : IRModule') (outLLVMModule : LLVMModule') :
  validTypeIndices irModule ->
  let pre := m_functions outLLVMModule
             ++ (if USE_WINDOWS_SEH target then [] else [cxaBeginCatchDeclaration]) in
  let p := length pre in
  let numImports := length (functions_imports irModule) in
  exists ctx m,
    emitModule target asLLVMType emit irModule outLLVMModule = Some (ctx, m) /\
    cxaBeginCatchFunction ctx
    = (if USE_WINDOWS_SEH target then None else Some (length (m_functions outLLVMModule))) /\
    typeIds ctx
    = (fun k => PtrToInt (GlobalAddress (getExternalName "typeId" k)) iptrType)
        <$> seq 0 (length (types irModule)) /\
    diFinalized ctx = 1%nat /\
    length (m_functions m) = (p + 1 + functions_size irModule)%nat /\
    (forall h, (h < p)%nat -> m_functions m !! h = pre !! h) /\
    m_functions m !! p
    = Some (mkLLVMFunction (personalityName target) (FunctionTy i32Type [])
              ExternalLinkage C_CallingConv None None None) /\
    (forall k, (k < numImports)%nat ->
       exists f, m_functions m !! (p + 1 + k)%nat = Some f /\
                 fn_name f = functionName irModule k) /\
    (forall j def, functions_defs irModule !! j = Some def ->
       exists f ty,
         functions ctx !! (numImports + j)%nat = Some (Some (p + 1 + numImports + j)%nat) /\
         m_functions m !! (p + 1 + numImports + j)%nat = Some f /\
         types irModule !! index (type def) = Some ty /\
         fn_name f = getExternalName "functionDef" j /\
         fn_type f = asLLVMType ty /\
         fn_linkage f = ExternalLinkage /\
         fn_callingConv f = Wasm_CallingConv /\
         fn_personalityFn f = Some (FunctionAddress p) /\
         fn_prefixData f = Some (prefixDataOf j (index (type def))) /\
         is_Some (fn_body f)) /\
    (forall j, (j < length (functions_defs irModule))%nat ->
       importedGlobal (getExternalName "functionDefInstance" j) ∈ m_globals m).
Proof.
  intros Hvalid pre p numImports. subst numImports.
  unfold emitModule.
  destruct (EmitModuleContext_new target outLLVMModule) as [ctx0 m0] eqn:Hnew.
  assert (Hm0 : m0 = mkLLVMModule (m_globals outLLVMModule) pre /\
                cxaBeginCatchFunction ctx0
                = (if USE_WINDOWS_SEH target then None
                   else Some (length (m_functions outLLVMModule))) /\
                tryPrologueDummyFunction ctx0 = None /\ diFinalized ctx0 = 0%nat).
  { unfold EmitModuleContext_new in Hnew. subst pre.
    destruct (USE_WINDOWS_SEH target); cbn in Hnew; injection Hnew as <- <-; cbn.
    - rewrite app_nil_r. destruct outLLVMModule; auto.
    - auto. }
  destruct Hm0 as (-> & Hcxa & Htry & Hdi).
  unfold Function_Create at 1. cbn [m_functions m_globals]. fold p.
  rewrite !importConstants_run. cbn [m_functions m_globals app fst snd].
  unfold createImportedConstant. cbn [m_functions m_globals].
  match goal with |- context [createFunctions _ _ _ _ _ ?m] => set (m1 := m) end.
  destruct (createFunctions_run irModule (functions_size irModule) 0
              (replicate (functions_size irModule) None) m1)
    as (fns & created & Hcreate & Hlc & Hlf & Hcreated & Hfns & _).
  { intros k Hk. apply validTypeIndices_getType; [assumption | lia]. }
  { rewrite length_replicate. lia. }
  rewrite Hcreate. cbn [mbind option_bind].
  set (tids := (fun k => asIptr (GlobalAddress (getExternalName "typeId" k)))
                 <$> seq 0 (length (types irModule))).
  match goal with |- context [compileFunctions _ ?c _ _ _ _ _] => set (ctx := c) end.
  assert (Hp1 : length (m_functions m1) = (p + 1)%nat).
  { subst m1. cbn. rewrite length_app. cbn. lia. }
  destruct (compileFunctions_run ctx irModule (FunctionAddress p)
              (p + 1 + length (functions_imports irModule))
              (length (functions_defs irModule)) 0
              (mkLLVMModule (m_globals m1) (m_functions m1 ++ created)))
    as (m' & Hcompile & Hg & Hl & Hother & Hmine).
  { intros j Hj. subst ctx. cbn [functions].
    specialize (Hfns (length (functions_imports irModule) + j)%nat).
    cbn [Nat.add] in Hfns. rewrite Hfns.
    - rewrite Hp1. do 2 f_equal. lia.
    - unfold functions_size. lia. }
  { intros j def Hj Hd. subst ctx. cbn [typeIds].
    subst tids. apply lookup_lt_is_Some_2. rewrite length_fmap, length_seq.
    destruct Hvalid as [_ Hdef]. apply Hdef. eapply list_elem_of_lookup_2, Hd. }
  { lia. }
  rewrite Hcompile. cbn [mbind option_bind].
  eexists _, _. split; [reflexivity | ].
  cbn [cxaBeginCatchFunction typeIds diFinalized functions].
  split; [exact Hcxa | ]. split; [reflexivity | ]. split; [rewrite Hdi; reflexivity | ].
  cbn [m_functions] in Hl, Hother, Hmine.
  split; [ | split; [ | split; [ | split; [ | split ] ] ] ].
  - rewrite Hl, length_app, Hp1, Hlc. reflexivity.
  - intros h Hh. rewrite Hother by lia.
    rewrite lookup_app_l by lia. subst m1. cbn. apply lookup_app_l. exact Hh.
  - rewrite Hother by lia. rewrite lookup_app_l by lia.
    subst m1. cbn. subst p. apply list_lookup_middle. reflexivity.
  - intros k Hk. rewrite Hother by lia.
    destruct (Hcreated k) as (ity & ty & _ & _ & Hc); [unfold functions_size; lia | ].
    eexists. split.
    + rewrite lookup_app_r by lia. rewrite Hp1.
      replace (p + 1 + k - (p + 1))%nat with k by lia. exact Hc.
    + reflexivity.
  - intros j def Hd.
    assert (Hj : (j < length (functions_defs irModule))%nat)
      by (eapply lookup_lt_Some, Hd).
    destruct (Hcreated (length (functions_imports irModule) + j)%nat)
      as (ity & ty & Hity & Hty & Hc);
      [unfold functions_size; lia | ].
    assert (Hity' : ity = type def).
    { cbn in Hity. unfold functions_getType in Hity.
      destruct (Nat.ltb_spec (length (functions_imports irModule) + j)
                  (length (functions_imports irModule))); [lia | ].
      replace (length (functions_imports irModule) + j
               - length (functions_imports irModule))%nat with j in Hity by lia.
      rewrite Hd in Hity. cbn in Hity. congruence. }
    subst ity.
    assert (Htid : typeIds ctx !! index (type def)
                   = Some (PtrToInt (GlobalAddress (getExternalName "typeId" (index (type def))))
                             iptrType)).
    { subst ctx tids. cbn [typeIds]. rewrite list_lookup_fmap.
      rewrite lookup_seq_lt; [reflexivity | ]. eapply lookup_lt_Some, Hty. }
    specialize (Hmine j def _ ltac:(lia) Hd Htid).
    rewrite lookup_app_r in Hmine by lia. rewrite Hp1 in Hmine.
    replace (p + 1 + length (functions_imports irModule) + j - (p + 1))%nat
      with (length (functions_imports irModule) + j)%nat in Hmine by lia.
    cbn in Hc. rewrite Hc in Hmine. cbn in Hmine.
    eexists _, ty. split; [ | split; [exact Hmine | ] ].
    + specialize (Hfns (length (functions_imports irModule) + j)%nat).
      cbn [Nat.add] in Hfns. rewrite Hfns.
      * rewrite Hp1. do 2 f_equal. lia.
      * unfold functions_size. lia.
    + cbn. split; [exact Hty | ]. split.
      * unfold functionName.
        destruct (Nat.leb_spec (length (functions_imports irModule))
                    (length (functions_imports irModule) + j)); [ | lia].
        f_equal. lia.
      * repeat split; eauto.
  - intros j Hj. rewrite Hg. apply elem_of_app. right.
    apply list_elem_of_fmap. exists j. split; [reflexivity | ].
    apply elem_of_seq. lia.
Qed.

Lemma getExternalName_functionImport k :
  getExternalName "functionImport" k <> "__cxa_begin_catch".
Proof. unfold getExternalName. cbn. discriminate. Qed.

Lemma getExternalName_functionDef k :
  getExternalName "functionDef" k <> "__cxa_begin_catch".
Proof. unfold getExternalName. cbn. discriminate. Qed.

Lemma personalityName_not_cxa : personalityName target <> "__cxa_begin_catch".
Proof. unfold personalityName. destruct (_WIN32 target); discriminate. Qed.

(** C6. On a module whose type indices are valid emitModule completes,
    and every function definition j has as prefix data exactly the
    two-element array of machine-word integers
    [ptrtoint functionDefInstance<j>, typeIds[def.type.index]], where the
    second element is the pointer-to-integer cast of the external symbol
    typeId<def.type.index> and functionDefInstance<j> is declared as an
    external global; the personality function is attached to it. *)
Theorem emitModule_prefix_data (irModule : IRModule') (outLLVMModule : LLVMModule') :
  validTypeIndices irModule ->
  exists ctx m,
    emitModule target asLLVMType emit irModule outLLVMModule = Some (ctx, m) /\
    forall j def, functions_defs irModule !! j = Some def ->
      exists function f personalityFunction pf,
        functions ctx !! (length (functions_imports irModule) + j)%nat
        = Some (Some function) /\
        m_functions m !! function = Some f /\
        fn_name f = getExternalName "functionDef" j /\
        fn_prefixData f
        = Some (ConstantArray (ArrayTy iptrType 2)
                  [PtrToInt (GlobalAddress (getExternalName "functionDefInstance" j))
                            iptrType;
                   PtrToInt (GlobalAddress (getExternalName "typeId" (index (type def))))
                            iptrType]) /\
        typeIds ctx !! index (type def)
        = Some (PtrToInt (GlobalAddress (getExternalName "typeId" (index (type def))))
                         iptrType) /\
        importedGlobal (getExternalName "functionDefInstance" j) ∈ m_globals m /\
        fn_personalityFn f = Some (FunctionAddress personalityFunction) /\
        m_functions m !! personalityFunction = Some pf /\
        fn_name pf = personalityName target.
Proof.
  intros Hvalid.
  destruct (emitModule_run irModule outLLVMModule Hvalid)
    as (ctx & m & Hrun & _ & Htids & _ & _ & _ & Hp & _ & Hdefs & Hglobals).
  exists ctx, m. split; [exact Hrun | ].
  intros j def Hd.
  destruct (Hdefs j def Hd)
    as (f & ty & Hfn & Hf & Hty & Hname & _ & _ & _ & Hpers & Hprefix & _).
  eexists _, f, _, _. split; [exact Hfn | ]. split; [exact Hf | ].
  split; [exact Hname | ]. split; [exact Hprefix | ]. split.
  - rewrite Htids, list_lookup_fmap.
    rewrite lookup_seq_lt; [reflexivity | ]. eapply lookup_lt_Some, Hty.
  - split; [apply Hglobals; eapply lookup_lt_Some, Hd | ].
    split; [exact Hpers | ]. split; [exact Hp | reflexivity].
Qed.

(** C7. emitModule creates the personality function, a declaration of
    type () -> i32 named __C_specific_handler where _WIN32 is defined and
    __gxx_personality_v0 elsewhere.  A function named __cxa_begin_catch
    is in the emitted module exactly when USE_WINDOWS_SEH is false; it is
    then the declaration of type i8* -> i8* that the constructor of
    EmitModuleContext created, kept in cxaBeginCatchFunction, and every
    function emitModule creates comes after it.  Under USE_WINDOWS_SEH
    the constructor adds nothing to the module.  Where USE_WINDOWS_SEH is
    the test of _WIN32, the personality function is __C_specific_handler
    on the targets with SEH and __gxx_personality_v0 on the others. *)
Theorem emitModule_personality_and_cxa_begin_catch
    (irModule : IRModule') (outLLVMModule : LLVMModule') :
  validTypeIndices irModule ->
  (forall f, f ∈ m_functions outLLVMModule -> fn_name f <> "__cxa_begin_catch") ->
  exists ctx m,
    emitModule target asLLVMType emit irModule outLLVMModule = Some (ctx, m) /\
    (exists personalityFunction,
       m_functions m !! personalityFunction
       = Some (mkLLVMFunction
                 (if _WIN32 target then "__C_specific_handler" else "__gxx_personality_v0")
                 (FunctionTy i32Type []) ExternalLinkage C_CallingConv None None None)) /\
    ((exists f, f ∈ m_functions m /\ fn_name f = "__cxa_begin_catch")
     <-> USE_WINDOWS_SEH target = false) /\
    (USE_WINDOWS_SEH target = false ->
     let cxa := length (m_functions outLLVMModule) in
     m_functions (EmitModuleContext_new target outLLVMModule).2
     = m_functions outLLVMModule
       ++ [mkLLVMFunction "__cxa_begin_catch" (FunctionTy i8PtrType [i8PtrType])
             ExternalLinkage C_CallingConv None None None] /\
     cxaBeginCatchFunction (EmitModuleContext_new target outLLVMModule).1 = Some cxa /\
     cxaBeginCatchFunction ctx = Some cxa /\
     m_functions m !! cxa
     = Some (mkLLVMFunction "__cxa_begin_catch" (FunctionTy i8PtrType [i8PtrType])
               ExternalLinkage C_CallingConv None None None) /\
     forall h f, m_functions m !! h = Some f ->
       (length (m_functions outLLVMModule) <= h)%nat ->
       fn_name f <> "__cxa_begin_catch" -> (cxa < h)%nat) /\
    (USE_WINDOWS_SEH target = true ->
     cxaBeginCatchFunction ctx = None /\
     (EmitModuleContext_new target outLLVMModule).2 = outLLVMModule) /\
    (USE_WINDOWS_SEH target = _WIN32 target ->
     personalityName target
     = if USE_WINDOWS_SEH target then "__C_specific_handler" else "__gxx_personality_v0").
Proof.
  intros Hvalid Hfresh.
  destruct (emitModule_run irModule outLLVMModule Hvalid)
    as (ctx & m & Hrun & Hcxa & _ & _ & Hlen & Hpre & Hp & Himports & Hdefs & _).
  exists ctx, m. split; [exact Hrun | ].
  split; [eexists; exact Hp | ].
  assert (Hnames : forall h f, m_functions m !! h = Some f ->
            fn_name f = "__cxa_begin_catch" ->
            (h < length (m_functions outLLVMModule
                         ++ (if USE_WINDOWS_SEH target then []
                             else [cxaBeginCatchDeclaration])))%nat).
  { intros h f Hh Hname.
    set (p := length (m_functions outLLVMModule
                      ++ (if USE_WINDOWS_SEH target then []
                          else [cxaBeginCatchDeclaration]))) in *.
    destruct (decide (h < p)%nat) as [|Hge]; [assumption | exfalso].
    pose proof (lookup_lt_Some _ _ _ Hh) as Hlt. rewrite Hlen in Hlt.
    destruct (decide (h = p)) as [->|Hne].
    - rewrite Hp in Hh. injection Hh as <-. cbn in Hname.
      exact (personalityName_not_cxa Hname).
    - unfold functions_size in Hlt.
      destruct (decide (h - (p + 1) < length (functions_imports irModule))%nat) as [Hi|Hd].
      + destruct (Himports (h - (p + 1))%nat Hi) as (f' & Hf' & Hn').
        replace (p + 1 + (h - (p + 1)))%nat with h in Hf' by lia.
        rewrite Hh in Hf'. injection Hf' as <-.
        rewrite Hn' in Hname. unfold functionName in Hname.
        destruct (Nat.leb_spec (length (functions_imports irModule)) (h - (p + 1))); [lia | ].
        exact (getExternalName_functionImport _ Hname).
      + assert (is_Some (functions_defs irModule
                           !! (h - (p + 1) - length (functions_imports irModule))%nat))
          as [def Hdef] by (apply lookup_lt_is_Some_2; lia).
        destruct (Hdefs _ def Hdef) as (f' & ty & _ & Hf' & _ & Hn' & _).
        replace (p + 1 + length (functions_imports irModule)
                 + (h - (p + 1) - length (functions_imports irModule)))%nat
          with h in Hf' by lia.
        rewrite Hh in Hf'. injection Hf' as <-.
        rewrite Hn' in Hname. exact (getExternalName_functionDef _ Hname). }
  split; [ | split ].
  - split.
    + intros (f & Hin & Hname).
      apply list_elem_of_lookup in Hin as [h Hh].
      pose proof (Hnames h f Hh Hname) as Hlt.
      rewrite Hpre in Hh by exact Hlt.
      destruct (USE_WINDOWS_SEH target); [ | reflexivity]. exfalso.
      rewrite app_nil_r in Hh. eapply Hfresh; [ | exact Hname].
      eapply list_elem_of_lookup_2, Hh.
    + intros Hseh. rewrite Hseh in Hpre.
      exists cxaBeginCatchDeclaration. split; [ | reflexivity].
      eapply list_elem_of_lookup_2.
      rewrite (Hpre (length (m_functions outLLVMModule)));
        [apply list_lookup_middle; reflexivity | rewrite length_app; cbn; lia].
  - intros Hseh cxa. subst cxa. rewrite Hseh in *.
    unfold EmitModuleContext_new. rewrite Hseh. cbn.
    split; [reflexivity | ]. split; [reflexivity | ]. split; [exact Hcxa | ]. split.
    + rewrite (Hpre (length (m_functions outLLVMModule)));
        [apply list_lookup_middle; reflexivity | rewrite length_app; cbn; lia].
    + intros h f Hh Hge Hname.
      destruct (decide (h = length (m_functions outLLVMModule))) as [->|]; [ | lia].
      exfalso. rewrite Hpre in Hh by (rewrite length_app; cbn; lia).
      rewrite list_lookup_middle in Hh by reflexivity.
      injection Hh as <-. apply Hname. reflexivity.
  - split.
    + intros Hseh. rewrite Hseh in *. split; [exact Hcxa | ].
      unfold EmitModuleContext_new. rewrite Hseh. reflexivity.
    + intros ->. reflexivity.
Qed.

End EmitProperties.

Lemma exampleModule_valid : validTypeIndices exampleModule.
Proof.
  split; intros x Hx; cbn in Hx;
    repeat (apply elem_of_cons in Hx as [->|Hx]; [cbn; lia | ]);
    by apply not_elem_of_nil in Hx.
Qed.

Lemma emitModule_prefix_data_witness :
  exists ctx m function f,
    emitModule (mkTarget false false) (fun _ : unit => i32Type) (fun _ _ _ => tt)
      exampleModule (mkLLVMModule [] [])
    = Some (ctx, m) /\
    functions ctx !! 2%nat = Some (Some function) /\
    m_functions m !! function = Some f /\
    fn_name f = "functionDef1" /\
    fn_prefixData f
    = Some (ConstantArray (ArrayTy iptrType 2)
              [PtrToInt (GlobalAddress "functionDefInstance1") iptrType;
               PtrToInt (GlobalAddress "typeId1") iptrType]).
Proof.
  destruct (emitModule_prefix_data (mkTarget false false) (fun _ : unit => i32Type)
              (fun _ _ _ => tt) exampleModule (mkLLVMModule [] []) exampleModule_valid)
    as (ctx & m & Hrun & H).
  destruct (H 1%nat (mkFunctionDef (mkIndexedFunctionType 1) tt) eq_refl)
    as (function & f & _ & _ & Hfn & Hf & Hname & Hprefix & _).
  exists ctx, m, function, f.
  split; [exact Hrun | ]. split; [exact Hfn | ]. split; [exact Hf | ].
  split; [exact Hname | exact Hprefix].
Defined.

Lemma emitModule_personality_and_cxa_begin_catch_witness :
  exists ctx m,
    emitModule (mkTarget false false) (fun _ : unit => i32Type) (fun _ _ _ => tt)
      exampleModule (mkLLVMModule [] [])
    = Some (ctx, m) /\
    m_functions m !! 0%nat
    = Some (mkLLVMFunction "__cxa_begin_catch" (FunctionTy i8PtrType [i8PtrType])
              ExternalLinkage C_CallingConv None None None).
Proof.
  destruct (emitModule_personality_and_cxa_begin_catch (mkTarget false false)
              (fun _ : unit => i32Type) (fun _ _ _ => tt) exampleModule
              (mkLLVMModule [] []) exampleModule_valid)
    as (ctx & m & Hrun & _ & _ & Hcxa & _).
  - intros f Hf. cbn in Hf. by apply not_elem_of_nil in Hf.
  - exists ctx, m. split; [exact Hrun | ].
    destruct (Hcxa eq_refl) as (_ & _ & _ & H & _). exact H.
Defined.

(* --------------------------------------------------------------------- *)
(** ** The module and the context emitModule builds *)

Section EmitResult.

Context {FunctionType TableType MemoryType GlobalType ExceptionTypeSig : Type}.
Context {Code Body : Type}.
Variable target : Target.
Variable asLLVMType : FunctionType -> LLVMType.
Variable emit : EmitModuleContext ->
                @IRModule FunctionType TableType MemoryType GlobalType ExceptionTypeSig Code ->
                @FunctionDef Code -> Body.

Abbreviation IRModule' :=
  (@IRModule FunctionType TableType MemoryType GlobalType ExceptionTypeSig Code).
Abbreviation LLVMModule' := (@LLVMModule Body).

Lemma createFunctions_inv (irModule : IRModule') n i fns (m : LLVMModule') r :
  createFunctions asLLVMType irModule n i fns m = Some r ->
  forall k, (i <= k < i + n)%nat ->
    exists ity ty, functions_getType irModule k = Some ity /\
                   types irModule !! index ity = Some ty.
Proof.
  revert i fns m. induction n as [|n IH]; intros i fns m Hrun k Hk; [lia | ].
  cbn [createFunctions] in Hrun.
  destruct (functions_getType irModule i) as [ity|] eqn:Hity; [ | discriminate].
  cbn in Hrun.
  destruct (types irModule !! index ity) as [ty|] eqn:Hty; [ | discriminate].
  cbn in Hrun.
  destruct (decide (k = i)) as [->|Hne]; [eauto | ].
  eapply IH; [exact Hrun | lia].
Qed.

Lemma emitModule_inv (irModule : IRModule') (outLLVMModule : LLVMModule') r :
  emitModule target asLLVMType emit irModule outLLVMModule = Some r ->
  validTypeIndices irModule.
Proof.
  unfold emitModule.
  destruct (EmitModuleContext_new target outLLVMModule) as [ctx0 m0].
  destruct (Function_Create _ _ _ m0) as [p m1].
  repeat match goal with
         | |- context [importConstants ?b ?w ?n ?i ?o ?m] =>
             destruct (importConstants b w n i o m) as [? ?]
         | |- context [createImportedConstant ?n ?m] =>
             destruct (createImportedConstant n m) as [? ?]
         end.
  destruct (createFunctions _ _ _ _ _ _) as [[fns m2]|] eqn:Hcreate; [ | discriminate].
  intros _.
  pose proof (createFunctions_inv _ _ _ _ _ _ Hcreate) as Hall.
  split.
  - intros ity Hin. apply list_elem_of_lookup in Hin as [k Hk].
    destruct (Hall k) as (ity' & ty & Hity & Hty).
    { pose proof (lookup_lt_Some _ _ _ Hk). unfold functions_size. lia. }
    unfold functions_getType in Hity.
    destruct (Nat.ltb_spec k (length (functions_imports irModule))) as [_|Hge].
    + rewrite Hk in Hity. injection Hity as <-. eapply lookup_lt_Some, Hty.
    + pose proof (lookup_lt_Some _ _ _ Hk). lia.
  - intros def Hin. apply list_elem_of_lookup in Hin as [j Hj].
    destruct (Hall (length (functions_imports irModule) + j)%nat) as (ity' & ty & Hity & Hty).
    { pose proof (lookup_lt_Some _ _ _ Hj). unfold functions_size. lia. }
    unfold functions_getType in Hity.
    destruct (Nat.ltb_spec (length (functions_imports irModule) + j)
                (length (functions_imports irModule))) as [?|_]; [lia | ].
    replace (length (functions_imports irModule) + j
             - length (functions_imports irModule))%nat with j in Hity by lia.
    rewrite Hj in Hity. cbn in Hity. injection Hity as <-. eapply lookup_lt_Some, Hty.
Qed.

Lemma preamble_length (outLLVMModule : LLVMModule') :
  length (preamble target outLLVMModule)
  = (length (m_functions outLLVMModule
             ++ (if USE_WINDOWS_SEH target then [] else [cxaBeginCatchDeclaration])) + 1)%nat.
Proof. unfold preamble. rewrite app_assoc, length_app. reflexivity. Qed.

Lemma declaredFunction_run (irModule : IRModule') k ity ty :
  functions_getType irModule k = Some ity ->
  types irModule !! index ity = Some ty ->
  declaredFunction (Body := Body) asLLVMType irModule k
  = Some (mkLLVMFunction (functionName irModule k) (asLLVMType ty)
            ExternalLinkage Wasm_CallingConv None None None).
Proof. intros Hity Hty. unfold declaredFunction. rewrite Hity. cbn. rewrite Hty. reflexivity. Qed.

Lemma emitModule_result (irModule : IRModule') (outLLVMModule : LLVMModule') :
  validTypeIndices irModule ->
  let ctx := compilationContext target irModule outLLVMModule in
  let first := length (preamble target outLLVMModule) in
  let numImports := length (functions_imports irModule) in
  exists m,
    emitModule target asLLVMType emit irModule outLLVMModule
    = Some (mkEmitModuleContext
              (typeIds ctx) (tableOffsets ctx) (memoryOffsets ctx) (ctx_globals ctx)
              (exceptionTypeInstances ctx) (functions ctx) (defaultMemoryOffset ctx)
              (defaultTableOffset ctx) (moduleInstancePointer ctx) (tableReferenceBias ctx)
              (tryPrologueDummyFunction ctx) (cxaBeginCatchFunction ctx) 1, m) /\
    m_globals m = m_globals outLLVMModule ++ declaredGlobals irModule /\
    length (m_functions m) = (first + functions_size irModule)%nat /\
    take first (m_functions m) = preamble target outLLVMModule /\
    (forall k, (k < numImports)%nat ->
       is_Some (declaredFunction (Body := Body) asLLVMType irModule k) /\
       m_functions m !! (first + k)%nat = declaredFunction (Body := Body) asLLVMType irModule k) /\
    (forall j def, functions_defs irModule !! j = Some def ->
       exists f tid,
         declaredFunction (Body := Body) asLLVMType irModule (numImports + j) = Some f /\
         typeIds ctx !! index (type def) = Some tid /\
         m_functions m !! (first + numImports + j)%nat
         = Some (compiled emit ctx irModule (FunctionAddress (first - 1)) tid j def f)).
Proof.
  intros Hvalid ctx first numImports. subst numImports.
  pose proof (preamble_length outLLVMModule) as Hfirst. fold first in Hfirst.
  set (pre := m_functions outLLVMModule
              ++ (if USE_WINDOWS_SEH target then [] else [cxaBeginCatchDeclaration])) in *.
  set (p := length pre) in *.
  unfold emitModule.
  destruct (EmitModuleContext_new target outLLVMModule) as [ctx0 m0] eqn:Hnew.
  assert (Hm0 : m0 = mkLLVMModule (m_globals outLLVMModule) pre /\
                cxaBeginCatchFunction ctx0
                = (if USE_WINDOWS_SEH target then None
                   else Some (length (m_functions outLLVMModule))) /\
                tryPrologueDummyFunction ctx0 = None /\ diFinalized ctx0 = 0%nat).
  { unfold EmitModuleContext_new in Hnew. subst pre.
    destruct (USE_WINDOWS_SEH target); cbn in Hnew; injection Hnew as <- <-; cbn.
    - rewrite app_nil_r. destruct outLLVMModule; auto.
    - auto. }
  destruct Hm0 as (-> & Hcxa & Htry & Hdi).
  unfold Function_Create at 1. cbn [m_functions m_globals]. fold p.
  rewrite !importConstants_run. cbn [m_functions m_globals app fst snd].
  unfold createImportedConstant. cbn [m_functions m_globals].
  match goal with |- context [createFunctions _ _ _ _ _ ?m] => set (m1 := m) end.
  destruct (createFunctions_run asLLVMType irModule (functions_size irModule) 0
              (replicate (functions_size irModule) None) m1)
    as (fns & created & Hcreate & Hlc & Hlf & Hcreated & Hfns & _).
  { intros k Hk. apply validTypeIndices_getType; [assumption | lia]. }
  { rewrite length_replicate. lia. }
  rewrite Hcreate. cbn [mbind option_bind].
  assert (Hp1 : length (m_functions m1) = first).
  { subst m1. cbn. rewrite length_app. cbn. lia. }
  assert (Hpre1 : m_functions m1 = preamble target outLLVMModule).
  { subst m1. cbn. unfold preamble. rewrite app_assoc. reflexivity. }
  assert (Hfnseq : fns = functions ctx).
  { subst ctx. cbn [functions compilationContext]. fold first.
    apply list_eq. intros k. rewrite list_lookup_fmap.
    destruct (decide (k < functions_size irModule)%nat) as [Hk|Hk].
    - pose proof (Hfns k Hk) as Hk'. cbn [Nat.add] in Hk'.
      rewrite Hk', Hp1, lookup_seq_lt by exact Hk. reflexivity.
    - rewrite lookup_ge_None_2 by (rewrite Hlf, length_replicate; lia).
      rewrite lookup_seq_ge by lia. reflexivity. }
  assert (Hctx : forall d,
    mkEmitModuleContext
      ([] ++ ((fun k => asIptr (GlobalAddress (getExternalName "typeId" k)))
                <$> seq 0 (length (types irModule))))
      ([] ++ ((fun k => asIptr (GlobalAddress (getExternalName "tableOffset" k)))
                <$> seq 0 (length (tables irModule))))
      ([] ++ ((fun k => asIptr (GlobalAddress (getExternalName "memoryOffset" k)))
                <$> seq 0 (length (memories irModule))))
      ([] ++ ((fun k => id (GlobalAddress (getExternalName "global" k)))
                <$> seq 0 (length (globals irModule))))
      ([] ++ ((fun k => id (GlobalAddress (getExternalName "exceptionType" k)))
                <$> seq 0 (length (exceptionTypes irModule))))
      fns
      (([] ++ ((fun k => asIptr (GlobalAddress (getExternalName "memoryOffset" k)))
                 <$> seq 0 (length (memories irModule)))) !! 0%nat)
      (([] ++ ((fun k => asIptr (GlobalAddress (getExternalName "tableOffset" k)))
                 <$> seq 0 (length (tables irModule)))) !! 0%nat)
      (Some (GlobalAddress "moduleInstance"))
      (Some (PtrToInt (GlobalAddress "tableReferenceBias") iptrType))
      (tryPrologueDummyFunction ctx0) (cxaBeginCatchFunction ctx0) d
    = mkEmitModuleContext
        (typeIds ctx) (tableOffsets ctx) (memoryOffsets ctx) (ctx_globals ctx)
        (exceptionTypeInstances ctx) (functions ctx) (defaultMemoryOffset ctx)
        (defaultTableOffset ctx) (moduleInstancePointer ctx) (tableReferenceBias ctx)
        (tryPrologueDummyFunction ctx) (cxaBeginCatchFunction ctx) d).
  { intros d. rewrite Htry, Hcxa, Hfnseq. reflexivity. }
  rewrite !Hctx, Hdi.
  replace (mkEmitModuleContext
             (typeIds ctx) (tableOffsets ctx) (memoryOffsets ctx) (ctx_globals ctx)
             (exceptionTypeInstances ctx) (functions ctx) (defaultMemoryOffset ctx)
             (defaultTableOffset ctx) (moduleInstancePointer ctx) (tableReferenceBias ctx)
             (tryPrologueDummyFunction ctx) (cxaBeginCatchFunction ctx) 0)
    with ctx by reflexivity.
  destruct (compileFunctions_run emit ctx irModule (FunctionAddress p)
              (p + 1 + length (functions_imports irModule))
              (length (functions_defs irModule)) 0
              (mkLLVMModule (m_globals m1) (m_functions m1 ++ created)))
    as (m' & Hcompile & Hg & Hl & Hother & Hmine).
  { intros j Hj. rewrite <- Hfnseq.
    specialize (Hfns (length (functions_imports irModule) + j)%nat).
    cbn [Nat.add] in Hfns. rewrite Hfns.
    - rewrite Hp1. do 2 f_equal. lia.
    - unfold functions_size. lia. }
  { intros j def Hj Hd. subst ctx. cbn [typeIds compilationContext].
    apply lookup_lt_is_Some_2. unfold importedConstants. rewrite length_fmap, length_seq.
    destruct Hvalid as [_ Hdef]. apply Hdef. eapply list_elem_of_lookup_2, Hd. }
  { lia. }
  rewrite Hcompile. cbn [mbind option_bind].
  exists m'. split; [reflexivity | ].
  cbn [m_functions m_globals] in Hg, Hl, Hother, Hmine.
  split; [ | split; [ | split; [ | split ] ] ].
  - rewrite Hg. subst m1. cbn [m_globals]. unfold declaredGlobals, importedGlobals.
    rewrite <- !app_assoc. reflexivity.
  - rewrite Hl, length_app, Hp1, Hlc. reflexivity.
  - apply list_eq. intros h. rewrite lookup_take.
    destruct (decide (h < first)%nat) as [Hh|Hh].
    + rewrite Hother by lia. rewrite lookup_app_l by lia. rewrite Hpre1. reflexivity.
    + rewrite lookup_ge_None_2; [reflexivity | ]. lia.
  - intros k Hk.
    destruct (Hcreated k) as (ity & ty & Hity & Hty & Hc); [unfold functions_size; lia | ].
    cbn [Nat.add] in Hity.
    rewrite (declaredFunction_run irModule k ity ty Hity Hty).
    split; [eauto | ].
    rewrite Hother by lia. rewrite lookup_app_r by lia. rewrite Hp1.
    replace (first + k - first)%nat with k by lia. exact Hc.
  - intros j def Hd.
    assert (Hj : (j < length (functions_defs irModule))%nat)
      by (eapply lookup_lt_Some, Hd).
    destruct (Hcreated (length (functions_imports irModule) + j)%nat)
      as (ity & ty & Hity & Hty & Hc);
      [unfold functions_size; lia | ].
    cbn [Nat.add] in Hity, Hc.
    destruct (lookup_lt_is_Some_2 (typeIds ctx) (index (type def))) as [tid Htid].
    { subst ctx. cbn [typeIds compilationContext].
      unfold importedConstants. rewrite length_fmap, length_seq.
      destruct Hvalid as [_ Hdef]. apply Hdef. eapply list_elem_of_lookup_2, Hd. }
    eexists _, tid. split; [apply (declaredFunction_run irModule _ ity ty Hity Hty) | ].
    split; [exact Htid | ].
    specialize (Hmine j def tid ltac:(lia) Hd Htid).
    rewrite lookup_app_r in Hmine by lia. rewrite Hp1 in Hmine.
    replace (p + 1 + length (functions_imports irModule) + j - first)%nat
      with (length (functions_imports irModule) + j)%nat in Hmine by lia.
    rewrite Hc in Hmine. cbn [fmap option_fmap option_map] in Hmine.
    replace (first + length (functions_imports irModule) + j)%nat
      with (p + 1 + length (functions_imports irModule) + j)%nat by lia.
    replace (first - 1)%nat with p by lia.
    exact Hmine.
Qed.

Lemma importedGlobals_length baseName n : length (importedGlobals baseName n) = n.
Proof. unfold importedGlobals. rewrite length_fmap. apply length_seq. Qed.

Lemma importedGlobals_shape baseName n g :
  g ∈ importedGlobals baseName n ->
  exists k, (k < n)%nat /\ g = importedGlobal (getExternalName baseName k).
Proof.
  unfold importedGlobals. intros H. apply list_elem_of_fmap in H as (k & -> & Hk).
  apply elem_of_seq in Hk. exists k. split; [lia | reflexivity].
Qed.

(** X21.  The global variables emitModule adds to the LLVM module are the
    imported constants, in the order typeId, tableOffset, memoryOffset,
    global, exceptionType (one per entry of the IR module), moduleInstance,
    tableReferenceBias, functionDefInstance (one per definition); each is
    an external i8 that is not constant and has no initializer. *)
Theorem emitModule_declares_globals
    (irModule : IRModule') (outLLVMModule : LLVMModule') ctx m :
  emitModule target asLLVMType emit irModule outLLVMModule = Some (ctx, m) ->
  m_globals m = m_globals outLLVMModule ++ declaredGlobals irModule /\
  length (declaredGlobals irModule)
  = (length (types irModule) + length (tables irModule) + length (memories irModule)
     + length (globals irModule) + length (exceptionTypes irModule) + 2
     + length (functions_defs irModule))%nat /\
  (forall g, g ∈ declaredGlobals irModule ->
     gv_type g = i8Type /\ gv_isConstant g = false /\
     gv_linkage g = ExternalLinkage /\ gv_initializer g = None) /\
  (forall j, (j < length (functions_defs irModule))%nat ->
     m_globals m !! (length (m_globals outLLVMModule) + length (types irModule)
                     + length (tables irModule) + length (memories irModule)
                     + length (globals irModule) + length (exceptionTypes irModule)
                     + 2 + j)%nat
     = Some (importedGlobal (getExternalName "functionDefInstance" j))).
Proof.
  intros Hrun. pose proof (emitModule_inv _ _ _ Hrun) as Hvalid.
  destruct (emitModule_result irModule outLLVMModule Hvalid) as (m' & Hrun' & Hg & _).
  rewrite Hrun in Hrun'. injection Hrun' as _ <-.
  split; [exact Hg | ]. split; [ | split ].
  - unfold declaredGlobals. rewrite !length_app, !importedGlobals_length. cbn. lia.
  - intros g Hin. unfold declaredGlobals in Hin.
    repeat (apply elem_of_app in Hin as [Hin|Hin];
            [apply importedGlobals_shape in Hin as (k & _ & ->); repeat split | ]).
    apply elem_of_cons in Hin as [->|Hin]; [repeat split | ].
    apply elem_of_cons in Hin as [->|Hin]; [repeat split | ].
    apply importedGlobals_shape in Hin as (k & _ & ->). repeat split.
  - intros k Hk. rewrite Hg. unfold declaredGlobals.
    rewrite lookup_app_r by lia.
    repeat (rewrite lookup_app_r by (rewrite ?importedGlobals_length; cbn; lia);
            rewrite ?importedGlobals_length).
    unfold importedGlobals. rewrite list_lookup_fmap.
    match goal with |- _ <$> seq 0 _ !! ?i = _ => replace i with k by (cbn; lia) end.
    rewrite lookup_seq_lt by exact Hk. reflexivity.
Qed.

(** X22.  The context emitModule returns: typeIds, tableOffsets and
    memoryOffsets are the addresses of the imported constants converted
    to iptr, globals and exceptionTypeInstances are the addresses
    themselves, in index order; defaultTableOffset and
    defaultMemoryOffset are the entries of index 0 when the module has a
    table or a memory and are not set otherwise; the debug information
    was finalized once. *)
Theorem emitModule_context
    (irModule : IRModule') (outLLVMModule : LLVMModule') ctx m :
  emitModule target asLLVMType emit irModule outLLVMModule = Some (ctx, m) ->
  typeIds ctx
  = (fun i => PtrToInt (GlobalAddress (getExternalName "typeId" i)) iptrType)
      <$> seq 0 (length (types irModule)) /\
  tableOffsets ctx
  = (fun i => PtrToInt (GlobalAddress (getExternalName "tableOffset" i)) iptrType)
      <$> seq 0 (length (tables irModule)) /\
  memoryOffsets ctx
  = (fun i => PtrToInt (GlobalAddress (getExternalName "memoryOffset" i)) iptrType)
      <$> seq 0 (length (memories irModule)) /\
  ctx_globals ctx
  = (fun i => GlobalAddress (getExternalName "global" i))
      <$> seq 0 (length (globals irModule)) /\
  exceptionTypeInstances ctx
  = (fun i => GlobalAddress (getExternalName "exceptionType" i))
      <$> seq 0 (length (exceptionTypes irModule)) /\
  defaultTableOffset ctx
  = (if decide (tables irModule = []) then None
     else Some (PtrToInt (GlobalAddress (getExternalName "tableOffset" 0)) iptrType)) /\
  defaultMemoryOffset ctx
  = (if decide (memories irModule = []) then None
     else Some (PtrToInt (GlobalAddress (getExternalName "memoryOffset" 0)) iptrType)) /\
  moduleInstancePointer ctx = Some (GlobalAddress "moduleInstance") /\
  tableReferenceBias ctx = Some (PtrToInt (GlobalAddress "tableReferenceBias") iptrType) /\
  tryPrologueDummyFunction ctx = None /\
  diFinalized ctx = 1%nat.
Proof.
  intros Hrun. pose proof (emitModule_inv _ _ _ Hrun) as Hvalid.
  destruct (emitModule_result irModule outLLVMModule Hvalid) as (m' & Hrun' & _).
  rewrite Hrun in Hrun'. injection Hrun' as -> _. cbn.
  repeat (split; [reflexivity | ]).
  split; [ | split; [ | repeat split ] ].
  - unfold importedConstants. destruct (tables irModule); reflexivity.
  - unfold importedConstants. destruct (memories irModule); reflexivity.
Qed.

(** X23.  emitModule keeps what was in the LLVM module and adds one LLVM
    function per function of the IR module, in index order, imports
    first: function i is functionImport<i> or functionDef<i - imports>,
    has the LLVM type of its IR type, external linkage and the wasm
    calling convention, and is the entry i of the context's functions; an
    import has no body, no personality function and no prefix data. *)
Theorem emitModule_declares_functions
    (irModule : IRModule') (outLLVMModule : LLVMModule') ctx m :
  emitModule target asLLVMType emit irModule outLLVMModule = Some (ctx, m) ->
  let first := length (preamble target outLLVMModule) in
  let numImports := length (functions_imports irModule) in
  take first (m_functions m) = preamble target outLLVMModule /\
  length (m_functions m) = (first + functions_size irModule)%nat /\
  length (functions ctx) = functions_size irModule /\
  forall functionIndex, (functionIndex < functions_size irModule)%nat ->
    functions ctx !! functionIndex = Some (Some (first + functionIndex)%nat) /\
    exists f ity functionType,
      m_functions m !! (first + functionIndex)%nat = Some f /\
      functions_getType irModule functionIndex = Some ity /\
      types irModule !! index ity = Some functionType /\
      fn_name f = (if (functionIndex <? numImports)%nat
                   then getExternalName "functionImport" functionIndex
                   else getExternalName "functionDef" (functionIndex - numImports)) /\
      fn_type f = asLLVMType functionType /\
      fn_linkage f = ExternalLinkage /\
      fn_callingConv f = Wasm_CallingConv /\
      ((functionIndex < numImports)%nat ->
       fn_personalityFn f = None /\ fn_prefixData f = None /\ fn_body f = None).
Proof.
  intros Hrun first numImports. pose proof (emitModule_inv _ _ _ Hrun) as Hvalid.
  destruct (emitModule_result irModule outLLVMModule Hvalid)
    as (m' & Hrun' & _ & Hlen & Hpre & Himports & Hdefs).
  rewrite Hrun in Hrun'. injection Hrun' as -> <-. cbn [functions].
  fold first in Hlen, Hpre, Himports, Hdefs. fold numImports in Himports, Hdefs.
  split; [exact Hpre | ]. split; [exact Hlen | ].
  split; [cbn; rewrite length_fmap; apply length_seq | ].
  intros i Hi. split.
  { cbn. rewrite list_lookup_fmap, lookup_seq_lt by exact Hi. reflexivity. }
  destruct (validTypeIndices_getType irModule i Hvalid Hi) as (ity & ty & Hity & Hty).
  pose proof (declaredFunction_run irModule i ity ty Hity Hty) as Hdecl.
  assert (Hname : functionName irModule i
                  = (if (i <? numImports)%nat
                     then getExternalName "functionImport" i
                     else getExternalName "functionDef" (i - numImports))).
  { unfold functionName. fold numImports.
    destruct (Nat.leb_spec numImports i); destruct (Nat.ltb_spec i numImports);
      try reflexivity; lia. }
  destruct (decide (i < numImports)%nat) as [Himp|Hdef].
  - destruct (Himports i Himp) as [_ Hf]. rewrite Hdecl in Hf.
    eexists _, ity, ty. split; [exact Hf | ].
    split; [exact Hity | ]. split; [exact Hty | ]. cbn.
    split; [exact Hname | ]. repeat split.
  - assert (is_Some (functions_defs irModule !! (i - numImports)%nat)) as [def Hd].
    { apply lookup_lt_is_Some_2. unfold functions_size in Hi. fold numImports in Hi. lia. }
    destruct (Hdefs _ def Hd) as (f & tid & Hf & _ & Hm).
    replace (numImports + (i - numImports))%nat with i in Hf by lia.
    replace (first + numImports + (i - numImports))%nat with (first + i)%nat in Hm by lia.
    rewrite Hdecl in Hf. injection Hf as <-.
    eexists _, ity, ty. split; [exact Hm | ].
    split; [exact Hity | ]. split; [exact Hty | ]. cbn.
    split; [exact Hname | ]. split; [reflexivity | ]. split; [reflexivity | ].
    split; [reflexivity | ]. intros ?. lia.
Qed.

(** X24.  Every body is compiled after all functions are declared: the
    context a definition's body is emitted with already maps every
    function index of the module to an LLVM function of the result, and
    it is the returned context before the debug information was
    finalized. *)
Theorem emitModule_bodies_after_all_declarations
    (irModule : IRModule') (outLLVMModule : LLVMModule') ctx m :
  emitModule target asLLVMType emit irModule outLLVMModule = Some (ctx, m) ->
  let first := length (preamble target outLLVMModule) in
  let numImports := length (functions_imports irModule) in
  let moduleContext :=
    mkEmitModuleContext
      (typeIds ctx) (tableOffsets ctx) (memoryOffsets ctx) (ctx_globals ctx)
      (exceptionTypeInstances ctx) (functions ctx) (defaultMemoryOffset ctx)
      (defaultTableOffset ctx) (moduleInstancePointer ctx) (tableReferenceBias ctx)
      (tryPrologueDummyFunction ctx) (cxaBeginCatchFunction ctx) 0 in
  diFinalized ctx = 1%nat /\
  (forall functionIndex, (functionIndex < functions_size irModule)%nat ->
     exists function,
       functions moduleContext !! functionIndex = Some (Some function) /\
       is_Some (m_functions m !! function)) /\
  (forall j def, functions_defs irModule !! j = Some def ->
     exists f,
       m_functions m !! (first + numImports + j)%nat = Some f /\
       fn_body f = Some (emit moduleContext irModule def)).
Proof.
  intros Hrun first numImports moduleContext.
  pose proof (emitModule_inv _ _ _ Hrun) as Hvalid.
  destruct (emitModule_result irModule outLLVMModule Hvalid)
    as (m' & Hrun' & _ & Hlen & _ & _ & Hdefs).
  rewrite Hrun in Hrun'. injection Hrun' as -> <-.
  fold first in Hlen, Hdefs. fold numImports in Hdefs.
  split; [reflexivity | ]. split.
  - intros i Hi. exists (first + i)%nat. split.
    + cbn. rewrite list_lookup_fmap, lookup_seq_lt by exact Hi. reflexivity.
    + apply lookup_lt_is_Some_2. lia.
  - intros j def Hd. destruct (Hdefs j def Hd) as (f & tid & _ & _ & Hm).
    eexists. split; [exact Hm | ]. reflexivity.
Qed.

(** X25.  emitModule completes exactly on the modules whose function
    type indices (of imports and definitions) are indices of the module's
    types; on any other it reads outside the vector of types. *)
Theorem emitModule_succeeds_iff_valid (irModule : IRModule') (outLLVMModule : LLVMModule') :
  is_Some (emitModule target asLLVMType emit irModule outLLVMModule)
  <-> validTypeIndices irModule.
Proof.
  split.
  - intros [r Hr]. eapply emitModule_inv, Hr.
  - intros Hvalid. destruct (emitModule_result irModule outLLVMModule Hvalid) as (m & Hm & _).
    rewrite Hm. eauto.
Qed.

Lemma pretty_N_go_not_I x s s' :
  s <> String "I"%char s' -> pretty_N_go x s <> String "I"%char s'.
Proof.
  revert s. induction (N.lt_wf_0 x) as [x _ IH]; intros s Hs.
  assert (x = 0 \/ 0 < x)%N as [->|Hx] by lia.
  - rewrite pretty_N_go_0. exact Hs.
  - rewrite pretty_N_go_step by exact Hx. apply IH.
    + apply N.div_lt; [exact Hx | reflexivity].
    + unfold pretty_N_char. intros H. repeat case_match; discriminate H.
Qed.

Lemma pretty_nat_not_I (n : nat) s : pretty n <> String "I"%char s.
Proof.
  unfold pretty, pretty_nat, pretty, pretty_N.
  case_decide; [discriminate | ]. apply pretty_N_go_not_I. discriminate.
Qed.

Lemma getExternalName_inj baseName i j :
  getExternalName baseName i = getExternalName baseName j -> i = j.
Proof.
  unfold getExternalName. intros H. apply String.app_inj in H.
  apply (inj pretty) in H. exact H.
Qed.

Lemma symbolName_inj s1 s2 : symbolName target s1 = symbolName target s2 -> s1 = s2.
Proof.
  destruct s1, s2; unfold symbolName, personalityName; intros H;
    try (apply getExternalName_inj in H; congruence);
    try reflexivity;
    try (destruct (_WIN32 target));
    try (unfold getExternalName in H; cbn in H; discriminate H).
  all: exfalso; unfold getExternalName in H; cbn in H; injection H as H;
    cbv beta iota delta [String.append] in H;
    first [exact (pretty_nat_not_I _ _ H) | symmetry in H; exact (pretty_nat_not_I _ _ H)].
Qed.

Lemma NoDup_symbols (irModule : IRModule') :
  NoDup (globalSymbols irModule ++ functionSymbols target irModule).
Proof.
  unfold globalSymbols, functionSymbols.
  assert (Hseq : forall (c : nat -> Symbol) n, Inj (=) (=) c -> NoDup (c <$> seq 0 n)).
  { intros c n Hc. apply NoDup_fmap_2; [exact Hc | apply NoDup_seq]. }
  repeat (apply NoDup_app; split; [ | split ]);
    try (apply Hseq; intros ? ? [=]; assumption);
    try (destruct (USE_WINDOWS_SEH target));
    try (apply NoDup_nil_2);
    try (apply NoDup_singleton);
    try (apply NoDup_cons; split; [ | apply NoDup_singleton ]);
    try (intros x Hx Hy;
         repeat (apply elem_of_app in Hy as [Hy|Hy]);
         repeat (apply elem_of_app in Hx as [Hx|Hx]);
         repeat match goal with
                | H : _ ∈ _ <$> _ |- _ => apply list_elem_of_fmap in H as (? & ? & _)
                | H : _ ∈ _ :: _ |- _ => apply elem_of_cons in H as [?|H]
                | H : _ ∈ [] |- _ => apply not_elem_of_nil in H; contradiction
                end; congruence).
  all: try (intros Hx; repeat match goal with
                | H : _ ∈ _ :: _ |- _ => apply elem_of_cons in H as [?|H]
                | H : _ ∈ [] |- _ => apply not_elem_of_nil in H; contradiction
                end; congruence).
Qed.

Lemma importedGlobals_names baseName n (c : nat -> Symbol) :
  (forall k, symbolName target (c k) = getExternalName baseName k) ->
  gv_name <$> importedGlobals baseName n = symbolName target <$> (c <$> seq 0 n).
Proof.
  intros Hc. unfold importedGlobals. rewrite <- !list_fmap_compose.
  apply list_fmap_ext. intros _ k _. cbn. symmetry. apply Hc.
Qed.

Lemma declaredGlobals_names (irModule : IRModule') :
  gv_name <$> declaredGlobals irModule = symbolName target <$> globalSymbols irModule.
Proof.
  unfold declaredGlobals, globalSymbols. rewrite !fmap_app.
  rewrite (importedGlobals_names "typeId" _ SymTypeId) by reflexivity.
  rewrite (importedGlobals_names "tableOffset" _ SymTableOffset) by reflexivity.
  rewrite (importedGlobals_names "memoryOffset" _ SymMemoryOffset) by reflexivity.
  rewrite (importedGlobals_names "global" _ SymGlobal) by reflexivity.
  rewrite (importedGlobals_names "exceptionType" _ SymExceptionTypeInstance) by reflexivity.
  rewrite (importedGlobals_names "functionDefInstance" _ SymFunctionDefInstance)
    by reflexivity.
  reflexivity.
Qed.

Lemma functionName_symbols (irModule : IRModule') :
  functionName irModule <$> seq 0 (functions_size irModule)
  = symbolName target <$> ((SymFunctionImport <$> seq 0 (length (functions_imports irModule)))
                    ++ (SymFunctionDef <$> seq 0 (length (functions_defs irModule)))).
Proof.
  unfold functions_size. rewrite seq_app, !fmap_app, <- !list_fmap_compose. f_equal.
  - apply list_fmap_ext. intros i k Hk. apply lookup_seq in Hk as [-> Hk]. cbn.
    unfold functionName.
    destruct (Nat.leb_spec (length (functions_imports irModule)) i); [lia | reflexivity].
  - cbn [Nat.add].
    replace (seq (length (functions_imports irModule)) (length (functions_defs irModule)))
      with (seq (length (functions_imports irModule) + 0) (length (functions_defs irModule)))
      by (f_equal; lia).
    rewrite <- (fmap_add_seq (length (functions_imports irModule)) 0).
    rewrite <- list_fmap_compose.
    apply list_fmap_ext. intros _ k _. cbn. unfold functionName.
    destruct (Nat.leb_spec (length (functions_imports irModule))
                (length (functions_imports irModule) + k)); [ | lia].
    do 2 f_equal. lia.
Qed.

Lemma preamble_names (outLLVMModule : LLVMModule') :
  fn_name <$> preamble target outLLVMModule
  = (fn_name <$> m_functions outLLVMModule)
    ++ (symbolName target <$> ((if USE_WINDOWS_SEH target then [] else [SymCxaBeginCatch])
                        ++ [SymPersonality])).
Proof.
  unfold preamble. rewrite !fmap_app. destruct (USE_WINDOWS_SEH target); reflexivity.
Qed.

Lemma emitModule_function_names
    (irModule : IRModule') (outLLVMModule : LLVMModule') ctx m :
  emitModule target asLLVMType emit irModule outLLVMModule = Some (ctx, m) ->
  fn_name <$> m_functions m
  = (fn_name <$> m_functions outLLVMModule)
    ++ (symbolName target <$> functionSymbols target irModule).
Proof.
  intros Hrun. pose proof (emitModule_inv _ _ _ Hrun) as Hvalid.
  destruct (emitModule_result irModule outLLVMModule Hvalid)
    as (m' & Hrun' & _ & Hlen & Hpre & Himports & Hdefs).
  rewrite Hrun in Hrun'. injection Hrun' as _ <-.
  set (first := length (preamble target outLLVMModule)) in *.
  assert (Hrest : fn_name <$> drop first (m_functions m)
                  = functionName irModule <$> seq 0 (functions_size irModule)).
  { apply list_eq. intros k. rewrite !list_lookup_fmap, lookup_drop.
    destruct (decide (k < functions_size irModule)%nat) as [Hk|Hk].
    - rewrite lookup_seq_lt by exact Hk. cbn.
      destruct (decide (k < length (functions_imports irModule))%nat) as [Hi|Hd].
      + destruct (Himports k Hi) as [[f Hf] Hm]. rewrite Hm, Hf. cbn.
        unfold declaredFunction in Hf.
        destruct (functions_getType irModule k); [ | discriminate]. cbn in Hf.
        destruct (types irModule !! _); [ | discriminate]. cbn in Hf.
        injection Hf as <-. reflexivity.
      + assert (is_Some (functions_defs irModule
                           !! (k - length (functions_imports irModule))%nat)) as [def Hdef].
        { apply lookup_lt_is_Some_2. unfold functions_size in Hk. lia. }
        destruct (Hdefs _ def Hdef) as (f & tid & Hf & _ & Hm).
        replace (first + length (functions_imports irModule)
                 + (k - length (functions_imports irModule)))%nat
          with (first + k)%nat in Hm by lia.
        replace (length (functions_imports irModule)
                 + (k - length (functions_imports irModule)))%nat with k in Hf by lia.
        rewrite Hm. cbn.
        unfold declaredFunction in Hf.
        destruct (functions_getType irModule k); [ | discriminate]. cbn in Hf.
        destruct (types irModule !! _); [ | discriminate]. cbn in Hf.
        injection Hf as <-. reflexivity.
    - rewrite lookup_ge_None_2 by lia. rewrite lookup_seq_ge by lia. reflexivity. }
  rewrite <- (take_drop first (m_functions m)), fmap_app, Hpre, Hrest.
  rewrite preamble_names, functionName_symbols.
  unfold functionSymbols. rewrite <- app_assoc, <- fmap_app, <- app_assoc. reflexivity.
Qed.

(** X26.  The names of the globals and functions emitModule adds to the
    LLVM module are pairwise distinct. *)
Theorem emitModule_symbols_distinct
    (irModule : IRModule') (outLLVMModule : LLVMModule') ctx m :
  emitModule target asLLVMType emit irModule outLLVMModule = Some (ctx, m) ->
  NoDup ((gv_name <$> drop (length (m_globals outLLVMModule)) (m_globals m))
         ++ (fn_name <$> drop (length (m_functions outLLVMModule)) (m_functions m))).
Proof.
  intros Hrun.
  pose proof (emitModule_function_names irModule outLLVMModule ctx m Hrun) as Hfn.
  pose proof (emitModule_inv _ _ _ Hrun) as Hvalid.
  destruct (emitModule_result irModule outLLVMModule Hvalid)
    as (m' & Hrun' & Hg & _).
  rewrite Hrun in Hrun'. injection Hrun' as _ <-.
  rewrite Hg, drop_app_length, declaredGlobals_names.
  rewrite fmap_drop, Hfn.
  replace (length (m_functions outLLVMModule))
    with (length (fn_name <$> m_functions outLLVMModule)) by apply length_fmap.
  rewrite drop_app_length, <- fmap_app.
  apply NoDup_fmap_2; [intros s1 s2; apply symbolName_inj | apply NoDup_symbols].
Qed.

End EmitResult.

Lemma exampleModule_emitted :
  exists ctx m,
    emitModule (mkTarget false false) (fun _ : unit => i32Type) (fun _ _ _ => tt)
      exampleModule (mkLLVMModule [] [])
    = Some (ctx, m).
Proof.
  destruct (emitModule_result (mkTarget false false) (fun _ : unit => i32Type)
              (fun _ _ _ => tt) exampleModule (mkLLVMModule [] []) exampleModule_valid)
    as (m & Hrun & _).
  eauto.
Qed.

Lemma emitModule_declares_globals_witness :
  exists ctx m,
    emitModule (mkTarget false false) (fun _ : unit => i32Type) (fun _ _ _ => tt)
      exampleModule (mkLLVMModule [] [])
    = Some (ctx, m) /\
    m_globals m = declaredGlobals exampleModule /\
    length (declaredGlobals exampleModule) = 8%nat /\
    m_globals m !! 6%nat = Some (importedGlobal "functionDefInstance1").
Proof.
  destruct exampleModule_emitted as (ctx & m & Hrun).
  destruct (emitModule_declares_globals (mkTarget false false) (fun _ : unit => i32Type)
              (fun _ _ _ => tt) exampleModule (mkLLVMModule [] []) ctx m Hrun)
    as (Hglobals & Hlength & _ & Hdefs).
  exists ctx, m. split; [exact Hrun | ]. split; [exact Hglobals | ].
  split; [exact Hlength | ]. apply (Hdefs 1%nat). cbn. lia.
Defined.

Lemma emitModule_context_witness :
  exists ctx m,
    emitModule (mkTarget false false) (fun _ : unit => i32Type) (fun _ _ _ => tt)
      exampleModule (mkLLVMModule [] [])
    = Some (ctx, m) /\
    typeIds ctx = [PtrToInt (GlobalAddress "typeId0") iptrType;
                   PtrToInt (GlobalAddress "typeId1") iptrType] /\
    defaultTableOffset ctx = Some (PtrToInt (GlobalAddress "tableOffset0") iptrType) /\
    defaultMemoryOffset ctx = None.
Proof.
  destruct exampleModule_emitted as (ctx & m & Hrun).
  destruct (emitModule_context (mkTarget false false) (fun _ : unit => i32Type)
              (fun _ _ _ => tt) exampleModule (mkLLVMModule [] []) ctx m Hrun)
    as (Htypes & _ & _ & _ & _ & Htable & Hmemory & _).
  exists ctx, m. split; [exact Hrun | ]. split; [exact Htypes | ].
  split; [exact Htable | exact Hmemory].
Defined.

Lemma emitModule_declares_functions_witness :
  exists ctx m f,
    emitModule (mkTarget false false) (fun _ : unit => i32Type) (fun _ _ _ => tt)
      exampleModule (mkLLVMModule [] [])
    = Some (ctx, m) /\
    length (m_functions m) = 6%nat /\
    functions ctx !! 0%nat = Some (Some 2%nat) /\
    m_functions m !! 2%nat = Some f /\
    fn_name f = "functionImport0" /\
    fn_body f = None.
Proof.
  destruct exampleModule_emitted as (ctx & m & Hrun).
  destruct (emitModule_declares_functions (mkTarget false false) (fun _ : unit => i32Type)
              (fun _ _ _ => tt) exampleModule (mkLLVMModule [] []) ctx m Hrun)
    as (_ & Hlength & _ & Hall).
  destruct (Hall 0%nat) as (Hfn & f & ity & ty & Hf & _ & _ & Hname & _ & _ & _ & Himport).
  - cbn. lia.
  - exists ctx, m, f. split; [exact Hrun | ]. split; [exact Hlength | ].
    split; [exact Hfn | ]. split; [exact Hf | ]. split; [exact Hname | ].
    apply Himport. cbn. lia.
Defined.

Lemma emitModule_bodies_after_all_declarations_witness :
  exists ctx m f,
    emitModule (mkTarget false false) (fun _ : unit => i32Type)
      (fun moduleContext _ _ => length (functions moduleContext))
      exampleModule (mkLLVMModule [] [])
    = Some (ctx, m) /\
    m_functions m !! 3%nat = Some f /\
    fn_body f = Some 4%nat.
Proof.
  destruct (emitModule_result (mkTarget false false) (fun _ : unit => i32Type)
              (fun moduleContext _ _ => length (functions moduleContext))
              exampleModule (mkLLVMModule [] []) exampleModule_valid)
    as (m & Hrun & _).
  destruct (emitModule_bodies_after_all_declarations (mkTarget false false)
              (fun _ : unit => i32Type)
              (fun moduleContext _ _ => length (functions moduleContext))
              exampleModule (mkLLVMModule [] []) _ m Hrun)
    as (_ & _ & Hbodies).
  destruct (Hbodies 0%nat (mkFunctionDef (mkIndexedFunctionType 0) tt) eq_refl)
    as (f & Hf & Hbody).
  eexists _, m, f. split; [exact Hrun | ]. split; [exact Hf | exact Hbody].
Defined.

Lemma emitModule_symbols_distinct_witness :
  exists ctx m,
    emitModule (mkTarget false false) (fun _ : unit => i32Type) (fun _ _ _ => tt)
      exampleModule (mkLLVMModule [] [])
    = Some (ctx, m) /\
    NoDup ((gv_name <$> m_globals m) ++ (fn_name <$> m_functions m)).
Proof.
  destruct exampleModule_emitted as (ctx & m & Hrun).
  exists ctx, m. split; [exact Hrun | ].
  exact (emitModule_symbols_distinct (mkTarget false false) (fun _ : unit => i32Type)
           (fun _ _ _ => tt) exampleModule (mkLLVMModule [] []) ctx m Hrun).
Defined.
